(** * projectoxford/_audio_win32.pyx: the double-buffered waveform engine

    A shallow embedding of the Cython module that drives the Windows
    waveform-audio devices: the error translator [check_mmresult], the
    enumeration of devices, the constructors and [close] of
    [PlaybackDevice] and [RecordingDevice], and the two streaming loops
    [PlaybackDevice.play] and [RecordingDevice.record].

    The audio subsystem, the completion event and the two Python callbacks
    are the environment of this code.  They are modelled as oracles that
    answer from the history of everything that happened so far, and every
    interaction is appended to that history, so that a run of the code is a
    pure function from an environment to an outcome and a log.

    Left out: the creation of the completion event (the event of an
    engine is the one [WaitForSingleObject] of the environment waits on).
    Loops take a bound on their number of turns; a run that reaches the
    bound is reported as cut off, with the log it had produced. *)

From stdpp Require Import gmap strings list.
From Stdlib Require Import ZArith Lia.

Open Scope string_scope.
Open Scope list_scope.
Open Scope Z_scope.

(** ** C integers

    [nchannels], [framerate], [sampwidth] and [samples] are declared [int]:
    32-bit signed.  [WORD], [DWORD], [UINT] and [MMRESULT] are names of
    windows.h; the lines [ctypedef int WORD] and the like inside
    [cdef extern from "windows.h"] only tell Cython that they are integer
    types, and the C compiler takes them as windows.h defines them: [WORD]
    is unsigned with 16 bits, [DWORD], [UINT] and [MMRESULT] are unsigned
    with 32 bits.

    A Python integer is converted to the C type of a parameter at the call
    and raises [OverflowError] when it does not fit.  A product of two C
    [int] is a C [int] and wraps around.  A value stored into a [WORD] or
    [DWORD] field keeps its low 16 or 32 bits.  Cython types the product of
    a [WORD] and an [int] as a [WORD], so that it reaches Python with its
    low 16 bits only. *)

Definition INT_MIN : Z := - 2 ^ 31.
Definition INT_MAX : Z := 2 ^ 31 - 1.
Definition UINT_MAX : Z := 2 ^ 32 - 1.

Definition in_int (z : Z) : Prop := INT_MIN <= z <= INT_MAX.

Definition in_dword (z : Z) : Prop := 0 <= z <= UINT_MAX.

Definition int_wrap (z : Z) : Z := (z + 2 ^ 31) mod 2 ^ 32 - 2 ^ 31.

Definition int_mul (a b : Z) : Z := int_wrap (a * b).

(** The value that a [WORD], or a [DWORD], holds after [z] is stored in
    it. *)
Definition to_word (z : Z) : Z := z mod 2 ^ 16.

Definition to_dword (z : Z) : Z := z mod 2 ^ 32.

(** ** Python exceptions

    [IndexError] is what Cython raises when a Python sequence of [got]
    items is assigned to a C array of [expected] items. *)

Inductive exn : Type :=
| OSError (cause : string) (msg : string) (code : Z)
| OverflowError
| ValueError
| IndexError (expected got : nat)
| PyException (tag : Z).

Definition as_int (z : Z) : exn + Z :=
  if (INT_MIN <=? z) && (z <=? INT_MAX) then inr z else inl OverflowError.

Definition as_dword (z : Z) : exn + Z :=
  if (0 <=? z) && (z <=? UINT_MAX) then inr z else inl OverflowError.

(** ** Constants of windows.h

    The module only declares these names ([cdef extern from "windows.h"]);
    the values are those of mmsystem.h and winbase.h.  [WAVE_MAPPER] is
    [((UINT)-1)]. *)

Definition MMSYSERR_NOERROR : Z := 0.
Definition MMSYSERR_INVALHANDLE : Z := 5.
Definition MMSYSERR_NODRIVER : Z := 6.
Definition MMSYSERR_NOMEM : Z := 7.
Definition WAVERR_STILLPLAYING : Z := 33.
Definition WAVE_MAPPER : Z := 4294967295.
Definition WAVE_ALLOWSYNC : Z := 2.
Definition CALLBACK_EVENT : Z := 327680.
Definition WAVE_FORMAT_PCM : Z := 1.
Definition WAIT_TIMEOUT : Z := 258.
Definition WHDR_DONE : Z := 1.

(** ** Structures *)

Record WAVEFORMATEX : Type := {
  wFormatTag : Z;
  nChannels : Z;
  nSamplesPerSec : Z;
  nAvgBytesPerSec : Z;
  nBlockAlign : Z;
  wBitsPerSample : Z;
  cbSize : Z
}.

(** The two [WAVEHDR] locals of [play] and [record]. *)
Inductive slot : Type := hdr1 | hdr2.

(** The two bytearrays that [record] allocates. *)
Inductive region : Type := bufA | bufB.

(** What [lpData] points to: nothing after [ZeroMemory], a [bytes] object
    returned by the producer, or one of the bytearrays of [record]. *)
Inductive buffer : Type :=
| NULL
| PyBytes (data : list Byte.byte)
| PyByteArray (r : region).

(** The fields of a [WAVEHDR] that the module writes.  [dwFlags] is written
    by the device and is read from the environment. *)
Record WAVEHDR : Type := {
  lpData : buffer;
  dwBufferLength : Z
}.

Definition ZeroMemory : WAVEHDR := {| lpData := NULL; dwBufferLength := 0 |}.

(** ** The environment *)

Inductive devcall : Type :=
| waveOutOpen (dev_id : Z) (fmt : WAVEFORMATEX) (fdwOpen : Z)
| waveOutReset
| waveOutClose
| waveOutPrepareHeader (w : slot) (h : WAVEHDR)
| waveOutUnprepareHeader (w : slot) (h : WAVEHDR)
| waveOutWrite (w : slot) (h : WAVEHDR)
| waveInOpen (dev_id : Z) (fmt : WAVEFORMATEX) (fdwOpen : Z)
| waveInStart
| waveInStop
| waveInReset
| waveInClose
| waveInPrepareHeader (w : slot) (h : WAVEHDR)
| waveInUnprepareHeader (w : slot) (h : WAVEHDR)
| waveInAddBuffer (w : slot) (h : WAVEHDR).

(** The result of invoking a Python callback. *)
Inductive cbres (A : Type) : Type :=
| CbRet (a : A)
| CbRaise (e : exn).
Arguments CbRet {A} a.
Arguments CbRaise {A} e.

Inductive event : Type :=
| EvCall (c : devcall) (r : Z)
| EvWait (r : Z)
| EvFlags (w : slot) (v : Z)
| EvGetData (res : cbres (option (list Byte.byte)))
| EvOnChunk (buf : region) (len : Z) (res : cbres bool)
| EvCloseHandle.

(** A log holds the newest event first. *)
Definition trace : Type := list event.

(** The subsystem: the [MMRESULT] of each call, the result of each wait on
    the completion event, the [dwFlags] the device has written into a
    header, and the error text lookups ([r2], text). *)
Record world : Type := {
  mmresult : trace -> devcall -> Z;
  WaitForSingleObject : trace -> Z;
  dwFlags : trace -> slot -> Z;
  waveInGetErrorTextW : Z -> Z * string;
  waveOutGetErrorTextW : Z -> Z * string
}.

(** ** The error translator *)

Definition ERROR_CODES : gmap Z string :=
  <[WAVERR_STILLPLAYING := "WAVERR_STILLPLAYING"]>
  (<[MMSYSERR_INVALHANDLE := "MMSYSERR_INVALHANDLE"]>
  (<[MMSYSERR_NODRIVER := "MMSYSERR_NODRIVER"]>
  (<[MMSYSERR_NOMEM := "MMSYSERR_NOMEM"]> ∅))).

(** The assignment of the Python string [o] to a C array of [n]
    characters, as Cython compiles it: the characters are copied when [o]
    has exactly [n] of them, and [IndexError] is raised otherwise. *)
Definition carray_from_py (o : string) (n : nat) : exn + string :=
  if (String.length o =? n)%nat then inr o
  else inl (IndexError n (String.length o)).

(** [check_mmresult] returns 0 or raises.  [msg] is a C array,
    [Py_UNICODE[256]], that the text lookup fills.  When the lookup fails
    ([r2] is not 0), [msg = ERROR_CODES.get(r, 'UNKNOWN_ERROR')] assigns a
    Python string to that array.  The [OSError] raised in the end,
    [OSError("Failed to {}: {} (0x{:x})".format(cause, msg, r))], is kept as
    the three arguments of the format. *)
Definition check_mmresult (W : world) (r : Z) (cause : string) (for_in : bool)
  : exn + Z :=
  if r =? MMSYSERR_NOERROR then inr 0
  else
    let '(r2, msg) :=
      if for_in then waveInGetErrorTextW W r else waveOutGetErrorTextW W r in
    if negb (r2 =? 0) then
      match carray_from_py (default "UNKNOWN_ERROR" (ERROR_CODES !! r)) 256 with
      | inl e => inl e
      | inr msg => inl (OSError cause msg r)
      end
    else inl (OSError cause msg r).

Definition check_mmr_in (W : world) (r : Z) (cause : string) : exn + Z :=
  check_mmresult W r cause true.

Definition check_mmr_out (W : world) (r : Z) (cause : string) : exn + Z :=
  check_mmresult W r cause false.

(** The error that reaches the caller for a code [r] other than
    [MMSYSERR_NOERROR]: the [OSError] with the subsystem's text when the
    text lookup succeeds, and otherwise the [IndexError] of the assignment
    to [msg], which the name of the table, or UNKNOWN_ERROR, never fills. *)
Inductive translated (W : world) (r : Z) (cause : string) (for_in : bool)
  : exn -> Prop :=
| with_text (msg : string) :
    r <> MMSYSERR_NOERROR ->
    (if for_in then waveInGetErrorTextW W r else waveOutGetErrorTextW W r)
    = (0, msg) ->
    translated W r cause for_in (OSError cause msg r)
| without_text (r2 : Z) (msg : string) :
    r <> MMSYSERR_NOERROR ->
    (if for_in then waveInGetErrorTextW W r else waveOutGetErrorTextW W r)
    = (r2, msg) ->
    r2 <> 0 ->
    translated W r cause for_in
      (IndexError 256
         (String.length (default "UNKNOWN_ERROR" (ERROR_CODES !! r)))).

(** ** Runs of the code

    A computation reads the log, appends to it, and either finishes, raises
    a Python exception, or is cut off by the bound on loop iterations. *)

Inductive outcome (A : Type) : Type :=
| Done (a : A)
| Raised (e : exn)
| OutOfFuel.
Arguments Done {A} a.
Arguments Raised {A} e.
Arguments OutOfFuel {A}.

Definition M (A : Type) : Type := trace -> outcome A * trace.

Definition ret {A} (a : A) : M A := fun t => (Done a, t).

Definition raise {A} (e : exn) : M A := fun t => (Raised e, t).

Definition out_of_fuel {A} : M A := fun t => (OutOfFuel, t).

Definition bind {A B} (m : M A) (k : A -> M B) : M B :=
  fun t =>
    match m t with
    | (Done a, t1) => k a t1
    | (Raised e, t1) => (Raised e, t1)
    | (OutOfFuel, t1) => (OutOfFuel, t1)
    end.

Notation "'let*' x ':=' m 'in' k" := (bind m (fun x => k))
  (at level 10, x name, m at level 100, k at level 200).
Notation "'let*' ' p ':=' m 'in' k" := (bind m (fun p => k))
  (at level 10, p strict pattern, m at level 100, k at level 200).
Notation "m >> k" := (bind m (fun _ => k))
  (at level 65, right associativity).

(** A C function declared [except? -1]: its error return becomes a raise. *)
Definition lift {A} (x : exn + A) : M A :=
  match x with
  | inl e => raise e
  | inr a => ret a
  end.

(** Python's [try: body finally: fin].  [fin] is told whether the body ran
    to its end, which is what the local [success] records in the source.
    An exception of [fin] replaces the one of the body. *)
Definition try_finally {A} (body : M A) (fin : bool -> M unit) : M A :=
  fun t =>
    match body t with
    | (Done a, t1) =>
        match fin true t1 with
        | (Done _, t2) => (Done a, t2)
        | (Raised e, t2) => (Raised e, t2)
        | (OutOfFuel, t2) => (OutOfFuel, t2)
        end
    | (Raised e, t1) =>
        match fin false t1 with
        | (Done _, t2) => (Raised e, t2)
        | (Raised e', t2) => (Raised e', t2)
        | (OutOfFuel, t2) => (OutOfFuel, t2)
        end
    | (OutOfFuel, t1) => (OutOfFuel, t1)
    end.

(** *** Interactions *)

Definition call (W : world) (c : devcall) : M Z :=
  fun t => let r := mmresult W t c in (Done r, EvCall c r :: t).

Definition wait_event (W : world) : M Z :=
  fun t => let r := WaitForSingleObject W t in (Done r, EvWait r :: t).

Definition read_flags (W : world) (w : slot) : M Z :=
  fun t => let v := dwFlags W t w in (Done v, EvFlags w v :: t).

Definition is_get_data (e : event) : bool :=
  match e with EvGetData _ => true | _ => false end.

Definition is_on_chunk (e : event) : bool :=
  match e with EvOnChunk _ _ _ => true | _ => false end.

Definition count (p : event -> bool) (t : trace) : nat :=
  length (List.filter p t).

Definition of_cbres {A} (res : cbres A) : outcome A :=
  match res with
  | CbRet a => Done a
  | CbRaise e => Raised e
  end.

(** A callback is given by what its invocations return or raise, in order:
    [get_data n] is the outcome of invocation [n], counted from 0. *)
Definition call_get_data (get_data : nat -> cbres (option (list Byte.byte)))
  : M (option (list Byte.byte)) :=
  fun t => let res := get_data (count is_get_data t) in
           (of_cbres res, EvGetData res :: t).

Definition call_on_chunk (on_chunk : nat -> cbres bool) (buf : region) (len : Z)
  : M bool :=
  fun t => let res := on_chunk (count is_on_chunk t) in
           (of_cbres res, EvOnChunk buf len res :: t).

(** *** The header helpers

    They are [cdef void] functions whose body calls the translator.  A
    failing call raises out of them, which skips the rest of the helper:
    this is how Cython handles a [cdef] function without an exception
    clause since version 3 (earlier versions printed the error and went
    on). *)

Definition hdr_in_prepare_add (W : world) (w : slot) (h : WAVEHDR) : M unit :=
  let* r := call W (waveInPrepareHeader w h) in
  let* _ := lift (check_mmr_in W r "prepare audio buffer") in
  let* r := call W (waveInAddBuffer w h) in
  let* _ := lift (check_mmr_in W r "add audio buffer") in
  ret tt.

Definition hdr_in_unprepare (W : world) (w : slot) (h : WAVEHDR) : M unit :=
  let* r := call W (waveInUnprepareHeader w h) in
  let* _ := lift (check_mmr_in W r "unprepare audio buffer") in
  ret tt.

Definition hdr_out_prepare_write (W : world) (w : slot) (h : WAVEHDR) : M unit :=
  let* r := call W (waveOutPrepareHeader w h) in
  let* _ := lift (check_mmr_out W r "prepare audio data") in
  let* r := call W (waveOutWrite w h) in
  let* _ := lift (check_mmr_out W r "write audio data") in
  ret tt.

Definition hdr_out_unprepare (W : world) (w : slot) (h : WAVEHDR) : M unit :=
  let* r := call W (waveOutUnprepareHeader w h) in
  let* _ := lift (check_mmr_out W r "unprepare audio buffer") in
  ret tt.

(** *** The wait for one buffer

    [while True: r = WaitForSingleObject(evt, 500);
     if r != 0 or (phdr.dwFlags & 1) == 1: break].
    [or] does not read the flags when [r != 0]. *)
Fixpoint wait_done (W : world) (wfuel : nat) (phdr : slot) : M unit :=
  match wfuel with
  | O => out_of_fuel
  | S wfuel =>
      let* r := wait_event W in
      if negb (r =? 0) then ret tt
      else
        let* v := read_flags W phdr in
        if Z.land v 1 =? 1 then ret tt
        else wait_done W wfuel phdr
  end.

(** The two header locals, addressed by the pointers [phdr], [pnext_hdr]. *)
Definition headers : Type := slot -> WAVEHDR.

Definition slot_eqb (a b : slot) : bool :=
  match a, b with
  | hdr1, hdr1 | hdr2, hdr2 => true
  | _, _ => false
  end.

Definition store (p : slot) (h : WAVEHDR) (hs : headers) : headers :=
  fun q => if slot_eqb p q then h else hs q.

(** Python truth of what the producer returned: [None] and [b''] are false. *)
Definition truthy (data : option (list Byte.byte)) : bool :=
  match data with
  | Some (_ :: _) => true
  | _ => false
  end.

Definition bytes_of (data : option (list Byte.byte)) : list Byte.byte :=
  match data with
  | Some l => l
  | None => []
  end.

(** [lpData = data; dwBufferLength = len(data)] *)
Definition hdr_of_bytes (data : option (list Byte.byte)) : WAVEHDR :=
  {| lpData := PyBytes (bytes_of data);
     dwBufferLength := to_dword (Z.of_nat (length (bytes_of data))) |}.

(** ** The engines *)

(** [_c_fmt] is filled by the constructor from its three [int] arguments;
    the products are C [int] products, and each value is stored into a
    [WORD] or a [DWORD] field. *)
Definition make_format (nchannels framerate sampwidth : Z) : WAVEFORMATEX :=
  {| wFormatTag := WAVE_FORMAT_PCM;
     nChannels := to_word nchannels;
     nSamplesPerSec := to_dword framerate;
     nAvgBytesPerSec :=
       to_dword (int_mul (int_mul sampwidth nchannels) framerate);
     nBlockAlign := to_word (int_mul sampwidth nchannels);
     wBitsPerSample := to_word (int_mul sampwidth 8);
     cbSize := 0 |}.

(** [CloseHandle(self._c_evt)] *)
Definition close_handle : M unit := fun t => (Done tt, EvCloseHandle :: t).

Module PlaybackDevice.

Record t : Type := { _c_fmt : WAVEFORMATEX }.

Definition __cinit__ (W : world) (dev_id nchannels framerate sampwidth : Z)
  : M t :=
  let* dev_id := lift (as_dword dev_id) in
  let* nchannels := lift (as_int nchannels) in
  let* framerate := lift (as_int framerate) in
  let* sampwidth := lift (as_int sampwidth) in
  let fmt := make_format nchannels framerate sampwidth in
  let* r := call W (waveOutOpen dev_id fmt
                      (Z.lor WAVE_ALLOWSYNC CALLBACK_EVENT)) in
  let* _ := lift (check_mmr_out W r "open audio device") in
  ret {| _c_fmt := fmt |}.

Definition close (W : world) : M unit :=
  close_handle >>
  (let* r := call W waveOutReset in
   lift (check_mmr_out W r "reset audio device")) >>
  (let* r := call W waveOutClose in
   lift (check_mmr_out W r "close audio device")) >>
  ret tt.

Section Play.
Variable W : world.
Variable wfuel : nat.
Variable get_data : nat -> cbres (option (list Byte.byte)).

(** One turn of [while not exit:], entered with the pointers as they
    are before the swap.  The swap of [data] and [data2] only keeps the
    bytes object of the buffer in flight alive; here the headers hold the
    data. *)
Fixpoint play_loop (fuel : nat) (phdr pnext_hdr : slot) (hs : headers)
  : M unit :=
  match fuel with
  | O => out_of_fuel
  | S fuel =>
      let '(phdr, pnext_hdr) := (pnext_hdr, phdr) in
      let* data :=
        try_finally (call_get_data get_data)
          (fun success =>
             if success then ret tt
             else
               let* r := call W waveOutReset in
               let* _ := lift (check_mmr_out W r "reset audio device") in
               hdr_out_unprepare W phdr (hs phdr)) in
      let* '(exit, hs) :=
        if truthy data then
          let hs := store pnext_hdr (hdr_of_bytes data) hs in
          hdr_out_prepare_write W pnext_hdr (hs pnext_hdr) >>
          ret (false, hs)
        else ret (true, hs) in
      wait_done W wfuel phdr >>
      hdr_out_unprepare W phdr (hs phdr) >>
      if exit then ret tt else play_loop fuel phdr pnext_hdr hs
  end.

Definition play (fuel : nat) : M unit :=
  let* data := call_get_data get_data in
  if negb (truthy data) then ret tt
  else
    let hs : headers := fun _ => ZeroMemory in
    let phdr := hdr1 in
    let pnext_hdr := hdr2 in
    let hs := store pnext_hdr (hdr_of_bytes data) hs in
    hdr_out_prepare_write W pnext_hdr (hs pnext_hdr) >>
    play_loop fuel phdr pnext_hdr hs.
End Play.

End PlaybackDevice.

Module RecordingDevice.

Record t : Type := { _c_fmt : WAVEFORMATEX }.

Definition __cinit__ (W : world) (dev_id nchannels framerate sampwidth : Z)
  : M t :=
  let* dev_id := lift (as_dword dev_id) in
  let* nchannels := lift (as_int nchannels) in
  let* framerate := lift (as_int framerate) in
  let* sampwidth := lift (as_int sampwidth) in
  let fmt := make_format nchannels framerate sampwidth in
  let* r := call W (waveInOpen dev_id fmt CALLBACK_EVENT) in
  let* _ := lift (check_mmr_in W r "open audio device") in
  ret {| _c_fmt := fmt |}.

Definition close (W : world) : M unit :=
  close_handle >>
  (let* r := call W waveInReset in
   lift (check_mmr_in W r "reset audio device")) >>
  (let* r := call W waveInClose in
   lift (check_mmr_in W r "close audio device")) >>
  ret tt.

(** [bytearray(n)] raises [ValueError] for a negative [n].  [record] calls
    it with a [WORD], which is never negative. *)
Definition bytearray (n : Z) : M Z :=
  if n <? 0 then raise ValueError else ret n.

Section Record.
Variable W : world.
Variable wfuel : nat.
Variable on_chunk : nat -> cbres bool.

(** One turn of [while another:].  [len] is the length of both
    bytearrays. *)
Fixpoint record_loop (fuel : nat) (phdr pnext_hdr : slot)
    (data1 data2 : region) (len : Z) (hs : headers) : M unit :=
  match fuel with
  | O => out_of_fuel
  | S fuel =>
      hdr_in_prepare_add W pnext_hdr (hs pnext_hdr) >>
      wait_done W wfuel phdr >>
      let* another :=
        try_finally (call_on_chunk on_chunk data1 len)
          (fun success =>
             hdr_in_unprepare W phdr (hs phdr) >>
             if success then ret tt
             else
               let* r := call W waveInReset in
               let* _ := lift (check_mmr_in W r "reset audio device") in
               hdr_in_unprepare W pnext_hdr (hs pnext_hdr)) in
      let '(phdr, pnext_hdr) := (pnext_hdr, phdr) in
      let '(data1, data2) := (data2, data1) in
      if another then record_loop fuel phdr pnext_hdr data1 data2 len hs
      else ret tt
  end.

Definition record (self : t) (fuel : nat) (samples : Z) : M unit :=
  let* samples := lift (as_int samples) in
  let phdr := hdr1 in
  let pnext_hdr := hdr2 in
  let hs : headers := fun _ => ZeroMemory in
  let* len :=
    bytearray (to_word (int_mul (nBlockAlign (_c_fmt self)) samples)) in
  let data1 := bufA in
  let data2 := bufB in
  let hs := store phdr
              {| lpData := PyByteArray data1;
                 dwBufferLength := to_dword len |} hs in
  let hs := store pnext_hdr
              {| lpData := PyByteArray data2;
                 dwBufferLength := to_dword len |} hs in
  hdr_in_prepare_add W phdr (hs phdr) >>
  (let* r := call W waveInStart in
   lift (check_mmr_in W r "start recording")) >>
  try_finally
    (record_loop fuel phdr pnext_hdr data1 data2 len hs)
    (fun _ =>
       let* r := call W waveInStop in
       let* _ := lift (check_mmr_in W r "stop recording") in
       ret tt).
End Record.

End RecordingDevice.

(** ** Environments used in examples *)

(** A subsystem on which every call succeeds, the event is signalled and the
    waited buffer is done at the first look. *)
Definition ideal : world :=
  {| mmresult := fun _ _ => MMSYSERR_NOERROR;
     WaitForSingleObject := fun _ => 0;
     dwFlags := fun _ _ => WHDR_DONE;
     waveInGetErrorTextW := fun _ => (1, "");
     waveOutGetErrorTextW := fun _ => (1, "") |}.

Definition sample_rec : RecordingDevice.t :=
  {| RecordingDevice._c_fmt := make_format 2 44100 2 |}.

(** ** Names of failing codes, as specified *)

(** The name the specification gives to a failing code: the table first,
    then the subsystem's text, then UNKNOWN_ERROR. *)
Definition spec_error_name (W : world) (r : Z) (for_in : bool) : string :=
  match ERROR_CODES !! r with
  | Some name => name
  | None =>
      let '(r2, msg) :=
        if for_in then waveInGetErrorTextW W r else waveOutGetErrorTextW W r in
      if r2 =? 0 then msg else "UNKNOWN_ERROR"
  end.

(** A subsystem that has a text for every code. *)
Definition talkative : world :=
  {| mmresult := fun _ _ => MMSYSERR_NOMEM;
     WaitForSingleObject := fun _ => 0;
     dwFlags := fun _ _ => WHDR_DONE;
     waveInGetErrorTextW := fun _ => (0, "Not enough memory.");
     waveOutGetErrorTextW := fun _ => (0, "Not enough memory.") |}.


(** ** Construction *)

(** [fmt] is the format of an engine that a constructor call returned. *)
Definition accepted (W : world) (dev_id nchannels framerate sampwidth : Z)
    (t : trace) (fmt : WAVEFORMATEX) : Prop :=
  (exists t', PlaybackDevice.__cinit__ W dev_id nchannels framerate sampwidth t
              = (Done {| PlaybackDevice._c_fmt := fmt |}, t')) \/
  (exists t', RecordingDevice.__cinit__ W dev_id nchannels framerate sampwidth t
              = (Done {| RecordingDevice._c_fmt := fmt |}, t')).

(** ** Reading a log *)

(** The entries of a log that [f] selects, oldest first. *)
Fixpoint collect {A} (f : event -> option A) (t : trace) : list A :=
  match t with
  | [] => []
  | e :: t' => collect f t' ++ option_list (f e)
  end.

(** A buffer is submitted by a [waveOutWrite] or a [waveInAddBuffer] that
    returns [MMSYSERR_NOERROR], and released by an unprepare call that does. *)
Definition submitted (e : event) : option (slot * WAVEHDR) :=
  match e with
  | EvCall (waveOutWrite w h) r | EvCall (waveInAddBuffer w h) r =>
      if r =? MMSYSERR_NOERROR then Some (w, h) else None
  | _ => None
  end.

Definition released (e : event) : option (slot * WAVEHDR) :=
  match e with
  | EvCall (waveOutUnprepareHeader w h) r
  | EvCall (waveInUnprepareHeader w h) r =>
      if r =? MMSYSERR_NOERROR then Some (w, h) else None
  | _ => None
  end.

Definition submissions (t : trace) : list (slot * WAVEHDR) :=
  collect submitted t.

Definition releases (t : trace) : list (slot * WAVEHDR) :=
  collect released t.

(** Buffers that are with the device: submitted and not yet released. *)
Definition outstanding (t : trace) : Z :=
  Z.of_nat (length (submissions t)) - Z.of_nat (length (releases t)).

(** Any call to the subsystem, whatever it returns. *)
Definition device_call (e : event) : option devcall :=
  match e with
  | EvCall c _ => Some c
  | _ => None
  end.

(** What the consumer was given, invocation by invocation. *)
Definition chunk_view (e : event) : option (region * Z) :=
  match e with
  | EvOnChunk buf len _ => Some (buf, len)
  | _ => None
  end.

Definition chunks_given (t : trace) : list (region * Z) :=
  collect chunk_view t.

Definition is_wait (e : event) : bool :=
  match e with
  | EvWait _ | EvFlags _ _ => true
  | _ => false
  end.

(** The engine is inside the wait for a buffer. *)
Definition waiting (t : trace) : Prop :=
  match t with
  | e :: _ => is_wait e = true
  | [] => False
  end.

(** [P] holds of the log as it stood at every moment of the run. *)
Definition at_every_moment (P : trace -> Prop) (t : trace) : Prop :=
  forall later now, t = later ++ now -> P now.

(** ** The rounds of one wait, oldest event first *)

(** A wait that ended: rounds in which the event was signalled and the
    flag was not set, then a round that either returned non-zero from the
    event wait, or saw the flag. *)
Inductive wait_ended (w : slot) : list event -> Prop :=
| wait_nonzero (r : Z) :
    r <> 0 -> wait_ended w [EvWait r]
| wait_flag_set (v : Z) :
    Z.land v 1 = 1 -> wait_ended w [EvWait 0; EvFlags w v]
| wait_once_more (v : Z) (l : list event) :
    Z.land v 1 <> 1 -> wait_ended w l ->
    wait_ended w (EvWait 0 :: EvFlags w v :: l).

(** A wait that is still going on. *)
Inductive wait_going (w : slot) : list event -> Prop :=
| wait_start : wait_going w []
| wait_another (v : Z) (l : list event) :
    Z.land v 1 <> 1 -> wait_going w l ->
    wait_going w (EvWait 0 :: EvFlags w v :: l).

(** A subsystem whose event wait times out while no buffer completes. *)
Definition stalled : world :=
  {| mmresult := fun _ _ => MMSYSERR_NOERROR;
     WaitForSingleObject := fun _ => WAIT_TIMEOUT;
     dwFlags := fun _ _ => 0;
     waveInGetErrorTextW := fun _ => (1, "");
     waveOutGetErrorTextW := fun _ => (1, "") |}.

Definition one_chunk (n : nat) : cbres (option (list Byte.byte)) :=
  match n with
  | O => CbRet (Some [Byte.x2a])
  | _ => CbRet None
  end.

(** ** Well-behaved environments *)

(** Every call to the subsystem succeeds. *)
Definition device_ok (W : world) : Prop :=
  forall t c, mmresult W t c = MMSYSERR_NOERROR.

(** Every wait for a buffer ends within [wfuel] rounds. *)
Definition waits_end (W : world) (wfuel : nat) : Prop :=
  forall t w, fst (wait_done W wfuel w t) = Done tt.

Definition other (w : slot) : slot :=
  match w with
  | hdr1 => hdr2
  | hdr2 => hdr1
  end.

(** Headers put in turn into the two slots, starting with [w]. *)
Fixpoint alternate (w : slot) (l : list WAVEHDR) : list (slot * WAVEHDR) :=
  match l with
  | [] => []
  | h :: l' => (w, h) :: alternate (other w) l'
  end.

(** The two headers of [record] once [lpData] and [dwBufferLength] are set. *)
Definition record_headers (len : Z) : headers :=
  store hdr2 {| lpData := PyByteArray bufB; dwBufferLength := to_dword len |}
    (store hdr1 {| lpData := PyByteArray bufA; dwBufferLength := to_dword len |}
       (fun _ => ZeroMemory)).

Definition chunk_hdr (c : list Byte.byte) : WAVEHDR := hdr_of_bytes (Some c).

(** Consumers and producers used in examples. *)
Definition stop_at_once (n : nat) : cbres bool := CbRet false.

Definition fail_at_once (n : nat) : cbres bool := CbRaise (PyException 1).

Definition raise_at_once (n : nat) : cbres (option (list Byte.byte)) :=
  CbRaise (PyException 1).

Definition raise_second (n : nat) : cbres (option (list Byte.byte)) :=
  match n with
  | O => CbRet (Some [Byte.x2a])
  | _ => CbRaise (PyException 1)
  end.

Definition two_chunks (n : nat) : cbres (option (list Byte.byte)) :=
  match n with
  | 0%nat => CbRet (Some [Byte.x2a])
  | 1%nat => CbRet (Some [Byte.x2b; Byte.x2c])
  | _ => CbRet None
  end.

Definition two_turns (n : nat) : cbres bool :=
  match n with
  | O => CbRet true
  | _ => CbRet false
  end.

(** ** What holds at every moment of a recording *)

(** The bytearray that the consumer is given at invocation [n], counted
    from 0. *)
Definition region_at (n : nat) : region :=
  if Nat.even n then bufA else bufB.

(** The bytearray that the consumer was given last. *)
Fixpoint last_chunk (t : trace) : option region :=
  match t with
  | [] => None
  | EvOnChunk b _ _ :: _ => Some b
  | _ :: t' => last_chunk t'
  end.

(** The buffers handed to the device since the consumer was last invoked. *)
Fixpoint queued_since_chunk (t : trace) : list buffer :=
  match t with
  | [] => []
  | EvOnChunk _ _ _ :: _ => []
  | e :: t' =>
      match submitted e with
      | Some (_, h) => lpData h :: queued_since_chunk t'
      | None => queued_since_chunk t'
      end
  end.

(** At most two buffers are with the device; while the engine waits, both
    are; and the consumer is given the two bytearrays in turn, each with
    [len] bytes, the one it was given before being back with the device. *)
Definition record_moment (len : Z) (t : trace) : Prop :=
  outstanding t <= 2 /\
  (waiting t -> outstanding t = 2) /\
  match t with
  | EvOnChunk b l _ :: t' =>
      b = region_at (count is_on_chunk t') /\
      l = len /\
      (forall b0, last_chunk t' = Some b0 ->
                  In (PyByteArray b0) (queued_since_chunk t'))
  | _ => True
  end.

Definition record_inv (len : Z) : trace -> Prop :=
  at_every_moment (record_moment len).

(** The points of one turn of the loop of [record]: at its top, with the
    current buffer [d1] at the device; once the next buffer [d2] is queued
    too; and once the consumer has been given [d1]. *)
Definition at_top (len : Z) (d1 d2 : region) (t : trace) : Prop :=
  record_inv len t /\
  outstanding t = 1 /\
  d1 = region_at (count is_on_chunk t) /\
  d2 = region_at (S (count is_on_chunk t)) /\
  (forall b0, last_chunk t = Some b0 -> b0 = d2).

Definition both_queued (len : Z) (d1 d2 : region) (t : trace) : Prop :=
  record_inv len t /\
  outstanding t = 2 /\
  d1 = region_at (count is_on_chunk t) /\
  d2 = region_at (S (count is_on_chunk t)) /\
  (forall b0, last_chunk t = Some b0 ->
              In (PyByteArray b0) (queued_since_chunk t)).

Definition chunk_given (len : Z) (d1 d2 : region) (t : trace) : Prop :=
  record_inv len t /\
  outstanding t = 2 /\
  d2 = region_at (count is_on_chunk t) /\
  d1 = region_at (S (count is_on_chunk t)) /\
  last_chunk t = Some d1.

(** ** Assertions on runs *)

(** From a log that satisfies [P], [m] finishes in a log that satisfies
    [Q], or stops early (an exception, or the bound on iterations) in a log
    that satisfies [E]. *)
Definition hoare {A} (P : trace -> Prop) (m : M A) (Q : A -> trace -> Prop)
    (E : trace -> Prop) : Prop :=
  forall t, P t ->
    match m t with
    | (Done a, t') => Q a t'
    | (Raised _, t') => E t'
    | (OutOfFuel, t') => E t'
    end.

(** ** Device enumeration

    [waveOutGetNumDevs], [waveInGetNumDevs] and the two capability queries
    are answered by the environment; a query returns its result code, the
    name [szPname] and, for an input device, [wChannels]. *)

Record mixer : Type := {
  waveOutGetNumDevs : Z;
  waveOutGetDevCapsW : Z -> Z * string;
  waveInGetNumDevs : Z;
  waveInGetDevCapsW : Z -> Z * (string * Z)
}.

(** The turns of [for i in range(n):] that are left, with the list so far. *)
Fixpoint playback_devices_from (W : world) (mx : mixer) (n : nat) (i : Z)
    (devs : list (string * Z)) : exn + list (string * Z) :=
  match n with
  | O => inr devs
  | S n =>
      let '(r, szPname) := waveOutGetDevCapsW mx i in
      match check_mmr_out W r "get device capabilities" with
      | inl e => inl e
      | inr _ => playback_devices_from W mx n (i + 1) (devs ++ [(szPname, i)])
      end
  end.

Definition _get_playback_devices (W : world) (mx : mixer)
  : exn + list (string * Z) :=
  playback_devices_from W mx (Z.to_nat (waveOutGetNumDevs mx)) 0
    [("Default", WAVE_MAPPER)].

Fixpoint recording_devices_from (W : world) (mx : mixer) (n : nat) (i : Z)
    (devs : list (string * Z * option Z)) : exn + list (string * Z * option Z) :=
  match n with
  | O => inr devs
  | S n =>
      let '(r, (szPname, wChannels)) := waveInGetDevCapsW mx i in
      match check_mmr_in W r "get device capabilities" with
      | inl e => inl e
      | inr _ =>
          recording_devices_from W mx n (i + 1)
            (devs ++ [(szPname, i, Some wChannels)])
      end
  end.

(** The first entry of the recording list is the pair
    [("Default", WAVE_MAPPER)], without a channel count. *)
Definition _get_recording_devices (W : world) (mx : mixer)
  : exn + list (string * Z * option Z) :=
  recording_devices_from W mx (Z.to_nat (waveInGetNumDevs mx)) 0
    [("Default", WAVE_MAPPER, None)].

(** The ids [0 .. n - 1] that [range(n)] yields. *)
Definition range (n : Z) : list Z := map Z.of_nat (seq 0 (Z.to_nat n)).

(** ** The life of a header

    A header is idle, then prepared by a successful prepare call, then
    submitted by a successful [waveOutWrite] or [waveInAddBuffer], and idle
    again after a successful unprepare call. *)

Inductive hstate : Type := Idle | Prepared | Submitted.

(** What a call that succeeded did to a header. *)
Definition header_effect (e : event) : option (slot * hstate) :=
  match e with
  | EvCall (waveOutPrepareHeader w _) r | EvCall (waveInPrepareHeader w _) r =>
      if r =? MMSYSERR_NOERROR then Some (w, Prepared) else None
  | EvCall (waveOutWrite w _) r | EvCall (waveInAddBuffer w _) r =>
      if r =? MMSYSERR_NOERROR then Some (w, Submitted) else None
  | EvCall (waveOutUnprepareHeader w _) r
  | EvCall (waveInUnprepareHeader w _) r =>
      if r =? MMSYSERR_NOERROR then Some (w, Idle) else None
  | _ => None
  end.

Fixpoint hstate_of (w : slot) (t : trace) : hstate :=
  match t with
  | [] => Idle
  | e :: t' =>
      match header_effect e with
      | Some (w', s) => if slot_eqb w' w then s else hstate_of w t'
      | None => hstate_of w t'
      end
  end.

(** The state a call expects its header to be in. *)
Definition header_need (e : event) : option (slot * hstate) :=
  match e with
  | EvCall (waveOutPrepareHeader w _) _ | EvCall (waveInPrepareHeader w _) _ =>
      Some (w, Idle)
  | EvCall (waveOutWrite w _) _ | EvCall (waveInAddBuffer w _) _ =>
      Some (w, Prepared)
  | EvCall (waveOutUnprepareHeader w _) _
  | EvCall (waveInUnprepareHeader w _) _ =>
      Some (w, Submitted)
  | _ => None
  end.

(** The newest event of the log is a call on a header in the state the
    call expects, or is no call on a header. *)
Definition legal (t : trace) : Prop :=
  match t with
  | [] => True
  | e :: before =>
      match header_need e with
      | Some (w, s) => hstate_of w before = s
      | None => True
      end
  end.

(** The buffers released so far are the first of those submitted, in
    the same order and with the same header contents, and at most two
    submitted buffers are not released. *)
Definition fifo (t : trace) : Prop :=
  exists rest, submissions t = releases t ++ rest /\ (length rest <= 2)%nat.

Definition engine_moment (t : trace) : Prop := fifo t /\ legal t.

Definition engine_inv : trace -> Prop := at_every_moment engine_moment.

Definition is_stop (e : event) : bool :=
  match e with
  | EvCall waveInStop _ => true
  | _ => false
  end.

(** From a log that satisfies [P], [m] finishes in a log that satisfies
    [Q], raises [e] in a log that satisfies [E e], or is cut off in a log
    that satisfies [F]. *)
Definition run {A} (P : trace -> Prop) (m : M A) (Q : A -> trace -> Prop)
    (E : exn -> trace -> Prop) (F : trace -> Prop) : Prop :=
  forall t, P t ->
    match m t with
    | (Done a, t') => Q a t'
    | (Raised e, t') => E e t'
    | (OutOfFuel, t') => F t'
    end.

(** An assertion that waits do not disturb. *)
Definition wait_stable (A : trace -> Prop) : Prop :=
  forall l t, Forall (fun e => is_wait e = true) l -> A t -> A (l ++ t).

(** [m] only adds to the log. *)
Definition grows {A} (m : M A) : Prop :=
  forall t, exists l, snd (m t) = l ++ t.

(** ** Where an error comes from *)

(** The cause that the module passes to the translator with the result of
    each call, and whether it passes it to [check_mmr_in]. *)
Definition cause_of (c : devcall) : string :=
  match c with
  | waveOutOpen _ _ _ | waveInOpen _ _ _ => "open audio device"
  | waveOutReset | waveInReset => "reset audio device"
  | waveOutClose | waveInClose => "close audio device"
  | waveOutPrepareHeader _ _ => "prepare audio data"
  | waveOutWrite _ _ => "write audio data"
  | waveInPrepareHeader _ _ => "prepare audio buffer"
  | waveInAddBuffer _ _ => "add audio buffer"
  | waveOutUnprepareHeader _ _ | waveInUnprepareHeader _ _ =>
      "unprepare audio buffer"
  | waveInStart => "start recording"
  | waveInStop => "stop recording"
  end.

Definition for_in_of (c : devcall) : bool :=
  match c with
  | waveOutOpen _ _ _ | waveOutReset | waveOutClose
  | waveOutPrepareHeader _ _ | waveOutUnprepareHeader _ _
  | waveOutWrite _ _ => false
  | _ => true
  end.

(** A call that did not return [MMSYSERR_NOERROR]. *)
Definition failure (e : event) : option (devcall * Z) :=
  match e with
  | EvCall c r => if r =? MMSYSERR_NOERROR then None else Some (c, r)
  | _ => None
  end.

(** The newest call of the log that failed. *)
Fixpoint last_failure (t : trace) : option (devcall * Z) :=
  match t with
  | [] => None
  | e :: t' =>
      match failure e with
      | Some x => Some x
      | None => last_failure t'
      end
  end.

Definition raised {A} (res : cbres A) : option exn :=
  match res with
  | CbRet _ => None
  | CbRaise e => Some e
  end.

(** An invocation of a callback, with the error it raised if it did. *)
Definition callback (e : event) : option (option exn) :=
  match e with
  | EvGetData res => Some (raised res)
  | EvOnChunk _ _ res => Some (raised res)
  | _ => None
  end.

(** The error that the newest invocation of a callback raised. *)
Fixpoint callback_raised (t : trace) : option exn :=
  match t with
  | [] => None
  | e :: t' =>
      match callback e with
      | Some o => o
      | None => callback_raised t'
      end
  end.

(** [e] is the translator's error for the newest call that failed, with
    the cause of that call; when no call failed, it is the error that the
    newest invocation of the callback raised. *)
Definition error_rule (W : world) (e : exn) (t : trace) : Prop :=
  match last_failure t with
  | Some (c, r) => translated W r (cause_of c) (for_in_of c) e
  | None => callback_raised t = Some e
  end.

(** ** Resets *)

Definition is_reset (e : event) : bool :=
  match e with
  | EvCall waveOutReset _ | EvCall waveInReset _ => true
  | _ => false
  end.

Definition is_failed_reset (e : event) : bool :=
  match e with
  | EvCall waveOutReset r | EvCall waveInReset r =>
      negb (r =? MMSYSERR_NOERROR)
  | _ => false
  end.

(** Nothing went wrong so far: no reset was made, no call failed and the
    callback did not raise. *)
Definition quiet (t : trace) : Prop :=
  count is_reset t = 0%nat /\ last_failure t = None /\
  callback_raised t = None.

(** One submitted buffer is not released. *)
Definition one_left (t : trace) : Prop :=
  exists x, submissions t = releases t ++ [x].

(** No reset has failed, or the failed reset is the newest event and one
    submitted buffer was left unreleased. *)
Definition reset_rule (reset : devcall) (t : trace) : Prop :=
  count is_failed_reset t = 0%nat \/
  exists r t', t = EvCall reset r :: t' /\ r <> MMSYSERR_NOERROR /\ one_left t.

(** ** The points of one turn of [play]

    [cur] is the header that was submitted last: at the top of a turn it
    is the only one with the device; [play_got] holds once the producer
    has been called, [play_both] once its chunk [h] is submitted in the
    other header, and [play_done] when [play] returns. *)

Definition play_top (cur : slot) (hs : headers) (t : trace) : Prop :=
  engine_inv t /\
  submissions t = releases t ++ [(cur, hs cur)] /\
  hstate_of cur t = Submitted /\
  hstate_of (other cur) t = Idle /\
  count is_get_data t = length (submissions t) /\
  quiet t.

Definition play_got (cur : slot) (hs : headers) (t : trace) : Prop :=
  engine_inv t /\
  submissions t = releases t ++ [(cur, hs cur)] /\
  hstate_of cur t = Submitted /\
  hstate_of (other cur) t = Idle /\
  count is_get_data t = S (length (submissions t)) /\
  quiet t.

Definition play_both (cur : slot) (hs : headers) (h : WAVEHDR) (t : trace)
  : Prop :=
  engine_inv t /\
  submissions t = releases t ++ [(cur, hs cur); (other cur, h)] /\
  hstate_of cur t = Submitted /\
  hstate_of (other cur) t = Submitted /\
  count is_get_data t = length (submissions t) /\
  quiet t.

Definition play_done (t : trace) : Prop :=
  engine_inv t /\
  releases t = submissions t /\
  count is_get_data t = S (length (submissions t)) /\
  quiet t.

(** The producer has just raised [e], at the top of a turn. *)
Definition producer_raised (cur : slot) (hs : headers) (e : exn) (t : trace)
  : Prop :=
  exists t0, t = EvGetData (CbRaise e) :: t0 /\ play_top cur hs t0.

Definition play_fail (W : world) (e : exn) (t : trace) : Prop :=
  engine_inv t /\ error_rule W e t /\ reset_rule waveOutReset t.

(** ** The points of one turn of [record]

    [cur] is the header the engine waits for.  [rec_top] holds at the top
    of a turn, [rec_both] once the other header is queued too,
    [rec_given] once the consumer has been called, and [rec_done] when
    the loop ends normally. *)

Definition is_started (e : event) : bool :=
  match e with
  | EvCall waveInStart r => r =? MMSYSERR_NOERROR
  | _ => false
  end.

Definition rec_top (cur : slot) (hs : headers) (t : trace) : Prop :=
  engine_inv t /\
  submissions t = releases t ++ [(cur, hs cur)] /\
  hstate_of cur t = Submitted /\
  hstate_of (other cur) t = Idle /\
  count is_on_chunk t = length (releases t) /\
  count is_stop t = 0%nat /\
  count is_started t = 1%nat /\
  quiet t.

Definition rec_both (cur : slot) (hs : headers) (t : trace) : Prop :=
  engine_inv t /\
  submissions t = releases t ++ [(cur, hs cur); (other cur, hs (other cur))] /\
  hstate_of cur t = Submitted /\
  hstate_of (other cur) t = Submitted /\
  count is_on_chunk t = length (releases t) /\
  count is_stop t = 0%nat /\
  count is_started t = 1%nat /\
  quiet t.

Definition rec_given (cur : slot) (hs : headers) (t : trace) : Prop :=
  engine_inv t /\
  submissions t = releases t ++ [(cur, hs cur); (other cur, hs (other cur))] /\
  hstate_of cur t = Submitted /\
  hstate_of (other cur) t = Submitted /\
  count is_on_chunk t = S (length (releases t)) /\
  count is_stop t = 0%nat /\
  count is_started t = 1%nat /\
  quiet t.

Definition rec_done (t : trace) : Prop :=
  engine_inv t /\
  one_left t /\
  count is_on_chunk t = length (releases t) /\
  count is_stop t = 0%nat /\
  count is_started t = 1%nat /\
  quiet t.

(** The consumer has just raised [e], with both buffers queued. *)
Definition consumer_raised (cur : slot) (hs : headers) (e : exn) (t : trace)
  : Prop :=
  exists buf len t0, t = EvOnChunk buf len (CbRaise e) :: t0 /\
                     rec_both cur hs t0.

Definition rec_fail (W : world) (e : exn) (t : trace) : Prop :=
  engine_inv t /\
  error_rule W e t /\
  count is_stop t = 0%nat /\
  count is_started t = 1%nat /\
  reset_rule waveInReset t.

(** [waveInStop] is called once, as the last call, when [waveInStart] had
    succeeded, and is not called at all when it had not. *)
Definition stop_rule (t : trace) : Prop :=
  (count is_started t = 0%nat /\ count is_stop t = 0%nat) \/
  (count is_started t = 1%nat /\
   exists r t', t = EvCall waveInStop r :: t' /\ count is_stop t' = 0%nat).

(** The errors of [record]: those of [error_rule], or, before anything is
    done, that of a chunk size that is no C [int]. *)
Definition record_error (W : world) (e : exn) (t : trace) : Prop :=
  error_rule W e t \/ (t = [] /\ e = OverflowError).

(** No reset has failed, or [waveInStop] is all that was called after the
    failed reset, and one submitted buffer was left unreleased. *)
Definition reset_then_stop (t : trace) : Prop :=
  count is_failed_reset t = 0%nat \/
  exists rs r t', t = EvCall waveInStop rs :: EvCall waveInReset r :: t' /\
                  r <> MMSYSERR_NOERROR /\ one_left t.

Definition record_returned (t : trace) : Prop :=
  engine_inv t /\
  one_left t /\
  count is_on_chunk t = length (releases t) /\
  stop_rule t /\
  quiet t.

Definition record_raised (W : world) (e : exn) (t : trace) : Prop :=
  engine_inv t /\ record_error W e t /\ stop_rule t /\ reset_then_stop t.

(** ** Environments used in the examples of the further properties *)

(** Two output devices and one input device, all answering. *)
Definition two_speakers : mixer :=
  {| waveOutGetNumDevs := 2;
     waveOutGetDevCapsW := fun i => (MMSYSERR_NOERROR,
                                     if i =? 0 then "Speakers" else "Headset");
     waveInGetNumDevs := 1;
     waveInGetDevCapsW := fun _ => (MMSYSERR_NOERROR, ("Microphone", 2)) |}.

(** The second device of each kind has no driver. *)
Definition broken_second : mixer :=
  {| waveOutGetNumDevs := 3;
     waveOutGetDevCapsW := fun i => (if i =? 1 then MMSYSERR_NODRIVER
                                     else MMSYSERR_NOERROR, "Speakers");
     waveInGetNumDevs := 3;
     waveInGetDevCapsW := fun i => (if i =? 1 then MMSYSERR_NODRIVER
                                    else MMSYSERR_NOERROR, ("Microphone", 2)) |}.

(** A subsystem whose resets fail, with an error text for the code. *)
Definition reset_fails : world :=
  {| mmresult := fun _ c =>
       match c with
       | waveOutReset | waveInReset => MMSYSERR_INVALHANDLE
       | _ => MMSYSERR_NOERROR
       end;
     WaitForSingleObject := fun _ => 0;
     dwFlags := fun _ _ => WHDR_DONE;
     waveInGetErrorTextW := fun _ => (0, "Invalid device handle.");
     waveOutGetErrorTextW := fun _ => (0, "Invalid device handle.") |}.
(** * Properties *)

(** ** The error translator *)

Lemma ERROR_CODES_unknown (r : Z) :
  r <> WAVERR_STILLPLAYING -> r <> MMSYSERR_INVALHANDLE ->
  r <> MMSYSERR_NODRIVER -> r <> MMSYSERR_NOMEM ->
  ERROR_CODES !! r = None.
Proof.
  intros H1 H2 H3 H4. unfold ERROR_CODES.
  rewrite !lookup_insert_ne by congruence. apply lookup_empty.
Qed.

Lemma check_mmresult_noerror (W : world) (cause : string) (for_in : bool) :
  check_mmresult W MMSYSERR_NOERROR cause for_in = inr 0.
Proof. reflexivity. Qed.

Lemma check_mmresult_noerror_out (W : world) (cause : string) (t : trace) :
  lift (check_mmr_out W MMSYSERR_NOERROR cause) t = (Done 0, t).
Proof. reflexivity. Qed.

Lemma check_mmresult_noerror_in (W : world) (cause : string) (t : trace) :
  lift (check_mmr_in W MMSYSERR_NOERROR cause) t = (Done 0, t).
Proof. reflexivity. Qed.

Lemma table_name_short (r : Z) :
  (String.length (default "UNKNOWN_ERROR" (ERROR_CODES !! r)) < 256)%nat.
Proof.
  apply Nat.ltb_lt.
  destruct (Z.eq_dec r WAVERR_STILLPLAYING) as [->|H1]; [done|].
  destruct (Z.eq_dec r MMSYSERR_INVALHANDLE) as [->|H2]; [done|].
  destruct (Z.eq_dec r MMSYSERR_NODRIVER) as [->|H3]; [done|].
  destruct (Z.eq_dec r MMSYSERR_NOMEM) as [->|H4]; [done|].
  by rewrite ERROR_CODES_unknown.
Qed.

(** No name of the table, nor UNKNOWN_ERROR, has the 256 characters that
    the assignment to [msg] asks for. *)
Lemma carray_from_py_name (r : Z) :
  carray_from_py (default "UNKNOWN_ERROR" (ERROR_CODES !! r)) 256
  = inl (IndexError 256
           (String.length (default "UNKNOWN_ERROR" (ERROR_CODES !! r)))).
Proof.
  unfold carray_from_py. pose proof (table_name_short r) as H.
  destruct (Nat.eqb_spec
              (String.length (default "UNKNOWN_ERROR" (ERROR_CODES !! r))) 256);
    [lia|done].
Qed.

Lemma check_mmresult_raises (W : world) (r : Z) (cause : string) (for_in : bool) :
  r <> MMSYSERR_NOERROR ->
  exists e, check_mmresult W r cause for_in = inl e /\
            translated W r cause for_in e.
Proof.
  intros Hr. unfold check_mmresult.
  destruct (Z.eqb_spec r MMSYSERR_NOERROR) as [->|_]; [done|].
  destruct (if for_in then _ else _) as [r2 msg] eqn:Ht.
  destruct (Z.eqb_spec r2 0) as [->|Hr2]; cbn [negb].
  - eexists. split; [done|]. by apply with_text.
  - rewrite carray_from_py_name. eexists. split; [done|].
    by apply (without_text W r cause for_in r2 msg).
Qed.

Lemma translated_raised (W : world) (r : Z) (cause : string) (for_in : bool)
    (e : exn) :
  translated W r cause for_in e -> check_mmresult W r cause for_in = inl e.
Proof.
  intros H. unfold check_mmresult.
  destruct H as [msg Hr Ht|r2 msg Hr Ht Hr2];
    (destruct (Z.eqb_spec r MMSYSERR_NOERROR) as [->|_]; [done|]);
    rewrite Ht.
  - done.
  - destruct (Z.eqb_spec r2 0) as [->|_]; [done|]. cbn [negb].
    by rewrite carray_from_py_name.
Qed.

(** C4 fails in the code whenever the text lookup fails.  The source then
    takes the name of the code from [ERROR_CODES], or UNKNOWN_ERROR, and
    assigns it to the C array [msg]: the assignment raises [IndexError],
    as the name has fewer than 256 characters, and no [OSError] with the
    cause, the code and the name is raised. *)
Theorem check_mmresult_fallback_raises_IndexError (W : world) (r : Z)
    (cause : string) (for_in : bool) :
  r <> MMSYSERR_NOERROR ->
  fst (if for_in then waveInGetErrorTextW W r else waveOutGetErrorTextW W r)
  <> 0 ->
  let name := default "UNKNOWN_ERROR" (ERROR_CODES !! r) in
  check_mmresult W r cause for_in = inl (IndexError 256 (String.length name)) /\
  (String.length name < 256)%nat /\
  spec_error_name W r for_in = name /\
  check_mmresult W r cause for_in <> inl (OSError cause name r).
Proof.
  intros Hr Hl name.
  assert (Hc : check_mmresult W r cause for_in
               = inl (IndexError 256 (String.length name))).
  { unfold check_mmresult.
    destruct (Z.eqb_spec r MMSYSERR_NOERROR) as [->|_]; [done|].
    destruct (if for_in then _ else _) as [r2 msg]. cbn [fst] in Hl.
    destruct (Z.eqb_spec r2 0) as [->|_]; [done|]. cbn [negb].
    by rewrite carray_from_py_name. }
  split; [done|]. split; [apply table_name_short|]. split.
  - unfold spec_error_name. subst name.
    destruct (ERROR_CODES !! r) as [n|]; [done|].
    destruct (if for_in then _ else _) as [r2 msg]. cbn [fst] in Hl.
    by destruct (Z.eqb_spec r2 0) as [->|_].
  - by rewrite Hc.
Qed.

(** A code that the subsystem has no text for: the caller gets
    [IndexError] where UNKNOWN_ERROR was meant to be reported. *)
Lemma check_mmresult_fallback_raises_IndexError_witness :
  check_mmresult ideal 57005 "open audio device" false
  = inl (IndexError 256 13) /\
  check_mmresult ideal MMSYSERR_NOMEM "open audio device" false
  = inl (IndexError 256 14).
Proof.
  split.
  - apply (check_mmresult_fallback_raises_IndexError ideal 57005
             "open audio device" false); [discriminate|discriminate].
  - apply (check_mmresult_fallback_raises_IndexError ideal MMSYSERR_NOMEM
             "open audio device" false); [discriminate|discriminate].
Defined.

(** ** Construction *)

Lemma as_int_in (z : Z) : in_int z -> as_int z = inr z.
Proof.
  unfold in_int, as_int. intros [Hlo Hhi].
  destruct (Z.leb_spec INT_MIN z); [|lia].
  destruct (Z.leb_spec z INT_MAX); [done|lia].
Qed.

Lemma as_int_inv (z : Z) (y : Z) : as_int z = inr y -> y = z /\ in_int z.
Proof.
  unfold in_int, as_int.
  destruct (Z.leb_spec INT_MIN z); [|done].
  destruct (Z.leb_spec z INT_MAX); [|done].
  intros [= <-]. lia.
Qed.

Lemma as_dword_in (z : Z) : in_dword z -> as_dword z = inr z.
Proof.
  unfold in_dword, as_dword. intros [Hlo Hhi].
  destruct (Z.leb_spec 0 z); [|lia].
  destruct (Z.leb_spec z UINT_MAX); [done|lia].
Qed.

Lemma as_dword_inv (z : Z) (y : Z) :
  as_dword z = inr y -> y = z /\ in_dword z.
Proof.
  unfold in_dword, as_dword.
  destruct (Z.leb_spec 0 z); [|done].
  destruct (Z.leb_spec z UINT_MAX); [|done].
  intros [= <-]. lia.
Qed.

Lemma int_wrap_in (z : Z) : in_int z -> int_wrap z = z.
Proof.
  unfold in_int, int_wrap, INT_MIN, INT_MAX. intros H.
  rewrite Z.mod_small; lia.
Qed.

Lemma int_wrap_range (z : Z) : in_int (int_wrap z).
Proof.
  unfold in_int, int_wrap, INT_MIN, INT_MAX.
  pose proof (Z.mod_pos_bound (z + 2 ^ 31) (2 ^ 32) ltac:(lia)). lia.
Qed.

Lemma int_wrap_mul_l (a b : Z) : int_wrap (int_wrap a * b) = int_wrap (a * b).
Proof.
  unfold int_wrap. f_equal.
  pose proof (Z.div_mod (a + 2 ^ 31) (2 ^ 32) ltac:(lia)) as Hq.
  set (q := (a + 2 ^ 31) / 2 ^ 32) in *.
  replace ((a + 2 ^ 31) mod 2 ^ 32) with (a + 2 ^ 31 - 2 ^ 32 * q) by lia.
  replace ((a + 2 ^ 31 - 2 ^ 32 * q - 2 ^ 31) * b + 2 ^ 31)
    with (a * b + 2 ^ 31 + (- q * b) * 2 ^ 32) by ring.
  apply Z_mod_plus_full.
Qed.

(** A value stored into an unsigned field keeps the low bits of the exact
    value, whether or not the C [int] it went through wrapped. *)
Lemma to_dword_int_wrap (z : Z) : to_dword (int_wrap z) = z mod 2 ^ 32.
Proof.
  unfold to_dword, int_wrap.
  pose proof (Z.div_mod (z + 2 ^ 31) (2 ^ 32) ltac:(lia)) as Hq.
  set (q := (z + 2 ^ 31) / 2 ^ 32) in *.
  replace ((z + 2 ^ 31) mod 2 ^ 32 - 2 ^ 31) with (z + (- q) * 2 ^ 32) by lia.
  apply Z_mod_plus_full.
Qed.

Lemma to_word_int_wrap (z : Z) : to_word (int_wrap z) = z mod 2 ^ 16.
Proof.
  unfold to_word, int_wrap.
  pose proof (Z.div_mod (z + 2 ^ 31) (2 ^ 32) ltac:(lia)) as Hq.
  set (q := (z + 2 ^ 31) / 2 ^ 32) in *.
  replace ((z + 2 ^ 31) mod 2 ^ 32 - 2 ^ 31)
    with (z + (- q * 2 ^ 16) * 2 ^ 16) by lia.
  apply Z_mod_plus_full.
Qed.

(** The length of the bytearrays of [record]. *)
Lemma chunk_bytes (a k : Z) : to_word (int_mul a k) = (a * k) mod 2 ^ 16.
Proof. unfold int_mul. apply to_word_int_wrap. Qed.

Lemma to_word_range (z : Z) : 0 <= to_word z < 2 ^ 16.
Proof. unfold to_word. apply Z.mod_pos_bound. lia. Qed.

Lemma to_dword_small (z : Z) : 0 <= z < 2 ^ 32 -> to_dword z = z.
Proof. unfold to_dword. intros H. by apply Z.mod_small. Qed.

(** C3, as the code has it: the constructors check nothing about the
    format.  With a device id that fits a [DWORD] and three arguments that
    fit a C [int], they always call the subsystem's open with the derived
    format, return the engine when that call returns [MMSYSERR_NOERROR],
    and otherwise raise what the translator raises for
    "open audio device". *)
Theorem cinit_opens_unvalidated (W : world) (dev_id nch fr sw : Z) (t : trace) :
  in_dword dev_id -> in_int nch -> in_int fr -> in_int sw ->
  let fmt := make_format nch fr sw in
  let co := waveOutOpen dev_id fmt (Z.lor WAVE_ALLOWSYNC CALLBACK_EVENT) in
  let ci := waveInOpen dev_id fmt CALLBACK_EVENT in
  let po := PlaybackDevice.__cinit__ W dev_id nch fr sw t in
  let pi := RecordingDevice.__cinit__ W dev_id nch fr sw t in
  (snd po = EvCall co (mmresult W t co) :: t /\
   (mmresult W t co = MMSYSERR_NOERROR ->
    fst po = Done {| PlaybackDevice._c_fmt := fmt |}) /\
   (mmresult W t co <> MMSYSERR_NOERROR ->
    exists e,
      fst po = Raised e /\
      translated W (mmresult W t co) "open audio device" false e)) /\
  (snd pi = EvCall ci (mmresult W t ci) :: t /\
   (mmresult W t ci = MMSYSERR_NOERROR ->
    fst pi = Done {| RecordingDevice._c_fmt := fmt |}) /\
   (mmresult W t ci <> MMSYSERR_NOERROR ->
    exists e,
      fst pi = Raised e /\
      translated W (mmresult W t ci) "open audio device" true e)).
Proof.
  intros Hd Hc Hf Hs fmt co ci po pi.
  subst po pi.
  unfold PlaybackDevice.__cinit__, RecordingDevice.__cinit__.
  rewrite !(as_dword_in _ Hd), !(as_int_in _ Hc), !(as_int_in _ Hf),
    !(as_int_in _ Hs).
  unfold bind, lift, ret, raise, call, check_mmr_out, check_mmr_in; cbn.
  fold fmt. fold co. fold ci.
  split.
  - destruct (Z.eq_dec (mmresult W t co) MMSYSERR_NOERROR) as [E|E].
    + rewrite E. cbn. split; [done|]. split; [done|]. intros ?; done.
    + destruct (check_mmresult_raises W _ "open audio device" false E)
        as (e & Hm & He).
      rewrite Hm. cbn. split; [done|]. split; [intros ?; done|]. intros _. eauto.
  - destruct (Z.eq_dec (mmresult W t ci) MMSYSERR_NOERROR) as [E|E].
    + rewrite E. cbn. split; [done|]. split; [done|]. intros ?; done.
    + destruct (check_mmresult_raises W _ "open audio device" true E)
        as (e & Hm & He).
      rewrite Hm. cbn. split; [done|]. split; [intros ?; done|]. intros _. eauto.
Qed.

Lemma cinit_opens_unvalidated_witness :
  snd (PlaybackDevice.__cinit__ ideal WAVE_MAPPER 0 44100 2 [])
  = [EvCall (waveOutOpen WAVE_MAPPER (make_format 0 44100 2)
               (Z.lor WAVE_ALLOWSYNC CALLBACK_EVENT)) MMSYSERR_NOERROR].
Proof.
  assert (Hd : in_dword WAVE_MAPPER)
    by (unfold in_dword, UINT_MAX, WAVE_MAPPER; lia).
  assert (Hc : in_int 0) by (unfold in_int, INT_MIN, INT_MAX; lia).
  assert (Hf : in_int 44100) by (unfold in_int, INT_MIN, INT_MAX; lia).
  assert (Hs : in_int 2) by (unfold in_int, INT_MIN, INT_MAX; lia).
  exact (proj1 (proj1
    (cinit_opens_unvalidated ideal WAVE_MAPPER 0 44100 2 [] Hd Hc Hf Hs))).
Defined.

(** C3 as stated fails: with a zero channel count, a zero sample rate or a
    zero sample width the device is opened and construction succeeds when
    the subsystem accepts the format; no [InvalidFormatError] exists. *)
Lemma cinit_accepts_zero_fields :
  PlaybackDevice.__cinit__ ideal WAVE_MAPPER 0 44100 2 []
  = (Done {| PlaybackDevice._c_fmt := make_format 0 44100 2 |},
     [EvCall (waveOutOpen WAVE_MAPPER (make_format 0 44100 2)
                (Z.lor WAVE_ALLOWSYNC CALLBACK_EVENT)) MMSYSERR_NOERROR]) /\
  nChannels (make_format 0 44100 2) = 0 /\
  RecordingDevice.__cinit__ ideal 0 1 0 2 []
  = (Done {| RecordingDevice._c_fmt := make_format 1 0 2 |},
     [EvCall (waveInOpen 0 (make_format 1 0 2) CALLBACK_EVENT)
        MMSYSERR_NOERROR]) /\
  nSamplesPerSec (make_format 1 0 2) = 0 /\
  RecordingDevice.__cinit__ ideal 0 1 44100 0 []
  = (Done {| RecordingDevice._c_fmt := make_format 1 44100 0 |},
     [EvCall (waveInOpen 0 (make_format 1 44100 0) CALLBACK_EVENT)
        MMSYSERR_NOERROR]) /\
  wBitsPerSample (make_format 1 44100 0) = 0.
Proof. repeat split. Qed.

(** ** Derived format fields *)

Lemma accepted_format (W : world) (d c f s : Z) (t : trace) (fmt : WAVEFORMATEX) :
  accepted W d c f s t fmt ->
  fmt = make_format c f s /\ in_int c /\ in_int f /\ in_int s.
Proof.
  unfold accepted, PlaybackDevice.__cinit__, RecordingDevice.__cinit__.
  unfold bind, lift, ret, raise, call.
  intros [[t' H]|[t' H]];
    destruct (as_dword d) as [?|d'] eqn:Ed; try discriminate;
    destruct (as_int c) as [?|c'] eqn:Ec; try discriminate;
    destruct (as_int f) as [?|f'] eqn:Ef; try discriminate;
    destruct (as_int s) as [?|s'] eqn:Es; try discriminate;
    apply as_int_inv in Ec as [-> ?]; apply as_int_inv in Ef as [-> ?];
    apply as_int_inv in Es as [-> ?];
    match type of H with context [match ?x with inl _ => _ | inr _ => _ end] =>
      destruct x end; try discriminate;
    injection H as H _; by inversion H.
Qed.

(** C9, as the code has it: the derived fields of an accepted format are
    the products of the arguments reduced to the width of the field:
    [nBlockAlign] holds the low 16 bits of [sampwidth * nchannels], and
    [nAvgBytesPerSec] the low 32 bits of
    [sampwidth * nchannels * framerate].  They are the exact products
    whenever those are not negative and fit the fields. *)
Theorem derived_fields_wrap (W : world) (d c f s : Z) (t : trace)
    (fmt : WAVEFORMATEX) :
  accepted W d c f s t fmt ->
  nBlockAlign fmt = (s * c) mod 2 ^ 16 /\
  nAvgBytesPerSec fmt = (s * c * f) mod 2 ^ 32 /\
  (0 <= s * c < 2 ^ 16 -> nBlockAlign fmt = s * c) /\
  (0 <= s * c < 2 ^ 16 -> 0 <= s * c * f < 2 ^ 32 ->
   nAvgBytesPerSec fmt = nBlockAlign fmt * f).
Proof.
  intros H. apply accepted_format in H as (-> & _ & _ & _). cbn.
  unfold int_mul. rewrite int_wrap_mul_l, to_word_int_wrap, to_dword_int_wrap.
  repeat split; try done.
  - intros H1. by apply Z.mod_small.
  - intros H1 H2. rewrite (Z.mod_small (s * c)) by done. by apply Z.mod_small.
Qed.

Lemma derived_fields_wrap_witness :
  nBlockAlign (make_format 2 44100 2) = (2 * 2) mod 2 ^ 16.
Proof.
  assert (H : accepted ideal WAVE_MAPPER 2 44100 2 [] (make_format 2 44100 2)).
  { left. eexists. vm_compute. reflexivity. }
  exact (proj1 (derived_fields_wrap ideal WAVE_MAPPER 2 44100 2 []
                  (make_format 2 44100 2) H)).
Defined.

(** C9 as stated fails: a format of 65536 channels of one byte at 8000 Hz
    is accepted by a subsystem that takes it; its block alignment is 0,
    not 65536, and its byte rate is not the block alignment times the
    sample rate.  A stereo 16-bit format at 2^30 Hz has a byte rate of 0,
    not 2^32. *)
Lemma derived_fields_overflow :
  accepted ideal 0 65536 8000 1 [] (make_format 65536 8000 1) /\
  nBlockAlign (make_format 65536 8000 1) = 0 /\
  nBlockAlign (make_format 65536 8000 1) <> 1 * 65536 /\
  nAvgBytesPerSec (make_format 65536 8000 1) = 524288000 /\
  nAvgBytesPerSec (make_format 65536 8000 1)
    <> nBlockAlign (make_format 65536 8000 1) * 8000 /\
  accepted ideal 0 2 (2 ^ 30) 2 [] (make_format 2 (2 ^ 30) 2) /\
  nBlockAlign (make_format 2 (2 ^ 30) 2) = 4 /\
  nAvgBytesPerSec (make_format 2 (2 ^ 30) 2) = 0 /\
  nAvgBytesPerSec (make_format 2 (2 ^ 30) 2)
    <> nBlockAlign (make_format 2 (2 ^ 30) 2) * 2 ^ 30.
Proof.
  split; [left; eexists; vm_compute; reflexivity|].
  split; [reflexivity|]. split; [vm_compute; discriminate|].
  split; [reflexivity|]. split; [vm_compute; discriminate|].
  split; [left; eexists; vm_compute; reflexivity|].
  split; [reflexivity|]. split; [reflexivity|]. vm_compute. discriminate.
Qed.

(** ** The wait for a buffer *)

Lemma wait_done_log (W : world) (wfuel : nat) (w : slot) (t : trace) :
  exists l o,
    wait_done W wfuel w t = (o, rev l ++ t) /\
    match o with
    | Done _ => wait_ended w l
    | OutOfFuel => wait_going w l /\ length l = (2 * wfuel)%nat
    | Raised _ => False
    end.
Proof.
  revert t. induction wfuel as [|n IH]; intros t.
  - exists [], OutOfFuel. cbn. split; [done|]. split; [constructor|done].
  - cbn [wait_done]. unfold bind, wait_event, read_flags.
    destruct (Z.eqb_spec (WaitForSingleObject W t) 0) as [Hr|Hr]; cbn [negb].
    + rewrite Hr.
      set (v := dwFlags W (EvWait 0 :: t) w).
      destruct (Z.eqb_spec (Z.land v 1) 1) as [Hv|Hv].
      * exists [EvWait 0; EvFlags w v], (Done tt). split; [done|].
        by constructor.
      * destruct (IH (EvFlags w v :: EvWait 0 :: t)) as (l & o & Hl & Ho).
        exists (EvWait 0 :: EvFlags w v :: l), o. rewrite Hl. split.
        { cbn. by rewrite <- !app_assoc. }
        destruct o; [by constructor| done |].
        destruct Ho as [Hg Hlen]. split; [by constructor|]. cbn. lia.
    + exists [EvWait (WaitForSingleObject W t)], (Done tt).
      split; [done|]. by constructor.
Qed.

(** C1, as the code has it: the wait never raises; when it ends, the log
    gained rounds that were each a signalled wait (result 0) followed by a
    look at the current buffer's flag that found it unset, and then a last
    round that is either a wait with a non-zero result (a timeout or a
    failure, after which the flag is not looked at) or a signalled wait
    followed by a look that found the flag set.  A wait cut off after
    [wfuel] rounds has seen only signalled waits with the flag unset. *)
Theorem wait_done_rounds (W : world) (wfuel : nat) (w : slot) (t : trace) :
  match wait_done W wfuel w t with
  | (Done _, t') => exists l, t' = rev l ++ t /\ wait_ended w l
  | (OutOfFuel, t') =>
      exists l, t' = rev l ++ t /\ wait_going w l /\ length l = (2 * wfuel)%nat
  | (Raised _, _) => False
  end.
Proof.
  destruct (wait_done_log W wfuel w t) as (l & o & -> & Ho).
  destruct o as [u|e|]; eauto.
Qed.

(** C1 as stated fails: when the event wait times out, the loop ends at
    once although the flag of the current buffer is unset, and [play] goes
    on to unprepare that buffer. *)
Lemma wait_done_leaves_on_timeout :
  wait_done stalled 3 hdr2 [] = (Done tt, [EvWait WAIT_TIMEOUT]) /\
  Z.land (dwFlags stalled [EvWait WAIT_TIMEOUT] hdr2) 1 = 0 /\
  PlaybackDevice.play stalled 3 one_chunk 2 []
  = (Done tt,
     [EvCall (waveOutUnprepareHeader hdr2 (hdr_of_bytes (Some [Byte.x2a]))) 0;
      EvWait WAIT_TIMEOUT;
      EvGetData (CbRet None);
      EvCall (waveOutWrite hdr2 (hdr_of_bytes (Some [Byte.x2a]))) 0;
      EvCall (waveOutPrepareHeader hdr2 (hdr_of_bytes (Some [Byte.x2a]))) 0;
      EvGetData (CbRet (Some [Byte.x2a]))]).
Proof. repeat split. Qed.

(** ** Logs *)

Lemma collect_app {A} (f : event -> option A) (l t : trace) :
  collect f (l ++ t) = collect f t ++ collect f l.
Proof.
  induction l as [|e l IH]; cbn.
  - by rewrite app_nil_r.
  - by rewrite IH, app_assoc.
Qed.

Lemma collect_waits {A} (f : event -> option A) (l : trace) :
  (forall e, is_wait e = true -> f e = None) ->
  Forall (fun e => is_wait e = true) l ->
  collect f l = [].
Proof.
  intros Hf. induction 1 as [|e l He _ IH]; cbn; [done|].
  by rewrite IH, (Hf e He).
Qed.

Lemma submitted_wait (e : event) : is_wait e = true -> submitted e = None.
Proof. by destruct e. Qed.

Lemma released_wait (e : event) : is_wait e = true -> released e = None.
Proof. by destruct e. Qed.

Lemma chunk_view_wait (e : event) : is_wait e = true -> chunk_view e = None.
Proof. by destruct e. Qed.

Lemma submissions_waits (l t : trace) :
  Forall (fun e => is_wait e = true) l -> submissions (l ++ t) = submissions t.
Proof.
  intros Hl. unfold submissions.
  by rewrite collect_app, (collect_waits _ l submitted_wait Hl), app_nil_r.
Qed.

Lemma releases_waits (l t : trace) :
  Forall (fun e => is_wait e = true) l -> releases (l ++ t) = releases t.
Proof.
  intros Hl. unfold releases.
  by rewrite collect_app, (collect_waits _ l released_wait Hl), app_nil_r.
Qed.

Lemma count_app (p : event -> bool) (l t : trace) :
  count p (l ++ t) = (count p l + count p t)%nat.
Proof. unfold count. by rewrite List.filter_app, length_app. Qed.

Lemma count_waits (p : event -> bool) (l : trace) :
  (forall e, is_wait e = true -> p e = false) ->
  Forall (fun e => is_wait e = true) l ->
  count p l = 0%nat.
Proof.
  intros Hp. unfold count. induction 1 as [|e l He _ IH]; cbn; [done|].
  by rewrite (Hp e He).
Qed.

Lemma is_get_data_wait (e : event) : is_wait e = true -> is_get_data e = false.
Proof. by destruct e. Qed.

Lemma is_on_chunk_wait (e : event) : is_wait e = true -> is_on_chunk e = false.
Proof. by destruct e. Qed.

Lemma wait_ended_waits (w : slot) (l : list event) :
  wait_ended w l -> Forall (fun e => is_wait e = true) l.
Proof. induction 1; repeat constructor; done. Qed.

Lemma wait_going_waits (w : slot) (l : list event) :
  wait_going w l -> Forall (fun e => is_wait e = true) l.
Proof. induction 1; repeat constructor; done. Qed.

Lemma submissions_cons (e : event) (t : trace) :
  submissions (e :: t) = submissions t ++ option_list (submitted e).
Proof. reflexivity. Qed.

Lemma releases_cons (e : event) (t : trace) :
  releases (e :: t) = releases t ++ option_list (released e).
Proof. reflexivity. Qed.

Lemma count_cons (p : event -> bool) (e : event) (t : trace) :
  count p (e :: t) = ((if p e then 1 else 0) + count p t)%nat.
Proof. unfold count. cbn. by destruct (p e). Qed.

Lemma count_get_data_waits (l t : trace) :
  Forall (fun e => is_wait e = true) l ->
  count is_get_data (l ++ t) = count is_get_data t.
Proof.
  intros Hl. by rewrite count_app, (count_waits _ l is_get_data_wait Hl).
Qed.

Lemma count_on_chunk_waits (l t : trace) :
  Forall (fun e => is_wait e = true) l ->
  count is_on_chunk (l ++ t) = count is_on_chunk t.
Proof.
  intros Hl. by rewrite count_app, (count_waits _ l is_on_chunk_wait Hl).
Qed.

Lemma chunks_given_cons (e : event) (t : trace) :
  chunks_given (e :: t) = chunks_given t ++ option_list (chunk_view e).
Proof. reflexivity. Qed.

Lemma chunks_given_waits (l t : trace) :
  Forall (fun e => is_wait e = true) l -> chunks_given (l ++ t) = chunks_given t.
Proof.
  intros Hl. unfold chunks_given.
  by rewrite collect_app, (collect_waits _ l chunk_view_wait Hl), app_nil_r.
Qed.

Lemma length_chunks_given (t : trace) :
  length (chunks_given t) = count is_on_chunk t.
Proof.
  induction t as [|e t IH]; [done|].
  rewrite chunks_given_cons, count_cons, length_app, IH.
  destruct e; cbn; lia.
Qed.

Lemma count_nil (p : event -> bool) : count p [] = 0%nat.
Proof. reflexivity. Qed.

Lemma submissions_nil : submissions [] = [].
Proof. reflexivity. Qed.

Lemma releases_nil : releases [] = [].
Proof. reflexivity. Qed.

Lemma chunks_given_nil : chunks_given [] = [].
Proof. reflexivity. Qed.

(** Normalises what a log that ends in known events says. *)
Ltac read_log :=
  repeat first
    [ rewrite submissions_cons
    | rewrite releases_cons
    | rewrite count_cons
    | rewrite chunks_given_cons
    | rewrite chunks_given_waits by assumption
    | rewrite submissions_waits by assumption
    | rewrite releases_waits by assumption
    | rewrite count_get_data_waits by assumption
    | rewrite count_on_chunk_waits by assumption ];
  cbn [submitted released chunk_view is_get_data is_on_chunk];
  rewrite ?Z.eqb_refl; cbn [option_list option_rect];
  rewrite ?count_nil, ?submissions_nil, ?releases_nil, ?chunks_given_nil,
    ?app_nil_r, ?app_nil_l.

(** ** Runs on a subsystem that behaves *)

Section Behaved.
Variable W : world.
Variable wfuel : nat.
Hypothesis Hok : device_ok W.
Hypothesis Hwait : waits_end W wfuel.

Lemma call_ok (c : devcall) (t : trace) :
  call W c t = (Done MMSYSERR_NOERROR, EvCall c MMSYSERR_NOERROR :: t).
Proof. unfold call. by rewrite Hok. Qed.

Lemma hdr_out_prepare_write_ok (w : slot) (h : WAVEHDR) (t : trace) :
  hdr_out_prepare_write W w h t
  = (Done tt, EvCall (waveOutWrite w h) MMSYSERR_NOERROR
                :: EvCall (waveOutPrepareHeader w h) MMSYSERR_NOERROR :: t).
Proof.
  unfold hdr_out_prepare_write, bind, call. by repeat (rewrite Hok; cbn).
Qed.

Lemma hdr_out_unprepare_ok (w : slot) (h : WAVEHDR) (t : trace) :
  hdr_out_unprepare W w h t
  = (Done tt, EvCall (waveOutUnprepareHeader w h) MMSYSERR_NOERROR :: t).
Proof. unfold hdr_out_unprepare, bind, call. by repeat (rewrite Hok; cbn). Qed.

Lemma hdr_in_prepare_add_ok (w : slot) (h : WAVEHDR) (t : trace) :
  hdr_in_prepare_add W w h t
  = (Done tt, EvCall (waveInAddBuffer w h) MMSYSERR_NOERROR
                :: EvCall (waveInPrepareHeader w h) MMSYSERR_NOERROR :: t).
Proof.
  unfold hdr_in_prepare_add, bind, call. by repeat (rewrite Hok; cbn).
Qed.

Lemma hdr_in_unprepare_ok (w : slot) (h : WAVEHDR) (t : trace) :
  hdr_in_unprepare W w h t
  = (Done tt, EvCall (waveInUnprepareHeader w h) MMSYSERR_NOERROR :: t).
Proof. unfold hdr_in_unprepare, bind, call. by repeat (rewrite Hok; cbn). Qed.

Lemma wait_done_ok (w : slot) (t : trace) :
  exists l, wait_done W wfuel w t = (Done tt, l ++ t) /\
            Forall (fun e => is_wait e = true) l.
Proof.
  destruct (wait_done_log W wfuel w t) as (l & o & Hl & Ho).
  pose proof (Hwait t w) as Hd. rewrite Hl in Hd. cbn in Hd. subst o.
  exists (rev l). split; [done|].
  apply Forall_rev. by eapply wait_ended_waits.
Qed.

(** *** Playback *)

Section Playing.
Variable get_data : nat -> cbres (option (list Byte.byte)).

Lemma store_same (p : slot) (h : WAVEHDR) (hs : headers) :
  store p h hs p = h.
Proof. unfold store. by destruct p. Qed.

Lemma store_other (p : slot) (h : WAVEHDR) (hs : headers) :
  store p h hs (other p) = hs (other p).
Proof. unfold store. by destruct p. Qed.

Lemma other_other (p : slot) : other (other p) = p.
Proof. by destruct p. Qed.

Lemma truthy_chunk (c : list Byte.byte) : c <> [] -> truthy (Some c) = true.
Proof. by destruct c. Qed.

Lemma play_turn_more (fuel : nat) (phdr : slot) (hs : headers) (t : trace)
    (c : list Byte.byte) :
  get_data (count is_get_data t) = CbRet (Some c) -> c <> [] ->
  exists l,
    Forall (fun e => is_wait e = true) l /\
    PlaybackDevice.play_loop W wfuel get_data (S fuel) phdr (other phdr) hs t
    = PlaybackDevice.play_loop W wfuel get_data fuel (other phdr) phdr
        (store phdr (chunk_hdr c) hs)
        (EvCall (waveOutUnprepareHeader (other phdr) (hs (other phdr)))
           MMSYSERR_NOERROR
         :: l ++ EvCall (waveOutWrite phdr (chunk_hdr c)) MMSYSERR_NOERROR
         :: EvCall (waveOutPrepareHeader phdr (chunk_hdr c)) MMSYSERR_NOERROR
         :: EvGetData (CbRet (Some c)) :: t).
Proof.
  intros Hget Hc.
  cbn [PlaybackDevice.play_loop].
  unfold bind at 1. unfold try_finally, call_get_data. rewrite Hget.
  cbn [of_cbres ret]. rewrite (truthy_chunk _ Hc).
  unfold bind. rewrite hdr_out_prepare_write_ok.
  unfold ret; cbv beta iota.
  match goal with |- context [wait_done W wfuel ?w ?t0] =>
    destruct (wait_done_ok w t0) as (l & Hl & Hf) end.
  exists l. split; [done|]. rewrite Hl.
  rewrite hdr_out_unprepare_ok, store_same, store_other.
  reflexivity.
Qed.

Lemma play_turn_last (fuel : nat) (phdr : slot) (hs : headers) (t : trace)
    (d : option (list Byte.byte)) :
  get_data (count is_get_data t) = CbRet d -> truthy d = false ->
  exists l,
    Forall (fun e => is_wait e = true) l /\
    PlaybackDevice.play_loop W wfuel get_data (S fuel) phdr (other phdr) hs t
    = (Done tt,
       EvCall (waveOutUnprepareHeader (other phdr) (hs (other phdr)))
         MMSYSERR_NOERROR
       :: l ++ EvGetData (CbRet d) :: t).
Proof.
  intros Hget Hd.
  cbn [PlaybackDevice.play_loop].
  unfold bind at 1. unfold try_finally, call_get_data. rewrite Hget.
  cbn [of_cbres ret]. rewrite Hd.
  unfold bind. unfold ret; cbv beta iota.
  match goal with |- context [wait_done W wfuel ?w ?t0] =>
    destruct (wait_done_ok w t0) as (l & Hl & Hf) end.
  exists l. split; [done|]. rewrite Hl.
  by rewrite hdr_out_unprepare_ok.
Qed.

Lemma play_turn_raise (fuel : nat) (phdr : slot) (hs : headers) (t : trace)
    (e : exn) :
  get_data (count is_get_data t) = CbRaise e ->
  PlaybackDevice.play_loop W wfuel get_data (S fuel) phdr (other phdr) hs t
  = (Raised e,
     EvCall (waveOutUnprepareHeader (other phdr) (hs (other phdr)))
       MMSYSERR_NOERROR
     :: EvCall waveOutReset MMSYSERR_NOERROR
     :: EvGetData (CbRaise e) :: t).
Proof.
  intros Hget.
  cbn [PlaybackDevice.play_loop].
  unfold bind at 1. unfold try_finally, call_get_data. rewrite Hget.
  cbn [of_cbres]. unfold bind at 1. rewrite call_ok.
  unfold bind at 1. rewrite check_mmresult_noerror_out.
  by rewrite hdr_out_unprepare_ok.
Qed.

Lemma play_loop_chunks (chunks : list (list Byte.byte)) :
  forall (fuel : nat) (phdr : slot) (hs : headers) (t : trace),
  Forall (fun c => c <> []) chunks ->
  (forall i c, chunks !! i = Some c ->
               get_data (count is_get_data t + i) = CbRet (Some c)) ->
  submissions t = releases t ++ [(other phdr, hs (other phdr))] ->
  exists phdr' hs' t',
    PlaybackDevice.play_loop W wfuel get_data (length chunks + fuel)
      phdr (other phdr) hs t
    = PlaybackDevice.play_loop W wfuel get_data fuel
        phdr' (other phdr') hs' t' /\
    count is_get_data t' = (count is_get_data t + length chunks)%nat /\
    submissions t'
    = submissions t ++ alternate phdr (map chunk_hdr chunks) /\
    submissions t' = releases t' ++ [(other phdr', hs' (other phdr'))].
Proof.
  induction chunks as [|c chunks IH]; intros fuel phdr hs t Hne Hget Hinv.
  - exists phdr, hs, t. cbn. by rewrite Nat.add_0_r, app_nil_r.
  - inversion Hne as [|? ? Hc Hne']; subst.
    destruct (play_turn_more (length chunks + fuel) phdr hs t c)
      as (l & Hl & Heq); [|done|].
    { specialize (Hget 0%nat c eq_refl). by rewrite Nat.add_0_r in Hget. }
    cbn [length Nat.add]. rewrite Heq. clear Heq.
    match goal with |- context [PlaybackDevice.play_loop _ _ _ _ _ _ _ ?t0] =>
      set (t1 := t0) end.
    assert (Hc1 : count is_get_data t1 = S (count is_get_data t)).
    { subst t1. by read_log. }
    assert (Hs1 : submissions t1 = submissions t ++ [(phdr, chunk_hdr c)]).
    { subst t1. by read_log. }
    assert (Hr1 : releases t1
                  = releases t ++ [(other phdr, hs (other phdr))]).
    { subst t1. by read_log. }
    destruct (IH fuel (other phdr) (store phdr (chunk_hdr c) hs) t1)
      as (phdr' & hs' & t' & Heq' & Hcnt & Hsub & Hinv'); [done| | |].
    + intros i c' Hi. rewrite Hc1.
      specialize (Hget (S i) c' Hi).
      by replace (S (count is_get_data t) + i)%nat
        with (count is_get_data t + S i)%nat by lia.
    + by rewrite other_other, store_same, Hs1, Hr1, Hinv.
    + exists phdr', hs', t'. rewrite other_other in Heq'.
      split; [done|]. split; [lia|]. split; [|done].
      rewrite Hsub, Hs1. cbn. by rewrite <- app_assoc.
Qed.
End Playing.

(** *** Recording *)

Section Recording.
Variable on_chunk : nat -> cbres bool.

Lemma record_turn_more (fuel : nat) (phdr : slot) (d1 d2 : region) (len : Z)
    (hs : headers) (t : trace) :
  on_chunk (count is_on_chunk t) = CbRet true ->
  exists l,
    Forall (fun e => is_wait e = true) l /\
    RecordingDevice.record_loop W wfuel on_chunk (S fuel)
      phdr (other phdr) d1 d2 len hs t
    = RecordingDevice.record_loop W wfuel on_chunk fuel
        (other phdr) phdr d2 d1 len hs
        (EvCall (waveInUnprepareHeader phdr (hs phdr)) MMSYSERR_NOERROR
         :: EvOnChunk d1 len (CbRet true)
         :: l ++ EvCall (waveInAddBuffer (other phdr) (hs (other phdr)))
                   MMSYSERR_NOERROR
         :: EvCall (waveInPrepareHeader (other phdr) (hs (other phdr)))
              MMSYSERR_NOERROR
         :: t).
Proof.
  intros Hcb.
  cbn [RecordingDevice.record_loop].
  unfold bind at 1. rewrite hdr_in_prepare_add_ok.
  unfold bind at 1.
  match goal with |- context [wait_done W wfuel ?w ?t0] =>
    destruct (wait_done_ok w t0) as (l & Hl & Hf) end.
  exists l. split; [done|]. rewrite Hl.
  unfold bind at 1. unfold try_finally, call_on_chunk.
  rewrite count_on_chunk_waits by done. read_log. cbn [Nat.add].
  rewrite Hcb. cbn [of_cbres].
  unfold bind at 1. rewrite hdr_in_unprepare_ok. reflexivity.
Qed.

Lemma record_turn_last (fuel : nat) (phdr : slot) (d1 d2 : region) (len : Z)
    (hs : headers) (t : trace) :
  on_chunk (count is_on_chunk t) = CbRet false ->
  exists l,
    Forall (fun e => is_wait e = true) l /\
    RecordingDevice.record_loop W wfuel on_chunk (S fuel)
      phdr (other phdr) d1 d2 len hs t
    = (Done tt,
       EvCall (waveInUnprepareHeader phdr (hs phdr)) MMSYSERR_NOERROR
       :: EvOnChunk d1 len (CbRet false)
       :: l ++ EvCall (waveInAddBuffer (other phdr) (hs (other phdr)))
                 MMSYSERR_NOERROR
       :: EvCall (waveInPrepareHeader (other phdr) (hs (other phdr)))
            MMSYSERR_NOERROR
       :: t).
Proof.
  intros Hcb.
  cbn [RecordingDevice.record_loop].
  unfold bind at 1. rewrite hdr_in_prepare_add_ok.
  unfold bind at 1.
  match goal with |- context [wait_done W wfuel ?w ?t0] =>
    destruct (wait_done_ok w t0) as (l & Hl & Hf) end.
  exists l. split; [done|]. rewrite Hl.
  unfold bind at 1. unfold try_finally, call_on_chunk.
  rewrite count_on_chunk_waits by done. read_log. cbn [Nat.add].
  rewrite Hcb. cbn [of_cbres].
  unfold bind at 1. rewrite hdr_in_unprepare_ok. reflexivity.
Qed.

Lemma record_turn_raise (fuel : nat) (phdr : slot) (d1 d2 : region)
    (len : Z) (hs : headers) (t : trace) (e : exn) :
  on_chunk (count is_on_chunk t) = CbRaise e ->
  exists l,
    Forall (fun e => is_wait e = true) l /\
    RecordingDevice.record_loop W wfuel on_chunk (S fuel)
      phdr (other phdr) d1 d2 len hs t
    = (Raised e,
       EvCall (waveInUnprepareHeader (other phdr) (hs (other phdr)))
         MMSYSERR_NOERROR
       :: EvCall waveInReset MMSYSERR_NOERROR
       :: EvCall (waveInUnprepareHeader phdr (hs phdr)) MMSYSERR_NOERROR
       :: EvOnChunk d1 len (CbRaise e)
       :: l ++ EvCall (waveInAddBuffer (other phdr) (hs (other phdr)))
                 MMSYSERR_NOERROR
       :: EvCall (waveInPrepareHeader (other phdr) (hs (other phdr)))
            MMSYSERR_NOERROR
       :: t).
Proof.
  intros Hcb.
  cbn [RecordingDevice.record_loop].
  unfold bind at 1. rewrite hdr_in_prepare_add_ok.
  unfold bind at 1.
  match goal with |- context [wait_done W wfuel ?w ?t0] =>
    destruct (wait_done_ok w t0) as (l & Hl & Hf) end.
  exists l. split; [done|]. rewrite Hl.
  unfold bind at 1. unfold try_finally, call_on_chunk.
  rewrite count_on_chunk_waits by done. read_log. cbn [Nat.add].
  rewrite Hcb. cbn [of_cbres].
  unfold bind at 1. rewrite hdr_in_unprepare_ok.
  unfold bind at 1. rewrite call_ok.
  unfold bind at 1. rewrite check_mmresult_noerror_in.
  by rewrite hdr_in_unprepare_ok.
Qed.

Lemma record_loop_turns (len : Z) (hs : headers) (n : nat) :
  forall (fuel : nat) (phdr : slot) (d1 d2 : region) (t : trace),
  (forall i, (i < n)%nat ->
             on_chunk (count is_on_chunk t + i) = CbRet true) ->
  submissions t = releases t ++ [(phdr, hs phdr)] ->
  Forall (fun v => snd v = len) (chunks_given t) ->
  exists phdr' d1' d2' t',
    RecordingDevice.record_loop W wfuel on_chunk (n + fuel)
      phdr (other phdr) d1 d2 len hs t
    = RecordingDevice.record_loop W wfuel on_chunk fuel
        phdr' (other phdr') d1' d2' len hs t' /\
    count is_on_chunk t' = (count is_on_chunk t + n)%nat /\
    length (submissions t') = (length (submissions t) + n)%nat /\
    submissions t' = releases t' ++ [(phdr', hs phdr')] /\
    Forall (fun v => snd v = len) (chunks_given t').
Proof.
  induction n as [|n IH]; intros fuel phdr d1 d2 t Hcb Hinv Hlen.
  - exists phdr, d1, d2, t. cbn. by rewrite !Nat.add_0_r.
  - destruct (record_turn_more (n + fuel) phdr d1 d2 len hs t)
      as (l & Hl & Heq).
    { specialize (Hcb 0%nat ltac:(lia)). by rewrite Nat.add_0_r in Hcb. }
    cbn [Nat.add]. rewrite Heq. clear Heq.
    match goal with
    |- context [RecordingDevice.record_loop _ _ _ _ _ _ _ _ _ _ ?t0] =>
      set (t1 := t0) end.
    assert (Hc1 : count is_on_chunk t1 = S (count is_on_chunk t)).
    { subst t1. by read_log. }
    assert (Hs1 : submissions t1
                  = submissions t ++ [(other phdr, hs (other phdr))]).
    { subst t1. by read_log. }
    assert (Hr1 : releases t1 = releases t ++ [(phdr, hs phdr)]).
    { subst t1. by read_log. }
    assert (Hv1 : chunks_given t1 = chunks_given t ++ [(d1, len)]).
    { subst t1. by read_log. }
    destruct (IH fuel (other phdr) d2 d1 t1)
      as (phdr' & d1' & d2' & t' & Heq' & Hcnt & Hsub & Hinv' & Hlen').
    + intros i Hi. rewrite Hc1.
      specialize (Hcb (S i) ltac:(lia)).
      by replace (S (count is_on_chunk t) + i)%nat
        with (count is_on_chunk t + S i)%nat by lia.
    + by rewrite Hs1, Hr1, Hinv.
    + rewrite Hv1. apply Forall_app. split; [done|]. by constructor.
    + exists phdr', d1', d2', t'. rewrite other_other in Heq'.
      split; [done|]. split; [lia|]. split; [|done].
      rewrite Hsub, Hs1, length_app. cbn. lia.
Qed.
End Recording.

Lemma record_prologue (on_chunk : nat -> cbres bool)
    (self : RecordingDevice.t) (fuel : nat) (k : Z) :
  in_int k ->
  let len := to_word (int_mul (nBlockAlign (RecordingDevice._c_fmt self)) k) in
  RecordingDevice.record W wfuel on_chunk self fuel k []
  = try_finally
      (RecordingDevice.record_loop W wfuel on_chunk fuel
         hdr1 hdr2 bufA bufB len (record_headers len))
      (fun _ =>
         let* r := call W waveInStop in
         let* _ := lift (check_mmr_in W r "stop recording") in
         ret tt)
      [EvCall waveInStart MMSYSERR_NOERROR;
       EvCall (waveInAddBuffer hdr1 (record_headers len hdr1)) MMSYSERR_NOERROR;
       EvCall (waveInPrepareHeader hdr1 (record_headers len hdr1))
         MMSYSERR_NOERROR].
Proof.
  intros Hk len. unfold RecordingDevice.record.
  rewrite (as_int_in _ Hk). unfold bind. cbn [lift ret].
  unfold RecordingDevice.bytearray. fold len.
  pose proof (to_word_range
                (int_mul (nBlockAlign (RecordingDevice._c_fmt self)) k)) as Hl.
  fold len in Hl.
  destruct (Z.ltb_spec len 0) as [?|_]; [lia|]. cbn [ret].
  fold (record_headers len).
  rewrite hdr_in_prepare_add_ok, call_ok.
  by rewrite check_mmresult_noerror_in.
Qed.

Lemma stop_after {A} (body : M A) (t t1 : trace) (o : outcome A) :
  body t = (o, t1) -> o <> OutOfFuel ->
  try_finally body
    (fun _ =>
       let* r := call W waveInStop in
       let* _ := lift (check_mmr_in W r "stop recording") in
       ret tt) t
  = (o, EvCall waveInStop MMSYSERR_NOERROR :: t1).
Proof.
  intros Hb Ho. unfold try_finally. rewrite Hb.
  unfold bind. rewrite call_ok, check_mmresult_noerror_in.
  by destruct o.
Qed.

(** For a chunk size [k] that fits a C [int], when the consumer returns
    true on its first [M - 1] invocations and false on invocation [M], on
    a subsystem whose calls succeed and whose waits end, [record] returns
    normally, has submitted [M + 1] buffers, has invoked the consumer [M]
    times, and has given it each time a buffer of as many bytes as the low
    16 bits of [k * nBlockAlign] say: [k * nBlockAlign] bytes when that is
    below 65536. *)
Theorem record_counts (on_chunk : nat -> cbres bool)
    (self : RecordingDevice.t) (k : Z) (M fuel : nat) :
  0 < k -> in_int k ->
  (0 < M)%nat ->
  (forall i, (i + 1 < M)%nat -> on_chunk i = CbRet true) ->
  on_chunk (M - 1)%nat = CbRet false ->
  (M <= fuel)%nat ->
  exists t,
    RecordingDevice.record W wfuel on_chunk self fuel k [] = (Done tt, t) /\
    length (submissions t) = (M + 1)%nat /\
    count is_on_chunk t = M /\
    length (chunks_given t) = M /\
    Forall (fun v => snd v
                     = (k * nBlockAlign (RecordingDevice._c_fmt self))
                       mod 2 ^ 16)
      (chunks_given t) /\
    (0 <= k * nBlockAlign (RecordingDevice._c_fmt self) < 2 ^ 16 ->
     Forall (fun v => snd v = k * nBlockAlign (RecordingDevice._c_fmt self))
       (chunks_given t)).
Proof.
  intros Hk Hik HM Htrue Hfalse Hfuel.
  assert (Hlen : to_word (int_mul (nBlockAlign (RecordingDevice._c_fmt self)) k)
                 = (k * nBlockAlign (RecordingDevice._c_fmt self)) mod 2 ^ 16).
  { unfold int_mul. rewrite to_word_int_wrap. f_equal. lia. }
  rewrite record_prologue by done. cbv zeta. rewrite Hlen.
  set (len := (k * nBlockAlign (RecordingDevice._c_fmt self)) mod 2 ^ 16).
  set (hs := record_headers len).
  match goal with |- context [try_finally _ _ ?t0] => set (t1 := t0) end.
  destruct M as [|m]; [lia|].
  replace (S m - 1)%nat with m in Hfalse by lia.
  replace fuel with (m + S (fuel - S m))%nat by lia.
  destruct (record_loop_turns on_chunk len hs m (S (fuel - S m))
              hdr1 bufA bufB t1)
    as (phdr' & d1' & d2' & t' & Heq & Hcnt & Hsub & Hinv & Hlen').
  { intros i Hi. apply Htrue. subst t1. read_log. lia. }
  { subst t1. by read_log. }
  { subst t1. read_log. constructor. }
  change (other hdr1) with hdr2 in Heq.
  destruct (record_turn_last on_chunk (fuel - S m) phdr' d1' d2' len hs t')
    as (l & Hl & Heq').
  { rewrite Hcnt. subst t1. by read_log. }
  rewrite Heq' in Heq.
  erewrite stop_after; [|exact Heq|done].
  eexists. split; [reflexivity|].
  read_log. rewrite !length_app, Hsub, Hcnt.
  subst t1. read_log. cbn [length Nat.add].
  assert (Hall : Forall (fun v : region * Z => snd v = len)
                   (chunks_given t' ++ [(d1', len)])).
  { rewrite Forall_app. split; [done|]. by constructor. }
  repeat split; try lia; try done.
  - rewrite length_chunks_given, Hcnt. read_log. lia.
  - intros Hsmall. eapply Forall_impl; [exact Hall|].
    intros v Hv. cbn in Hv. rewrite Hv. subst len. by apply Z.mod_small.
Qed.

(** C7, as the code has it, on a subsystem whose calls succeed and whose
    waits end.  When the producer raises [e] on an invocation after the
    first, [play] raises [e] itself, and the log ends with the raising
    invocation, then [waveOutReset], then the unprepare of the one
    buffer that was still submitted.  When the consumer raises [e] on
    any invocation, [record] raises [e] itself, and the log ends with
    the raising invocation, the unprepare of the current buffer,
    [waveInReset], the unprepare of the queued next buffer, and
    [waveInStop].  In both cases every submitted buffer has been
    released when the error surfaces. *)
Theorem callback_error_cleanup (e : exn) :
  (forall (get_data : nat -> cbres (option (list Byte.byte)))
          (chunks : list (list Byte.byte)) (fuel : nat),
     chunks <> [] ->
     Forall (fun c => c <> []) chunks ->
     (forall i c, chunks !! i = Some c -> get_data i = CbRet (Some c)) ->
     get_data (length chunks) = CbRaise e ->
     (length chunks <= fuel)%nat ->
     exists t t0 w h,
       PlaybackDevice.play W wfuel get_data fuel [] = (Raised e, t) /\
       t = EvCall (waveOutUnprepareHeader w h) MMSYSERR_NOERROR
           :: EvCall waveOutReset MMSYSERR_NOERROR
           :: EvGetData (CbRaise e) :: t0 /\
       submissions t0 = releases t0 ++ [(w, h)] /\
       releases t = submissions t /\
       outstanding t = 0) /\
  (forall (on_chunk : nat -> cbres bool) (self : RecordingDevice.t)
          (k : Z) (n fuel : nat),
     in_int k ->
     (forall i, (i < n)%nat -> on_chunk i = CbRet true) ->
     on_chunk n = CbRaise e ->
     (n < fuel)%nat ->
     exists t t0 buf len wc hc wn hn,
       RecordingDevice.record W wfuel on_chunk self fuel k []
       = (Raised e, t) /\
       t = EvCall waveInStop MMSYSERR_NOERROR
           :: EvCall (waveInUnprepareHeader wn hn) MMSYSERR_NOERROR
           :: EvCall waveInReset MMSYSERR_NOERROR
           :: EvCall (waveInUnprepareHeader wc hc) MMSYSERR_NOERROR
           :: EvOnChunk buf len (CbRaise e) :: t0 /\
       submissions t0 = releases t0 ++ [(wc, hc); (wn, hn)] /\
       releases t = submissions t /\
       outstanding t = 0).
Proof.
  split.
  - intros get_data chunks fuel Hnil Hne Hget Hlast Hfuel.
    unfold PlaybackDevice.play. unfold bind at 1. unfold call_get_data.
    change (count is_get_data []) with 0%nat.
    destruct chunks as [|c0 rest]; [done|].
    rewrite (Hget 0%nat c0 eq_refl). cbn [of_cbres].
    inversion Hne as [|? ? Hc0 Hne']; subst.
    rewrite (truthy_chunk _ Hc0). cbn [negb].
    unfold bind at 1. rewrite hdr_out_prepare_write_ok, store_same.
    match goal with |- context [PlaybackDevice.play_loop _ _ _ _ _ _ ?hs0 ?t0] =>
      set (hs1 := hs0); set (t1 := t0) end.
    cbn [length] in Hfuel, Hlast.
    replace fuel with (length rest + S (fuel - S (length rest)))%nat by lia.
    destruct (play_loop_chunks get_data rest (S (fuel - S (length rest)))
                hdr1 hs1 t1) as (phdr' & hs' & t' & Heq & Hcnt & Hsub & Hinv).
    + done.
    + intros i c Hi. subst t1. read_log. by apply (Hget (S i)).
    + subst t1 hs1. by read_log.
    + change (other hdr1) with hdr2 in Heq. rewrite Heq.
      rewrite (play_turn_raise get_data _ phdr' hs' t' e).
      2:{ rewrite Hcnt. subst t1. by read_log. }
      eexists _, t', _, _. split; [reflexivity|]. split; [reflexivity|].
      split; [done|]. unfold outstanding. read_log. rewrite Hinv.
      split; [done|lia].
  - intros on_chunk self k n fuel Hk Htrue Hraise Hfuel.
    rewrite record_prologue by done. cbv zeta.
    set (len :=
      to_word (int_mul (nBlockAlign (RecordingDevice._c_fmt self)) k)).
    set (hs := record_headers len).
    match goal with |- context [try_finally _ _ ?t0] => set (t1 := t0) end.
    replace fuel with (n + S (fuel - S n))%nat by lia.
    destruct (record_loop_turns on_chunk len hs n (S (fuel - S n))
                hdr1 bufA bufB t1)
      as (phdr' & d1' & d2' & t' & Heq & Hcnt & Hsub & Hinv & Hlen').
    { intros i Hi. apply Htrue. subst t1. read_log. lia. }
    { subst t1. by read_log. }
    { subst t1. read_log. constructor. }
    change (other hdr1) with hdr2 in Heq.
    destruct (record_turn_raise on_chunk (fuel - S n) phdr' d1' d2' len hs t' e)
      as (l & Hl & Heq').
    { rewrite Hcnt. subst t1. by read_log. }
    rewrite Heq' in Heq.
    erewrite stop_after; [|exact Heq|done].
    eexists _, _, _, _, _, _, _, _.
    split; [reflexivity|]. split; [reflexivity|].
    unfold outstanding. read_log. rewrite Hinv, <- !app_assoc. cbn [app].
    split; [done|]. split; [done|lia].
Qed.

Lemma length_alternate (w : slot) (l : list WAVEHDR) :
  length (alternate w l) = length l.
Proof. revert w. induction l as [|h l IH]; intros w; cbn; [done|]. by rewrite IH. Qed.

(** C6: when the producer returns the non-empty chunks [chunks] and then
    an empty or absent value, on a subsystem whose calls succeed and
    whose waits end, [play] returns normally; the buffers it submitted
    are the chunks, in order, in alternating slots starting with [hdr2];
    the buffers it unprepared are the same, in the same order; and with
    no chunk at all the log holds the one producer call and nothing
    else. *)
Theorem play_submits_then_releases
    (get_data : nat -> cbres (option (list Byte.byte)))
    (chunks : list (list Byte.byte)) (d : option (list Byte.byte))
    (fuel : nat) :
  Forall (fun c => c <> []) chunks ->
  (forall i c, chunks !! i = Some c -> get_data i = CbRet (Some c)) ->
  get_data (length chunks) = CbRet d ->
  truthy d = false ->
  (length chunks <= fuel)%nat ->
  exists t,
    PlaybackDevice.play W wfuel get_data fuel [] = (Done tt, t) /\
    submissions t = alternate hdr2 (map chunk_hdr chunks) /\
    releases t = submissions t /\
    length (submissions t) = length chunks /\
    length (releases t) = length chunks /\
    (chunks = [] -> t = [EvGetData (CbRet d)]).
Proof.
  intros Hne Hget Hlast Hd Hfuel.
  unfold PlaybackDevice.play. unfold bind at 1. unfold call_get_data.
  change (count is_get_data []) with 0%nat.
  destruct chunks as [|c0 rest].
  - cbn in Hlast. rewrite Hlast. cbn [of_cbres]. rewrite Hd. cbn.
    eexists. repeat split; reflexivity.
  - rewrite (Hget 0%nat c0 eq_refl). cbn [of_cbres].
    inversion Hne as [|? ? Hc0 Hne']; subst.
    rewrite (truthy_chunk _ Hc0). cbn [negb].
    unfold bind at 1. rewrite hdr_out_prepare_write_ok, store_same.
    match goal with |- context [PlaybackDevice.play_loop _ _ _ _ _ _ ?hs0 ?t0] =>
      set (hs1 := hs0); set (t1 := t0) end.
    cbn [length] in Hfuel, Hlast.
    replace fuel with (length rest + S (fuel - S (length rest)))%nat by lia.
    destruct (play_loop_chunks get_data rest (S (fuel - S (length rest)))
                hdr1 hs1 t1) as (phdr' & hs' & t' & Heq & Hcnt & Hsub & Hinv).
    + done.
    + intros i c Hi. subst t1. read_log. by apply (Hget (S i)).
    + subst t1 hs1. by read_log.
    + change (other hdr1) with hdr2 in Heq. rewrite Heq.
      destruct (play_turn_last get_data (fuel - S (length rest)) phdr' hs' t' d)
        as (l & Hl & Heq'); [|done|].
      { rewrite Hcnt. subst t1. by read_log. }
      rewrite Heq'. eexists. split; [reflexivity|].
      read_log.
      assert (Hs : submissions t' = alternate hdr2 (map chunk_hdr (c0 :: rest))).
      { rewrite Hsub. subst t1 hs1. by read_log. }
      rewrite <- Hinv, Hs, length_alternate, length_map.
      repeat split; done.
Qed.
End Behaved.

(** ** Concrete runs *)

Lemma ideal_ok : device_ok ideal.
Proof. intros t c. reflexivity. Defined.

Lemma ideal_waits : waits_end ideal 1.
Proof. intros t w. reflexivity. Defined.

Lemma play_submits_then_releases_witness :
  exists t,
    PlaybackDevice.play ideal 1 two_chunks 2 [] = (Done tt, t) /\
    submissions t
    = [(hdr2, chunk_hdr [Byte.x2a]); (hdr1, chunk_hdr [Byte.x2b; Byte.x2c])] /\
    releases t = submissions t.
Proof.
  destruct (play_submits_then_releases ideal 1 ideal_ok ideal_waits two_chunks
              [[Byte.x2a]; [Byte.x2b; Byte.x2c]] None 2)
    as (t & H1 & H2 & H3 & _).
  - repeat constructor; discriminate.
  - intros [|[|i]] c; cbn; intros H; inversion H; reflexivity.
  - reflexivity.
  - reflexivity.
  - cbn. lia.
  - exists t. repeat split; assumption.
Defined.

Lemma record_counts_witness :
  exists t,
    RecordingDevice.record ideal 1 two_turns sample_rec 2 100 [] = (Done tt, t) /\
    length (submissions t) = 3%nat /\
    count is_on_chunk t = 2%nat.
Proof.
  destruct (record_counts ideal 1 ideal_ok ideal_waits two_turns sample_rec
              100 2 2) as (t & H1 & H2 & H3 & _).
  - lia.
  - unfold in_int, INT_MIN, INT_MAX. lia.
  - lia.
  - intros [|i] Hi; [reflexivity|lia].
  - reflexivity.
  - lia.
  - exists t. repeat split; assumption.
Defined.

(** C5 fails in the code for a chunk of one second of CD audio: with a
    block alignment of 4 and a chunk of 44100 frames, [record] submits two
    buffers and invokes the consumer once, as claimed, but the buffers
    have 45328 bytes, the low 16 bits of 176400, and not 176400 bytes. *)
Theorem record_chunk_size_truncated :
  nBlockAlign (RecordingDevice._c_fmt sample_rec) = 4 /\
  (exists t,
     RecordingDevice.record ideal 1 stop_at_once sample_rec 1 44100 []
     = (Done tt, t) /\
     length (submissions t) = 2%nat /\
     chunks_given t = [(bufA, 45328)] /\
     Forall (fun x => dwBufferLength (snd x) = 45328) (submissions t)) /\
  44100 * nBlockAlign (RecordingDevice._c_fmt sample_rec) = 176400 /\
  176400 mod 2 ^ 16 = 45328.
Proof.
  split; [reflexivity|]. split; [|split; reflexivity].
  eexists. split; [vm_compute; reflexivity|].
  split; [reflexivity|]. split; [reflexivity|].
  repeat constructor.
Qed.

Lemma callback_error_cleanup_witness :
  (exists t,
     PlaybackDevice.play ideal 1 raise_second 1 [] = (Raised (PyException 1), t) /\
     outstanding t = 0) /\
  (exists t,
     RecordingDevice.record ideal 1 fail_at_once sample_rec 1 100 []
     = (Raised (PyException 1), t) /\
     outstanding t = 0).
Proof.
  destruct (callback_error_cleanup ideal 1 ideal_ok ideal_waits (PyException 1))
    as [Hplay Hrec].
  split.
  - destruct (Hplay raise_second [[Byte.x2a]] 1%nat)
      as (t & t0 & w & h & H1 & _ & _ & _ & H5).
    + discriminate.
    + repeat constructor; discriminate.
    + intros [|i] c; cbn; intros H; inversion H; reflexivity.
    + reflexivity.
    + cbn. lia.
    + exists t. split; assumption.
  - destruct (Hrec fail_at_once sample_rec 100 0%nat 1%nat)
      as (t & t0 & buf & len & wc & hc & wn & hn & H1 & _ & _ & _ & H5).
    + unfold in_int, INT_MIN, INT_MAX. lia.
    + intros i Hi. lia.
    + reflexivity.
    + lia.
    + exists t. split; assumption.
Defined.

(** C7 as stated fails: when the producer raises on its first invocation,
    [play] lets the error through without a device reset; the log holds
    the producer call and no call to the subsystem. *)
Lemma play_first_call_raises_without_reset :
  PlaybackDevice.play ideal 1 raise_at_once 3 []
  = (Raised (PyException 1), [EvGetData (CbRaise (PyException 1))]) /\
  collect device_call [EvGetData (CbRaise (PyException 1))] = [] /\
  ~ In (EvCall waveOutReset MMSYSERR_NOERROR)
       (snd (PlaybackDevice.play ideal 1 raise_at_once 3 [])).
Proof.
  split; [reflexivity|]. split; [reflexivity|].
  cbn. intros [H|[]]. discriminate.
Qed.

(** C2 fails on the normal exit of [record]: when the consumer returns
    false on its first invocation, [record] returns after it has submitted
    both headers and unprepared only [hdr1]; [hdr2], queued at the top of
    the turn, is still with the device. *)
Theorem record_returns_with_next_queued :
  exists t,
    RecordingDevice.record ideal 1 stop_at_once sample_rec 1 100 []
    = (Done tt, t) /\
    submissions t = [(hdr1, record_headers 400 hdr1);
                     (hdr2, record_headers 400 hdr2)] /\
    releases t = [(hdr1, record_headers 400 hdr1)] /\
    outstanding t = 1 /\
    collect device_call t
    = [waveInPrepareHeader hdr1 (record_headers 400 hdr1);
       waveInAddBuffer hdr1 (record_headers 400 hdr1);
       waveInStart;
       waveInPrepareHeader hdr2 (record_headers 400 hdr2);
       waveInAddBuffer hdr2 (record_headers 400 hdr2);
       waveInUnprepareHeader hdr1 (record_headers 400 hdr1);
       waveInStop].
Proof.
  eexists. split; [vm_compute; reflexivity|].
  repeat split; vm_compute; reflexivity.
Qed.

(** ** Rules for assertions on runs *)

Lemma hoare_ret {A} (P : trace -> Prop) (a : A) (Q : A -> trace -> Prop)
    (E : trace -> Prop) :
  (forall t, P t -> Q a t) -> hoare P (ret a) Q E.
Proof. intros H t Ht. by apply H. Qed.

Lemma hoare_raise {A} (P : trace -> Prop) (e : exn) (Q : A -> trace -> Prop)
    (E : trace -> Prop) :
  (forall t, P t -> E t) -> hoare P (raise e) Q E.
Proof. intros H t Ht. by apply H. Qed.

Lemma hoare_out_of_fuel {A} (P : trace -> Prop) (Q : A -> trace -> Prop)
    (E : trace -> Prop) :
  (forall t, P t -> E t) -> hoare P out_of_fuel Q E.
Proof. intros H t Ht. by apply H. Qed.

Lemma hoare_bind {A B} (P : trace -> Prop) (m : M A) (k : A -> M B)
    (Q : A -> trace -> Prop) (R : B -> trace -> Prop) (E : trace -> Prop) :
  hoare P m Q E ->
  (forall a, hoare (Q a) (k a) R E) ->
  hoare P (bind m k) R E.
Proof.
  intros Hm Hk t Ht. unfold bind. specialize (Hm t Ht).
  destruct (m t) as [[a|e|] t1]; [|done|done].
  by apply Hk.
Qed.

Lemma hoare_weaken {A} (P P' : trace -> Prop) (m : M A)
    (Q Q' : A -> trace -> Prop) (E E' : trace -> Prop) :
  hoare P' m Q' E' ->
  (forall t, P t -> P' t) ->
  (forall a t, Q' a t -> Q a t) ->
  (forall t, E' t -> E t) ->
  hoare P m Q E.
Proof.
  intros Hm HP HQ HE t Ht. specialize (Hm t (HP t Ht)).
  destruct (m t) as [[a|e|] t1]; auto.
Qed.

Lemma hoare_try_finally {A} (P : trace -> Prop) (body : M A)
    (fin : bool -> M unit) (Q R : A -> trace -> Prop) (E1 E : trace -> Prop) :
  hoare P body Q E1 ->
  (forall a, hoare (Q a) (fin true) (fun _ => R a) E) ->
  hoare E1 (fin false) (fun _ => E) E ->
  (forall t, E1 t -> E t) ->
  hoare P (try_finally body fin) R E.
Proof.
  intros Hb Ht Hf HE t HP. unfold try_finally. specialize (Hb t HP).
  destruct (body t) as [[a|e|] t1].
  - specialize (Ht a t1 Hb). by destruct (fin true t1) as [[u|e|] t2].
  - specialize (Hf t1 Hb). by destruct (fin false t1) as [[u|e'|] t2].
  - by apply HE.
Qed.

Lemma hoare_call (W : world) (c : devcall) (P : trace -> Prop)
    (Q : Z -> trace -> Prop) (E : trace -> Prop) :
  (forall t r, P t -> Q r (EvCall c r :: t)) ->
  hoare P (call W c) Q E.
Proof. intros H t Ht. by apply H. Qed.

Lemma hoare_check (W : world) (r : Z) (cause : string) (for_in : bool)
    (P : trace -> Prop) (Q : Z -> trace -> Prop) (E : trace -> Prop) :
  (forall t, P t -> r = MMSYSERR_NOERROR -> Q 0 t) ->
  (forall t, P t -> r <> MMSYSERR_NOERROR -> E t) ->
  hoare P (lift (check_mmresult W r cause for_in)) Q E.
Proof.
  intros Hq He t Ht.
  destruct (Z.eq_dec r MMSYSERR_NOERROR) as [->|Hr].
  - rewrite check_mmresult_noerror. by apply Hq.
  - destruct (check_mmresult_raises W r cause for_in Hr) as (e & -> & _).
    by apply He.
Qed.

(** A call whose result goes through the translator: it goes on after a
    call that returned [MMSYSERR_NOERROR], and raises after any other. *)
Lemma hoare_checked_call (W : world) (c : devcall) (cause : string)
    (for_in : bool) (P : trace -> Prop) (Q : Z -> trace -> Prop)
    (E : trace -> Prop) :
  (forall t, P t -> Q 0 (EvCall c MMSYSERR_NOERROR :: t)) ->
  (forall t r, P t -> r <> MMSYSERR_NOERROR -> E (EvCall c r :: t)) ->
  hoare P (let* r := call W c in lift (check_mmresult W r cause for_in)) Q E.
Proof.
  intros Hq He.
  apply hoare_bind with
    (Q := fun r t' => exists t, P t /\ t' = EvCall c r :: t).
  - apply hoare_call. eauto.
  - intros r. apply hoare_check.
    + intros t' (t & Ht & ->) ->. by apply Hq.
    + intros t' (t & Ht & ->) Hr. by apply He.
Qed.

Lemma hoare_checked_call_then {B} (W : world) (c : devcall) (cause : string)
    (for_in : bool) (k : M B) (P Q : trace -> Prop) (R : B -> trace -> Prop)
    (E : trace -> Prop) :
  (forall t, P t -> Q (EvCall c MMSYSERR_NOERROR :: t)) ->
  (forall t r, P t -> r <> MMSYSERR_NOERROR -> E (EvCall c r :: t)) ->
  hoare Q k R E ->
  hoare P (let* r := call W c in
           let* _ := lift (check_mmresult W r cause for_in) in k) R E.
Proof.
  intros Hq He Hk.
  apply hoare_bind with
    (Q := fun r t' => exists t, P t /\ t' = EvCall c r :: t).
  - apply hoare_call. eauto.
  - intros r. apply hoare_bind with (Q := fun _ => Q); [|done].
    apply hoare_check.
    + intros t' (t & Ht & ->) ->. by apply Hq.
    + intros t' (t & Ht & ->) Hr. by apply He.
Qed.

(** ** Every moment of a recording *)

Lemma at_every_moment_nil (P : trace -> Prop) : P [] -> at_every_moment P [].
Proof.
  intros H later now Heq. symmetry in Heq.
  apply app_eq_nil in Heq as [_ ->]. done.
Qed.

Lemma at_every_moment_cons (P : trace -> Prop) (e : event) (t : trace) :
  at_every_moment P t -> P (e :: t) -> at_every_moment P (e :: t).
Proof.
  intros Ht He later now Heq. destruct later as [|e' later]; cbn in Heq.
  - by subst now.
  - injection Heq as _ Heq. by apply (Ht later).
Qed.

Lemma at_every_moment_now (P : trace -> Prop) (t : trace) :
  at_every_moment P t -> P t.
Proof. intros H. by apply (H []). Qed.

Lemma outstanding_cons (e : event) (t : trace) :
  outstanding (e :: t)
  = outstanding t + Z.of_nat (length (option_list (submitted e)))
    - Z.of_nat (length (option_list (released e))).
Proof.
  unfold outstanding. rewrite submissions_cons, releases_cons, !length_app. lia.
Qed.

Lemma outstanding_waits (l t : trace) :
  Forall (fun e => is_wait e = true) l -> outstanding (l ++ t) = outstanding t.
Proof.
  intros Hl. unfold outstanding.
  by rewrite submissions_waits, releases_waits.
Qed.

Lemma last_chunk_waits (l t : trace) :
  Forall (fun e => is_wait e = true) l -> last_chunk (l ++ t) = last_chunk t.
Proof. induction 1 as [|e l He _ IH]; [done|]. by destruct e. Qed.

Lemma queued_since_chunk_waits (l t : trace) :
  Forall (fun e => is_wait e = true) l ->
  queued_since_chunk (l ++ t) = queued_since_chunk t.
Proof. induction 1 as [|e l He _ IH]; [done|]. by destruct e. Qed.

Section Moments.
Variable len : Z.

Lemma record_inv_nil : record_inv len [].
Proof.
  apply at_every_moment_nil. unfold record_moment. cbn. split; [done|].
  split; [|done]. intros [].
Qed.

(** An event that is neither a wait nor a consumer call keeps the
    invariant when it leaves at most two buffers with the device. *)
Lemma record_inv_step (e : event) (t : trace) :
  record_inv len t -> outstanding (e :: t) <= 2 ->
  is_wait e = false -> is_on_chunk e = false ->
  record_inv len (e :: t).
Proof.
  intros Ht Ho Hw Hc. apply at_every_moment_cons; [done|].
  split; [done|]. split.
  - cbn. by rewrite Hw.
  - by destruct e.
Qed.

(** An event that submits nothing keeps the invariant. *)
Lemma record_inv_quiet (e : event) (t : trace) :
  record_inv len t -> submitted e = None ->
  is_wait e = false -> is_on_chunk e = false ->
  record_inv len (e :: t).
Proof.
  intros Ht Hs Hw Hc. apply record_inv_step; try done.
  pose proof (at_every_moment_now _ _ Ht) as [Ho _].
  rewrite outstanding_cons, Hs. cbn [option_list option_rect length]. lia.
Qed.

Lemma record_inv_waits (l t : trace) :
  Forall (fun e => is_wait e = true) l ->
  record_inv len t -> outstanding t = 2 -> record_inv len (l ++ t).
Proof.
  intros Hl Ht Ho. induction Hl as [|e l He Hl IH]; [done|].
  cbn. apply at_every_moment_cons; [done|].
  assert (Ho' : outstanding (e :: l ++ t) = 2).
  { change (e :: l ++ t) with ((e :: l) ++ t).
    rewrite outstanding_waits; [done|]. by constructor. }
  split; [lia|]. split; [done|]. by destruct e.
Qed.

Lemma record_inv_chunk (b : region) (res : cbres bool) (t : trace) :
  record_inv len t -> b = region_at (count is_on_chunk t) ->
  (forall b0, last_chunk t = Some b0 ->
              In (PyByteArray b0) (queued_since_chunk t)) ->
  record_inv len (EvOnChunk b len res :: t).
Proof.
  intros Ht Hb Hq. apply at_every_moment_cons; [done|].
  pose proof (at_every_moment_now _ _ Ht) as [Ho _].
  split.
  - rewrite outstanding_cons. cbn. lia.
  - split; [done|]. done.
Qed.
End Moments.

Lemma region_at_SS (n : nat) : region_at (S (S n)) = region_at n.
Proof. reflexivity. Qed.

Lemma region_at_S (n : nat) : region_at (S n) <> region_at n.
Proof.
  unfold region_at. rewrite Nat.even_succ, <- Nat.negb_even.
  by destruct (Nat.even n).
Qed.

Section RecordTurn.
Variable W : world.
Variable wfuel : nat.
Variable on_chunk : nat -> cbres bool.
Variable len : Z.
Variable hs : headers.

Lemma spec_prepare_add_next (w : slot) (d1 d2 : region) :
  lpData (hs w) = PyByteArray d2 ->
  hoare (at_top len d1 d2) (hdr_in_prepare_add W w (hs w))
    (fun _ => both_queued len d1 d2) (record_inv len).
Proof.
  intros Hw. unfold hdr_in_prepare_add.
  apply hoare_checked_call_then with
    (Q := fun t' => exists t, at_top len d1 d2 t /\
                      t' = EvCall (waveInPrepareHeader w (hs w))
                             MMSYSERR_NOERROR :: t).
  { eauto. }
  { intros t r (Ht & _) Hr. by apply record_inv_quiet. }
  apply hoare_checked_call_then with (Q := both_queued len d1 d2).
  - intros t' (t & (Hi & Ho & H1 & H2 & Hl) & ->).
    assert (Ho' : outstanding
              (EvCall (waveInAddBuffer w (hs w)) MMSYSERR_NOERROR
               :: EvCall (waveInPrepareHeader w (hs w)) MMSYSERR_NOERROR
               :: t) = 2).
    { rewrite !outstanding_cons. cbn. lia. }
    split; [|split; [done|]].
    + apply record_inv_step; [|lia|done|done]. by apply record_inv_quiet.
    + read_log. cbn [Nat.add]. split; [done|]. split; [done|].
      intros b0 Hb0. cbn in Hb0. apply Hl in Hb0 as ->.
      cbn. left. done.
  - intros t' r (t & (Hi & _) & ->) Hr.
    apply record_inv_quiet; [by apply record_inv_quiet| |done|done].
    cbn. by destruct (Z.eqb_spec r MMSYSERR_NOERROR).
  - by apply hoare_ret.
Qed.

Lemma spec_wait (w : slot) (d1 d2 : region) :
  hoare (both_queued len d1 d2) (wait_done W wfuel w)
    (fun _ => both_queued len d1 d2) (record_inv len).
Proof.
  intros t (Hi & Ho & H1 & H2 & Hq).
  destruct (wait_done_log W wfuel w t) as (l & o & -> & Hl).
  destruct o as [[]|e|]; [|done|].
  - apply wait_ended_waits, Forall_rev in Hl.
    split; [by apply record_inv_waits|].
    rewrite outstanding_waits, count_on_chunk_waits, last_chunk_waits,
      queued_since_chunk_waits by done.
    done.
  - destruct Hl as [Hl _]. apply wait_going_waits, Forall_rev in Hl.
    by apply record_inv_waits.
Qed.

Lemma spec_chunk (d1 d2 : region) :
  hoare (both_queued len d1 d2) (call_on_chunk on_chunk d1 len)
    (fun _ => chunk_given len d1 d2) (chunk_given len d1 d2).
Proof.
  intros t (Hi & Ho & H1 & H2 & Hq). unfold call_on_chunk.
  set (res := on_chunk (count is_on_chunk t)).
  assert (Hg : chunk_given len d1 d2 (EvOnChunk d1 len res :: t)).
  { split; [by apply record_inv_chunk|].
    rewrite outstanding_cons. read_log. cbn. split; [lia|].
    split; [done|]. by rewrite region_at_SS. }
  by destruct res.
Qed.

Lemma spec_unprepare_quiet (w : slot) (h : WAVEHDR) :
  hoare (record_inv len) (hdr_in_unprepare W w h)
    (fun _ => record_inv len) (record_inv len).
Proof.
  unfold hdr_in_unprepare.
  apply hoare_checked_call_then with (Q := record_inv len).
  - intros t Ht. by apply record_inv_quiet.
  - intros t r Ht _. by apply record_inv_quiet.
  - by apply hoare_ret.
Qed.

Lemma spec_unprepare_current (w : slot) (h : WAVEHDR) (d1 d2 : region) :
  hoare (chunk_given len d1 d2) (hdr_in_unprepare W w h)
    (fun _ => at_top len d2 d1) (record_inv len).
Proof.
  unfold hdr_in_unprepare.
  apply hoare_checked_call_then with (Q := at_top len d2 d1).
  - intros t (Hi & Ho & H1 & H2 & Hl).
    split; [by apply record_inv_quiet|].
    rewrite outstanding_cons. read_log. cbn. split; [lia|].
    split; [done|]. split; [done|].
    intros b0. rewrite Hl. by intros [= <-].
  - intros t r (Hi & _) _. by apply record_inv_quiet.
  - by apply hoare_ret.
Qed.

Lemma spec_cleanup (w w' : slot) (h h' : WAVEHDR) :
  hoare (record_inv len)
    (hdr_in_unprepare W w h >>
     (let* r := call W waveInReset in
      let* _ := lift (check_mmr_in W r "reset audio device") in
      hdr_in_unprepare W w' h'))
    (fun _ => record_inv len) (record_inv len).
Proof.
  apply hoare_bind with (Q := fun _ => record_inv len).
  - apply spec_unprepare_quiet.
  - intros _. apply hoare_checked_call_then with (Q := record_inv len).
    + intros t Ht. by apply record_inv_quiet.
    + intros t r Ht _. by apply record_inv_quiet.
    + apply spec_unprepare_quiet.
Qed.

Lemma spec_record_loop (fuel : nat) :
  forall (phdr pnext_hdr : slot) (d1 d2 : region),
  lpData (hs phdr) = PyByteArray d1 ->
  lpData (hs pnext_hdr) = PyByteArray d2 ->
  hoare (at_top len d1 d2)
    (RecordingDevice.record_loop W wfuel on_chunk fuel
       phdr pnext_hdr d1 d2 len hs)
    (fun _ => record_inv len) (record_inv len).
Proof.
  induction fuel as [|fuel IH]; intros phdr pnext_hdr d1 d2 Hp Hn.
  - apply hoare_out_of_fuel. by intros t [Hi _].
  - cbn [RecordingDevice.record_loop].
    apply hoare_bind with (Q := fun _ => both_queued len d1 d2);
      [by apply spec_prepare_add_next|intros _].
    apply hoare_bind with (Q := fun _ => both_queued len d1 d2);
      [by apply spec_wait|intros _].
    apply hoare_bind with (Q := fun _ => at_top len d2 d1).
    + apply hoare_try_finally with
        (Q := fun _ => chunk_given len d1 d2) (E1 := chunk_given len d1 d2).
      * apply spec_chunk.
      * intros another.
        apply hoare_bind with (Q := fun _ => at_top len d2 d1).
        { apply spec_unprepare_current. }
        intros _. by apply hoare_ret.
      * eapply hoare_weaken; [apply spec_cleanup| |done|done].
        by intros t [Hi _].
      * by intros t [Hi _].
    + intros [|].
      * by apply IH.
      * apply hoare_ret. by intros t [Hi _].
Qed.
End RecordTurn.

Lemma hoare_pure {A} (phi : Prop) (P : trace -> Prop) (m : M A)
    (Q : A -> trace -> Prop) (E : trace -> Prop) :
  (phi -> hoare P m Q E) -> hoare (fun t => phi /\ P t) m Q E.
Proof. intros H t [Hphi Ht]. by apply H. Qed.

Lemma spec_record (W : world) (wfuel : nat) (on_chunk : nat -> cbres bool)
    (self : RecordingDevice.t) (fuel : nat) (k : Z) :
  let len :=
    to_word (int_mul (nBlockAlign (RecordingDevice._c_fmt self)) k) in
  hoare (fun t => t = []) (RecordingDevice.record W wfuel on_chunk self fuel k)
    (fun _ => record_inv len) (record_inv len).
Proof.
  intros len. unfold RecordingDevice.record.
  apply hoare_bind with (Q := fun s t => s = k /\ t = []).
  { intros t ->. destruct (as_int k) as [e|s] eqn:Hs; cbn.
    - apply record_inv_nil.
    - by apply as_int_inv in Hs as [-> _]. }
  intros s. apply hoare_pure. intros ->. fold len.
  apply hoare_bind with (Q := fun l t => l = len /\ t = []).
  { intros t ->. unfold RecordingDevice.bytearray.
    destruct (len <? 0); cbn; [apply record_inv_nil|done]. }
  intros l. apply hoare_pure. intros ->.
  fold (record_headers len).
  apply hoare_bind with
    (Q := fun _ t => record_inv len t /\ outstanding t = 1 /\
                     count is_on_chunk t = 0%nat /\ last_chunk t = None).
  { unfold hdr_in_prepare_add.
    apply hoare_checked_call_then with
      (Q := fun t => t = [EvCall (waveInPrepareHeader hdr1
                                    (record_headers len hdr1))
                            MMSYSERR_NOERROR]).
    - by intros t ->.
    - intros t r -> _. apply record_inv_quiet; try done. apply record_inv_nil.
    - apply hoare_checked_call_then with
        (Q := fun t => record_inv len t /\ outstanding t = 1 /\
                       count is_on_chunk t = 0%nat /\ last_chunk t = None).
      + intros t ->. split; [|done].
        apply record_inv_step; [|done|done|done].
        apply record_inv_quiet; try done. apply record_inv_nil.
      + intros t r -> Hr.
        apply record_inv_quiet; [| |done|done].
        * apply record_inv_quiet; try done. apply record_inv_nil.
        * cbn. by destruct (Z.eqb_spec r MMSYSERR_NOERROR).
      + by apply hoare_ret. }
  intros _.
  apply hoare_bind with (Q := fun _ => at_top len bufA bufB).
  { apply hoare_checked_call.
    - intros t (Hi & Ho & Hc & Hl).
      split; [by apply record_inv_quiet|].
      rewrite outstanding_cons. read_log. cbn. rewrite Hc, Hl.
      split; [lia|]. done.
    - intros t r (Hi & _) _. by apply record_inv_quiet. }
  intros _.
  apply hoare_try_finally with
    (Q := fun _ => record_inv len) (E1 := record_inv len); [| | |done].
  - by apply spec_record_loop.
  - intros _. apply hoare_checked_call_then with (Q := record_inv len).
    + intros t Ht. by apply record_inv_quiet.
    + intros t r Ht _. by apply record_inv_quiet.
    + by apply hoare_ret.
  - apply hoare_checked_call_then with (Q := record_inv len).
    + intros t Ht. by apply record_inv_quiet.
    + intros t r Ht _. by apply record_inv_quiet.
    + by apply hoare_ret.
Qed.

Lemma record_moments (W : world) (wfuel : nat) (on_chunk : nat -> cbres bool)
    (self : RecordingDevice.t) (fuel : nat) (k : Z) :
  record_inv ((nBlockAlign (RecordingDevice._c_fmt self) * k) mod 2 ^ 16)
    (snd (RecordingDevice.record W wfuel on_chunk self fuel k [])).
Proof.
  pose proof (spec_record W wfuel on_chunk self fuel k [] eq_refl) as H.
  cbv zeta in H. rewrite chunk_bytes in H.
  by destruct (RecordingDevice.record W wfuel on_chunk self fuel k [])
    as [[u|e|] t].
Qed.

(** C8: at every moment of every run of [record], whatever the subsystem
    and the consumer do, at most two buffers are with the device
    (submitted and not released), and whenever the engine is in the wait
    for the current buffer exactly two are: the next buffer was submitted
    before the wait began. *)
Theorem record_two_outstanding (W : world) (wfuel : nat)
    (on_chunk : nat -> cbres bool) (self : RecordingDevice.t)
    (fuel : nat) (k : Z) :
  at_every_moment
    (fun now => outstanding now <= 2 /\ (waiting now -> outstanding now = 2))
    (snd (RecordingDevice.record W wfuel on_chunk self fuel k [])).
Proof.
  intros later now Heq.
  destruct (record_moments W wfuel on_chunk self fuel k later now Heq)
    as (H1 & H2 & _).
  done.
Qed.

Lemma at_every_moment_tail (P : trace -> Prop) (e : event) (t : trace) :
  at_every_moment P (e :: t) -> at_every_moment P t.
Proof. intros H later now Heq. apply (H (e :: later)). by rewrite Heq. Qed.

Lemma chunks_of_record_inv (len : Z) (t : trace) :
  record_inv len t ->
  forall i b l, chunks_given t !! i = Some (b, l) ->
                b = region_at i /\ l = len.
Proof.
  induction t as [|e t IH]; intros Hinv i b l Hi; [done|].
  rewrite chunks_given_cons in Hi.
  apply lookup_app_Some in Hi as [Hi|[Hge Hi]].
  - apply IH; [|done]. by eapply at_every_moment_tail.
  - apply at_every_moment_now in Hinv as (_ & _ & Hc).
    rewrite length_chunks_given in Hi, Hge.
    destruct e as [c r|r|w v|res|buf l' res|]; try done.
    cbn in Hi. destruct Hc as (Hb & Hl & _).
    destruct (i - count is_on_chunk t)%nat as [|n] eqn:Hn; [|done].
    injection Hi as <- <-. split; [|done].
    rewrite Hb. f_equal. lia.
Qed.

(** C10: in every run of [record], whatever the subsystem and the
    consumer do, the consumer is given the two bytearrays in turn,
    [bufA] at invocations 0, 2, 4, ... and [bufB] at invocations 1, 3,
    5, ..., always with the length they were allocated with, the low 16
    bits of [nBlockAlign * k]; so two
    consecutive invocations get different bytearrays and invocations [i]
    and [i + 2] get the same one; and at each invocation the bytearray
    given at the previous invocation has been queued to the device again
    in between. *)
Theorem record_regions_alternate (W : world) (wfuel : nat)
    (on_chunk : nat -> cbres bool) (self : RecordingDevice.t)
    (fuel : nat) (k : Z) :
  let t := snd (RecordingDevice.record W wfuel on_chunk self fuel k []) in
  let len := (nBlockAlign (RecordingDevice._c_fmt self) * k) mod 2 ^ 16 in
  (forall i b l, chunks_given t !! i = Some (b, l) ->
                 b = region_at i /\ l = len) /\
  (forall i b l b' l',
     chunks_given t !! i = Some (b, l) ->
     chunks_given t !! S i = Some (b', l') -> b' <> b) /\
  (forall i b l b' l',
     chunks_given t !! i = Some (b, l) ->
     chunks_given t !! S (S i) = Some (b', l') -> b' = b) /\
  (forall later b l res now,
     t = later ++ EvOnChunk b l res :: now ->
     forall b0, last_chunk now = Some b0 ->
                In (PyByteArray b0) (queued_since_chunk now)).
Proof.
  intros t len.
  pose proof (record_moments W wfuel on_chunk self fuel k) as Hinv.
  fold t len in Hinv.
  pose proof (chunks_of_record_inv len t Hinv) as Hc.
  split; [done|]. split; [|split].
  - intros i b l b' l' H1 H2.
    apply Hc in H1 as [-> _]. apply Hc in H2 as [-> _].
    apply region_at_S.
  - intros i b l b' l' H1 H2.
    apply Hc in H1 as [-> _]. apply Hc in H2 as [-> _].
    apply region_at_SS.
  - intros later b l res now Heq.
    by destruct (Hinv later _ Heq) as (_ & _ & _ & _ & Hq).
Qed.

(** * Further properties *)

(** ** Device enumeration *)

Lemma playback_devices_from_ok (W : world) (mx : mixer) (n : nat) :
  forall (i : Z) (devs : list (string * Z)),
  (forall j, i <= j < i + Z.of_nat n ->
             fst (waveOutGetDevCapsW mx j) = MMSYSERR_NOERROR) ->
  playback_devices_from W mx n i devs
  = inr (devs ++ map (fun j => (snd (waveOutGetDevCapsW mx j), j))
                   (map (fun k => i + Z.of_nat k) (seq 0 n))).
Proof.
  induction n as [|n IH]; intros i devs Hok.
  - cbn. by rewrite app_nil_r.
  - cbn [playback_devices_from].
    pose proof (Hok i ltac:(lia)) as Hi.
    destruct (waveOutGetDevCapsW mx i) as [r name] eqn:Hc. cbn in Hi. subst r.
    unfold check_mmr_out. rewrite check_mmresult_noerror.
    rewrite IH by (intros j Hj; apply Hok; lia).
    cbn [seq map]. rewrite Z.add_0_r, Hc. cbn [snd].
    rewrite <- app_assoc. cbn [app]. do 3 f_equal.
    rewrite <- seq_shift, !map_map. apply map_ext. intros k.
    by replace (i + Z.of_nat (S k)) with (i + 1 + Z.of_nat k) by lia.
Qed.

Lemma recording_devices_from_ok (W : world) (mx : mixer) (n : nat) :
  forall (i : Z) (devs : list (string * Z * option Z)),
  (forall j, i <= j < i + Z.of_nat n ->
             fst (waveInGetDevCapsW mx j) = MMSYSERR_NOERROR) ->
  recording_devices_from W mx n i devs
  = inr (devs ++ map (fun j => (fst (snd (waveInGetDevCapsW mx j)), j,
                                Some (snd (snd (waveInGetDevCapsW mx j)))))
                   (map (fun k => i + Z.of_nat k) (seq 0 n))).
Proof.
  induction n as [|n IH]; intros i devs Hok.
  - cbn. by rewrite app_nil_r.
  - cbn [recording_devices_from].
    pose proof (Hok i ltac:(lia)) as Hi.
    destruct (waveInGetDevCapsW mx i) as [r [name ch]] eqn:Hc.
    cbn in Hi. subst r.
    unfold check_mmr_in. rewrite check_mmresult_noerror.
    rewrite IH by (intros j Hj; apply Hok; lia).
    cbn [seq map]. rewrite Z.add_0_r, Hc. cbn [fst snd].
    rewrite <- app_assoc. cbn [app]. do 3 f_equal.
    rewrite <- seq_shift, !map_map. apply map_ext. intros k.
    by replace (i + Z.of_nat (S k)) with (i + 1 + Z.of_nat k) by lia.
Qed.

Lemma range_shift (n : Z) :
  map (fun k => 0 + Z.of_nat k) (seq 0 (Z.to_nat n)) = range n.
Proof. unfold range. apply map_ext. intros k. lia. Qed.

(** When every capability query succeeds, the playback list is the
    Default entry, mapped to [WAVE_MAPPER], followed by one entry per
    device id [0 .. n - 1] in order, each with the name the query gave;
    the recording list is the same with the channel count as a third
    component, which the Default entry does not have.  A device count of
    zero or less gives the Default entry alone. *)
Theorem enumeration_lists_devices (W : world) (mx : mixer) :
  ((forall j, 0 <= j < waveOutGetNumDevs mx ->
              fst (waveOutGetDevCapsW mx j) = MMSYSERR_NOERROR) ->
   _get_playback_devices W mx
   = inr (("Default", WAVE_MAPPER)
          :: map (fun j => (snd (waveOutGetDevCapsW mx j), j))
               (range (waveOutGetNumDevs mx)))) /\
  ((forall j, 0 <= j < waveInGetNumDevs mx ->
              fst (waveInGetDevCapsW mx j) = MMSYSERR_NOERROR) ->
   _get_recording_devices W mx
   = inr (("Default", WAVE_MAPPER, None)
          :: map (fun j => (fst (snd (waveInGetDevCapsW mx j)), j,
                            Some (snd (snd (waveInGetDevCapsW mx j)))))
               (range (waveInGetNumDevs mx)))) /\
  (waveOutGetNumDevs mx <= 0 ->
   _get_playback_devices W mx = inr [("Default", WAVE_MAPPER)]) /\
  (waveInGetNumDevs mx <= 0 ->
   _get_recording_devices W mx = inr [("Default", WAVE_MAPPER, None)]).
Proof.
  split; [|split; [|split]].
  - intros Hok. unfold _get_playback_devices.
    rewrite playback_devices_from_ok by (intros j Hj; apply Hok; lia).
    by rewrite range_shift.
  - intros Hok. unfold _get_recording_devices.
    rewrite recording_devices_from_ok by (intros j Hj; apply Hok; lia).
    by rewrite range_shift.
  - intros Hn. unfold _get_playback_devices.
    by replace (Z.to_nat (waveOutGetNumDevs mx)) with 0%nat by lia.
  - intros Hn. unfold _get_recording_devices.
    by replace (Z.to_nat (waveInGetNumDevs mx)) with 0%nat by lia.
Qed.

Lemma playback_devices_from_fail (W : world) (mx : mixer) (n : nat) :
  forall (i j : Z) (devs : list (string * Z)),
  i <= j < i + Z.of_nat n ->
  (forall k, i <= k < j -> fst (waveOutGetDevCapsW mx k) = MMSYSERR_NOERROR) ->
  fst (waveOutGetDevCapsW mx j) <> MMSYSERR_NOERROR ->
  exists e,
    playback_devices_from W mx n i devs = inl e /\
    translated W (fst (waveOutGetDevCapsW mx j)) "get device capabilities"
      false e.
Proof.
  induction n as [|n IH]; intros i j devs Hj Hok Hbad; [lia|].
  cbn [playback_devices_from].
  destruct (Z.eq_dec i j) as [->|Hne].
  - destruct (waveOutGetDevCapsW mx j) as [r name]. cbn [fst] in *.
    destruct (check_mmresult_raises W r "get device capabilities" false Hbad)
      as (e & Hm & He).
    unfold check_mmr_out. rewrite Hm. eauto.
  - pose proof (Hok i ltac:(lia)) as Hi.
    destruct (waveOutGetDevCapsW mx i) as [r name]. cbn in Hi. subst r.
    unfold check_mmr_out. rewrite check_mmresult_noerror.
    apply IH; [lia| |done]. intros k Hk. apply Hok. lia.
Qed.

Lemma recording_devices_from_fail (W : world) (mx : mixer) (n : nat) :
  forall (i j : Z) (devs : list (string * Z * option Z)),
  i <= j < i + Z.of_nat n ->
  (forall k, i <= k < j -> fst (waveInGetDevCapsW mx k) = MMSYSERR_NOERROR) ->
  fst (waveInGetDevCapsW mx j) <> MMSYSERR_NOERROR ->
  exists e,
    recording_devices_from W mx n i devs = inl e /\
    translated W (fst (waveInGetDevCapsW mx j)) "get device capabilities"
      true e.
Proof.
  induction n as [|n IH]; intros i j devs Hj Hok Hbad; [lia|].
  cbn [recording_devices_from].
  destruct (Z.eq_dec i j) as [->|Hne].
  - destruct (waveInGetDevCapsW mx j) as [r [name ch]]. cbn [fst] in *.
    destruct (check_mmresult_raises W r "get device capabilities" true Hbad)
      as (e & Hm & He).
    unfold check_mmr_in. rewrite Hm. eauto.
  - pose proof (Hok i ltac:(lia)) as Hi.
    destruct (waveInGetDevCapsW mx i) as [r [name ch]]. cbn in Hi. subst r.
    unfold check_mmr_in. rewrite check_mmresult_noerror.
    apply IH; [lia| |done]. intros k Hk. apply Hok. lia.
Qed.

(** When the capability query fails for device [j] after it succeeded for
    all smaller ids, the enumeration returns no list at all, whatever the
    later devices would have answered: it raises what the translator
    raises for the result of that query, the [OSError] for
    "get device capabilities" with the subsystem's text when there is
    one, and [IndexError] when there is none. *)
Theorem enumeration_fails_at_first_error (W : world) (mx : mixer) (j : Z) :
  (0 <= j < waveOutGetNumDevs mx ->
   (forall k, 0 <= k < j ->
              fst (waveOutGetDevCapsW mx k) = MMSYSERR_NOERROR) ->
   fst (waveOutGetDevCapsW mx j) <> MMSYSERR_NOERROR ->
   exists e,
     _get_playback_devices W mx = inl e /\
     translated W (fst (waveOutGetDevCapsW mx j)) "get device capabilities"
       false e) /\
  (0 <= j < waveInGetNumDevs mx ->
   (forall k, 0 <= k < j ->
              fst (waveInGetDevCapsW mx k) = MMSYSERR_NOERROR) ->
   fst (waveInGetDevCapsW mx j) <> MMSYSERR_NOERROR ->
   exists e,
     _get_recording_devices W mx = inl e /\
     translated W (fst (waveInGetDevCapsW mx j)) "get device capabilities"
       true e).
Proof.
  split; intros Hj Hok Hbad.
  - apply playback_devices_from_fail with (j := j); [lia|done|done].
  - apply recording_devices_from_fail with (j := j); [lia|done|done].
Qed.

(** ** The translator when the subsystem has a text *)

(** The translator returns 0 for [MMSYSERR_NOERROR]; for any other code
    whose text lookup succeeds it raises the [OSError] that carries the
    cause, the subsystem's text and the code, whether or not the code is
    one of [ERROR_CODES]: the table is not consulted then. *)
Theorem check_mmresult_prefers_text (W : world) (r : Z) (cause : string)
    (for_in : bool) (text : string) :
  (if for_in then waveInGetErrorTextW W r else waveOutGetErrorTextW W r)
  = (0, text) ->
  check_mmresult W r cause for_in
  = if r =? MMSYSERR_NOERROR then inr 0 else inl (OSError cause text r).
Proof.
  intros Ht. unfold check_mmresult.
  destruct (r =? MMSYSERR_NOERROR); [done|]. by rewrite Ht.
Qed.

Lemma check_mmresult_prefers_text_witness :
  ERROR_CODES !! MMSYSERR_NOMEM = Some "MMSYSERR_NOMEM" /\
  check_mmresult talkative MMSYSERR_NOMEM "open audio device" false
  = inl (OSError "open audio device" "Not enough memory." MMSYSERR_NOMEM).
Proof.
  split; [reflexivity|].
  exact (check_mmresult_prefers_text talkative MMSYSERR_NOMEM
           "open audio device" false "Not enough memory." eq_refl).
Defined.

(** ** [close] *)

Lemma check_mmresult_ok (W : world) (r : Z) (cause : string) (for_in : bool) :
  r = MMSYSERR_NOERROR -> check_mmresult W r cause for_in = inr 0.
Proof. by intros ->. Qed.

(** [close] releases the event handle first and then resets the device,
    in every case.  When the reset fails, [close] raises what the
    translator raises for it and the device is never closed; when the
    reset succeeds, the device is closed, and [close] raises what the
    translator raises for that call when it fails.  It returns normally
    only when both calls return [MMSYSERR_NOERROR]. *)
Theorem close_stops_at_first_failure (W : world) (t : trace) :
  (let t0 := EvCloseHandle :: t in
   let r1 := mmresult W t0 waveOutReset in
   let t1 := EvCall waveOutReset r1 :: t0 in
   let r2 := mmresult W t1 waveOutClose in
   match PlaybackDevice.close W t with
   | (Done _, t') =>
       r1 = MMSYSERR_NOERROR /\ r2 = MMSYSERR_NOERROR /\
       t' = EvCall waveOutClose r2 :: t1
   | (Raised e, t') =>
       if r1 =? MMSYSERR_NOERROR
       then r2 <> MMSYSERR_NOERROR /\ t' = EvCall waveOutClose r2 :: t1 /\
            translated W r2 "close audio device" false e
       else t' = t1 /\ translated W r1 "reset audio device" false e
   | (OutOfFuel, _) => False
   end) /\
  (let t0 := EvCloseHandle :: t in
   let r1 := mmresult W t0 waveInReset in
   let t1 := EvCall waveInReset r1 :: t0 in
   let r2 := mmresult W t1 waveInClose in
   match RecordingDevice.close W t with
   | (Done _, t') =>
       r1 = MMSYSERR_NOERROR /\ r2 = MMSYSERR_NOERROR /\
       t' = EvCall waveInClose r2 :: t1
   | (Raised e, t') =>
       if r1 =? MMSYSERR_NOERROR
       then r2 <> MMSYSERR_NOERROR /\ t' = EvCall waveInClose r2 :: t1 /\
            translated W r2 "close audio device" true e
       else t' = t1 /\ translated W r1 "reset audio device" true e
   | (OutOfFuel, _) => False
   end).
Proof.
  split; intros t0 r1 t1 r2.
  - unfold PlaybackDevice.close, bind, close_handle, call, check_mmr_out.
    fold t0. fold r1. fold t1.
    destruct (Z.eqb_spec r1 MMSYSERR_NOERROR) as [E1|E1].
    + rewrite (check_mmresult_ok W r1 _ false E1). cbn [lift ret].
      fold r2.
      destruct (Z.eq_dec r2 MMSYSERR_NOERROR) as [E2|E2].
      * by rewrite (check_mmresult_ok W r2 _ false E2).
      * destruct (check_mmresult_raises W r2 "close audio device" false E2)
          as (e & -> & He).
        cbn. done.
    + destruct (check_mmresult_raises W r1 "reset audio device" false E1)
        as (e & -> & He).
      cbn. done.
  - unfold RecordingDevice.close, bind, close_handle, call, check_mmr_in.
    fold t0. fold r1. fold t1.
    destruct (Z.eqb_spec r1 MMSYSERR_NOERROR) as [E1|E1].
    + rewrite (check_mmresult_ok W r1 _ true E1). cbn [lift ret].
      fold r2.
      destruct (Z.eq_dec r2 MMSYSERR_NOERROR) as [E2|E2].
      * by rewrite (check_mmresult_ok W r2 _ true E2).
      * destruct (check_mmresult_raises W r2 "close audio device" true E2)
          as (e & -> & He).
        cbn. done.
    + destruct (check_mmresult_raises W r1 "reset audio device" true E1)
        as (e & -> & He).
      cbn. done.
Qed.

(** ** Rules for runs *)

Lemma run_ret {A} (P : trace -> Prop) (a : A) (Q : A -> trace -> Prop)
    (E : exn -> trace -> Prop) (F : trace -> Prop) :
  (forall t, P t -> Q a t) -> run P (ret a) Q E F.
Proof. intros H t Ht. by apply H. Qed.

Lemma run_raise {A} (P : trace -> Prop) (e : exn) (Q : A -> trace -> Prop)
    (E : exn -> trace -> Prop) (F : trace -> Prop) :
  (forall t, P t -> E e t) -> run P (raise e) Q E F.
Proof. intros H t Ht. by apply H. Qed.

Lemma run_out_of_fuel {A} (P : trace -> Prop) (Q : A -> trace -> Prop)
    (E : exn -> trace -> Prop) (F : trace -> Prop) :
  (forall t, P t -> F t) -> run P out_of_fuel Q E F.
Proof. intros H t Ht. by apply H. Qed.

Lemma run_bind {A B} (P : trace -> Prop) (m : M A) (k : A -> M B)
    (Q : A -> trace -> Prop) (R : B -> trace -> Prop)
    (E : exn -> trace -> Prop) (F : trace -> Prop) :
  run P m Q E F ->
  (forall a, run (Q a) (k a) R E F) ->
  run P (bind m k) R E F.
Proof.
  intros Hm Hk t Ht. unfold bind. specialize (Hm t Ht).
  destruct (m t) as [[a|e|] t1]; [|done|done].
  by apply Hk.
Qed.

Lemma run_weaken {A} (P P' : trace -> Prop) (m : M A)
    (Q Q' : A -> trace -> Prop) (E E' : exn -> trace -> Prop)
    (F F' : trace -> Prop) :
  run P' m Q' E' F' ->
  (forall t, P t -> P' t) ->
  (forall a t, Q' a t -> Q a t) ->
  (forall e t, E' e t -> E e t) ->
  (forall t, F' t -> F t) ->
  run P m Q E F.
Proof.
  intros Hm HP HQ HE HF t Ht. specialize (Hm t (HP t Ht)).
  destruct (m t) as [[a|e|] t1]; auto.
Qed.

Lemma run_pure {A} (phi : Prop) (P : trace -> Prop) (m : M A)
    (Q : A -> trace -> Prop) (E : exn -> trace -> Prop) (F : trace -> Prop) :
  (phi -> run P m Q E F) -> run (fun t => phi /\ P t) m Q E F.
Proof. intros H t [Hphi Ht]. by apply H. Qed.

Lemma run_try_finally {A} (P : trace -> Prop) (body : M A)
    (fin : bool -> M unit) (Q R : A -> trace -> Prop)
    (E1 E : exn -> trace -> Prop) (F : trace -> Prop) :
  run P body Q E1 F ->
  (forall a, run (Q a) (fin true) (fun _ => R a) E F) ->
  (forall e, run (E1 e) (fin false) (fun _ => E e) E F) ->
  run P (try_finally body fin) R E F.
Proof.
  intros Hb Ht Hf t HP. unfold try_finally. specialize (Hb t HP).
  destruct (body t) as [[a|e|] t1].
  - specialize (Ht a t1 Hb). by destruct (fin true t1) as [[u|e|] t2].
  - specialize (Hf e t1 Hb). by destruct (fin false t1) as [[u|e'|] t2].
  - done.
Qed.

(** A call whose result goes through the translator, and what follows. *)
Lemma run_checked_then {B} (W : world) (c : devcall) (cause : string)
    (for_in : bool) (k : M B) (P Q : trace -> Prop) (R : B -> trace -> Prop)
    (E : exn -> trace -> Prop) (F : trace -> Prop) :
  (forall t, P t -> Q (EvCall c MMSYSERR_NOERROR :: t)) ->
  (forall t r e, P t -> r <> MMSYSERR_NOERROR ->
                 translated W r cause for_in e -> E e (EvCall c r :: t)) ->
  run Q k R E F ->
  run P (let* r := call W c in
         let* _ := lift (check_mmresult W r cause for_in) in k) R E F.
Proof.
  intros Hq He Hk t Ht. unfold bind, call.
  destruct (Z.eq_dec (mmresult W t c) MMSYSERR_NOERROR) as [Hr|Hr].
  - rewrite Hr, check_mmresult_noerror. cbn. apply Hk. by apply Hq.
  - destruct (check_mmresult_raises W _ cause for_in Hr) as (e & -> & Hos).
    cbn. by apply He.
Qed.

Lemma run_checked (W : world) (c : devcall) (cause : string)
    (for_in : bool) (P : trace -> Prop) (Q : Z -> trace -> Prop)
    (E : exn -> trace -> Prop) (F : trace -> Prop) :
  (forall t, P t -> Q 0 (EvCall c MMSYSERR_NOERROR :: t)) ->
  (forall t r e, P t -> r <> MMSYSERR_NOERROR ->
                 translated W r cause for_in e -> E e (EvCall c r :: t)) ->
  run P (let* r := call W c in lift (check_mmresult W r cause for_in)) Q E F.
Proof.
  intros Hq He t Ht. unfold bind, call.
  destruct (Z.eq_dec (mmresult W t c) MMSYSERR_NOERROR) as [Hr|Hr].
  - rewrite Hr, check_mmresult_noerror. cbn. by apply Hq.
  - destruct (check_mmresult_raises W _ cause for_in Hr) as (e & -> & Hos).
    cbn. by apply He.
Qed.

Lemma run_wait (W : world) (wfuel : nat) (w : slot) (A : trace -> Prop)
    (E : exn -> trace -> Prop) (F : trace -> Prop) :
  wait_stable A -> (forall t, A t -> F t) ->
  run A (wait_done W wfuel w) (fun _ => A) E F.
Proof.
  intros Hs HF t Ht.
  destruct (wait_done_log W wfuel w t) as (l & o & -> & Hl).
  destruct o as [[]|e|]; [|done|].
  - apply Hs; [|done]. by apply Forall_rev, (wait_ended_waits w).
  - apply HF, Hs; [|done]. destruct Hl as [Hl _].
    by apply Forall_rev, (wait_going_waits w).
Qed.

(** ** Headers at every moment *)

Lemma slot_eqb_refl (w : slot) : slot_eqb w w = true.
Proof. by destruct w. Qed.

Lemma slot_eqb_other (w : slot) : slot_eqb w (other w) = false.
Proof. by destruct w. Qed.

Lemma slot_eqb_other' (w : slot) : slot_eqb (other w) w = false.
Proof. by destruct w. Qed.

Lemma store_at_other (p : slot) (h : WAVEHDR) (hs : headers) :
  store (other p) h hs p = hs p.
Proof. unfold store. by destruct p. Qed.

Lemma store_at (p : slot) (h : WAVEHDR) (hs : headers) :
  store p h hs p = h.
Proof. unfold store. by destruct p. Qed.

Lemma other_twice (p : slot) : other (other p) = p.
Proof. by destruct p. Qed.

Lemma hstate_of_effect (w w' : slot) (s : hstate) (e : event) (t : trace) :
  header_effect e = Some (w', s) ->
  hstate_of w (e :: t) = if slot_eqb w' w then s else hstate_of w t.
Proof. intros H. cbn. by rewrite H. Qed.

Lemma hstate_of_no_effect (w : slot) (e : event) (t : trace) :
  header_effect e = None -> hstate_of w (e :: t) = hstate_of w t.
Proof. intros H. cbn. by rewrite H. Qed.

Lemma header_effect_failed (c : devcall) (r : Z) :
  r <> MMSYSERR_NOERROR -> header_effect (EvCall c r) = None.
Proof.
  intros Hr. destruct c; cbn; try done;
    by destruct (Z.eqb_spec r MMSYSERR_NOERROR).
Qed.

Lemma submitted_failed (c : devcall) (r : Z) :
  r <> MMSYSERR_NOERROR -> submitted (EvCall c r) = None.
Proof.
  intros Hr. destruct c; cbn; try done;
    by destruct (Z.eqb_spec r MMSYSERR_NOERROR).
Qed.

Lemma released_failed (c : devcall) (r : Z) :
  r <> MMSYSERR_NOERROR -> released (EvCall c r) = None.
Proof.
  intros Hr. destruct c; cbn; try done;
    by destruct (Z.eqb_spec r MMSYSERR_NOERROR).
Qed.

Lemma header_effect_wait (e : event) :
  is_wait e = true -> header_effect e = None.
Proof. by destruct e. Qed.

Lemma header_need_wait (e : event) :
  is_wait e = true -> header_need e = None.
Proof. by destruct e. Qed.

Lemma hstate_of_waits (w : slot) (l t : trace) :
  Forall (fun e => is_wait e = true) l -> hstate_of w (l ++ t) = hstate_of w t.
Proof.
  induction 1 as [|e l He _ IH]; [done|].
  cbn [app]. by rewrite hstate_of_no_effect by by apply header_effect_wait.
Qed.

Lemma fifo_quiet (e : event) (t : trace) :
  submitted e = None -> released e = None -> fifo t -> fifo (e :: t).
Proof.
  intros Hs Hr (rest & Heq & Hlen). exists rest.
  rewrite submissions_cons, releases_cons, Hs, Hr. cbn.
  by rewrite !app_nil_r.
Qed.

Lemma fifo_from (t : trace) (rest : list (slot * WAVEHDR)) :
  submissions t = releases t ++ rest -> (length rest <= 2)%nat -> fifo t.
Proof. intros H1 H2. by exists rest. Qed.

Lemma engine_inv_nil : engine_inv [].
Proof.
  apply at_every_moment_nil. split; [|done]. exists []. by split; [|cbn; lia].
Qed.

Lemma engine_inv_call (e : event) (t : trace) :
  engine_inv t -> fifo (e :: t) -> legal (e :: t) -> engine_inv (e :: t).
Proof. intros Ht Hf Hl. by apply at_every_moment_cons. Qed.

Lemma engine_inv_quiet (e : event) (t : trace) :
  engine_inv t -> submitted e = None -> released e = None ->
  header_need e = None -> engine_inv (e :: t).
Proof.
  intros Ht Hs Hr Hn. apply engine_inv_call; [done| |].
  - apply fifo_quiet; [done|done|]. by apply (at_every_moment_now _ _ Ht).
  - cbn. by rewrite Hn.
Qed.

(** A call that failed changes nothing; it must still be legal. *)
Lemma engine_inv_failed (c : devcall) (r : Z) (t : trace) :
  engine_inv t -> r <> MMSYSERR_NOERROR -> legal (EvCall c r :: t) ->
  engine_inv (EvCall c r :: t).
Proof.
  intros Ht Hr Hl. apply engine_inv_call; [done| |done].
  apply fifo_quiet; [by apply submitted_failed|by apply released_failed|].
  by apply (at_every_moment_now _ _ Ht).
Qed.

Lemma engine_inv_waits : wait_stable engine_inv.
Proof.
  intros l t Hl Ht. induction Hl as [|e l He Hl IH]; [done|].
  cbn [app]. apply engine_inv_quiet; [done| | |].
  - by apply submitted_wait.
  - by apply released_wait.
  - by apply header_need_wait.
Qed.

Lemma In_waits (e : event) (l t : trace) : In e t -> In e (l ++ t).
Proof. intros H. apply in_or_app. by right. Qed.

(** Reads the state of the headers off a log that ends in known events. *)
Ltac read_state :=
  repeat first
    [ rewrite hstate_of_waits by assumption
    | rewrite hstate_of_no_effect by
        (first [reflexivity | by apply header_effect_failed])
    | erewrite hstate_of_effect by (cbn; rewrite ?Z.eqb_refl; reflexivity) ];
  rewrite ?slot_eqb_refl, ?slot_eqb_other, ?slot_eqb_other'.

Lemma is_stop_wait (e : event) : is_wait e = true -> is_stop e = false.
Proof. by destruct e. Qed.

Lemma is_started_wait (e : event) : is_wait e = true -> is_started e = false.
Proof. by destruct e. Qed.

Lemma count_stop_waits (l t : trace) :
  Forall (fun e => is_wait e = true) l ->
  count is_stop (l ++ t) = count is_stop t.
Proof. intros Hl. by rewrite count_app, (count_waits _ l is_stop_wait Hl). Qed.

Lemma count_started_waits (l t : trace) :
  Forall (fun e => is_wait e = true) l ->
  count is_started (l ++ t) = count is_started t.
Proof.
  intros Hl. by rewrite count_app, (count_waits _ l is_started_wait Hl).
Qed.

Lemma is_reset_wait (e : event) : is_wait e = true -> is_reset e = false.
Proof. by destruct e. Qed.

Lemma is_failed_reset_wait (e : event) :
  is_wait e = true -> is_failed_reset e = false.
Proof. by destruct e. Qed.

Lemma count_reset_waits (l t : trace) :
  Forall (fun e => is_wait e = true) l ->
  count is_reset (l ++ t) = count is_reset t.
Proof. intros Hl. by rewrite count_app, (count_waits _ l is_reset_wait Hl). Qed.

Lemma count_failed_reset_waits (l t : trace) :
  Forall (fun e => is_wait e = true) l ->
  count is_failed_reset (l ++ t) = count is_failed_reset t.
Proof.
  intros Hl. by rewrite count_app, (count_waits _ l is_failed_reset_wait Hl).
Qed.

Lemma no_failed_reset (t : trace) :
  count is_reset t = 0%nat -> count is_failed_reset t = 0%nat.
Proof.
  induction t as [|e t IH]; [done|]. rewrite !count_cons.
  destruct e as [c r| | | | |]; cbn; try done.
  destruct c; cbn; try done.
Qed.

(** *** Failures and errors in a log *)

Lemma failure_wait (e : event) : is_wait e = true -> failure e = None.
Proof. by destruct e. Qed.

Lemma callback_wait (e : event) : is_wait e = true -> callback e = None.
Proof. by destruct e. Qed.

Lemma last_failure_waits (l t : trace) :
  Forall (fun e => is_wait e = true) l ->
  last_failure (l ++ t) = last_failure t.
Proof.
  induction 1 as [|e l He _ IH]; [done|].
  cbn. by rewrite (failure_wait e He).
Qed.

Lemma callback_raised_waits (l t : trace) :
  Forall (fun e => is_wait e = true) l ->
  callback_raised (l ++ t) = callback_raised t.
Proof.
  induction 1 as [|e l He _ IH]; [done|].
  cbn. by rewrite (callback_wait e He).
Qed.

Lemma failure_failed (c : devcall) (r : Z) :
  r <> MMSYSERR_NOERROR -> failure (EvCall c r) = Some (c, r).
Proof. intros Hr. cbn. by destruct (Z.eqb_spec r MMSYSERR_NOERROR). Qed.

(** After a call that failed, the error is the translator's for it. *)
Lemma error_rule_failed (W : world) (c : devcall) (r : Z) (e : exn)
    (t : trace) :
  r <> MMSYSERR_NOERROR ->
  translated W r (cause_of c) (for_in_of c) e ->
  error_rule W e (EvCall c r :: t).
Proof.
  intros Hr He. unfold error_rule. cbn [last_failure].
  by rewrite failure_failed.
Qed.

(** An event that is neither a failed call nor an invocation of a
    callback leaves the error as it is. *)
Lemma error_rule_later (W : world) (e : exn) (ev : event) (t : trace) :
  error_rule W e t -> failure ev = None -> callback ev = None ->
  error_rule W e (ev :: t).
Proof.
  unfold error_rule. intros H Hf Hc. cbn [last_failure callback_raised].
  by rewrite Hf, Hc.
Qed.

(** When nothing had gone wrong, the error of a callback that raises is
    the error of the run. *)
Lemma error_rule_raised (W : world) (e : exn) (ev : event) (t : trace) :
  quiet t -> failure ev = None -> callback ev = Some (Some e) ->
  error_rule W e (ev :: t).
Proof.
  intros (_ & Hf & _) Hn Hc. unfold error_rule.
  cbn [last_failure callback_raised]. by rewrite Hn, Hf, Hc.
Qed.

Lemma error_rule_quiet (W : world) (e : exn) (t : trace) :
  quiet t -> ~ error_rule W e t.
Proof. intros (_ & Hf & Hc). unfold error_rule. by rewrite Hf, Hc. Qed.

Lemma one_left_later (ev : event) (t : trace) :
  one_left t -> submitted ev = None -> released ev = None ->
  one_left (ev :: t).
Proof.
  intros [x Hx] Hs Hr. exists x.
  rewrite submissions_cons, releases_cons, Hs, Hr. cbn.
  by rewrite !app_nil_r.
Qed.

Lemma outstanding_one_left (t : trace) : one_left t -> outstanding t = 1.
Proof.
  intros [x Hx]. unfold outstanding. rewrite Hx, length_app. cbn. lia.
Qed.

(** Like [read_log], with the counts of starts, stops and resets, the
    newest failure and the newest error of a callback. *)
Ltac read_calls :=
  unfold quiet;
  rewrite ?count_stop_waits, ?count_started_waits, ?count_reset_waits,
    ?count_failed_reset_waits, ?last_failure_waits, ?callback_raised_waits
    by assumption;
  read_log;
  cbn [is_stop is_started is_reset is_failed_reset Nat.add
       last_failure failure callback_raised callback raised];
  rewrite ?Z.eqb_refl;
  cbn [negb Nat.add last_failure failure callback_raised callback raised].

(** No reset has been made, and the newest event is none. *)
Ltac no_resets :=
  left; rewrite ?count_cons; cbn [is_failed_reset Nat.add];
  by apply no_failed_reset.

Lemma play_top_stable (cur : slot) (hs : headers) : wait_stable (play_top cur hs).
Proof.
  intros l t Hl (Hi & Hs & H1 & H2 & Hc & Hz & Hf & Hb).
  split; [by apply engine_inv_waits|]. read_calls. read_state. done.
Qed.

Lemma play_got_stable (cur : slot) (hs : headers) : wait_stable (play_got cur hs).
Proof.
  intros l t Hl (Hi & Hs & H1 & H2 & Hc & Hz & Hf & Hb).
  split; [by apply engine_inv_waits|]. read_calls. read_state. done.
Qed.

Lemma play_both_stable (cur : slot) (hs : headers) (h : WAVEHDR) :
  wait_stable (play_both cur hs h).
Proof.
  intros l t Hl (Hi & Hs & H1 & H2 & Hc & Hz & Hf & Hb).
  split; [by apply engine_inv_waits|]. read_calls. read_state. done.
Qed.

(** ** Every run of [play] *)

Section PlayRuns.
Variable W : world.
Variable wfuel : nat.
Variable get_data : nat -> cbres (option (list Byte.byte)).

Lemma spec_get_data (cur : slot) (hs : headers) :
  run (play_top cur hs) (call_get_data get_data)
    (fun _ => play_got cur hs) (producer_raised cur hs) engine_inv.
Proof.
  intros t Htop. unfold call_get_data.
  destruct (get_data (count is_get_data t)) as [d|e]; cbn [of_cbres].
  - destruct Htop as (Hi & Hs & H1 & H2 & Hc & Hz & Hf & Hb).
    split; [by apply engine_inv_quiet|]. read_calls. read_state.
    rewrite Hc. done.
  - by exists t.
Qed.

Lemma spec_out_cleanup (cur : slot) (hs : headers) (e : exn) :
  run (producer_raised cur hs e)
    (let* r := call W waveOutReset in
     let* _ := lift (check_mmr_out W r "reset audio device") in
     hdr_out_unprepare W cur (hs cur))
    (fun _ => play_fail W e) (play_fail W) engine_inv.
Proof.
  set (mid := fun t =>
    engine_inv t /\ submissions t = releases t ++ [(cur, hs cur)] /\
    hstate_of cur t = Submitted /\ error_rule W e t /\
    count is_failed_reset t = 0%nat).
  assert (Hraised : forall t0, play_top cur hs t0 ->
            engine_inv (EvGetData (CbRaise e) :: t0) /\
            error_rule W e (EvGetData (CbRaise e) :: t0)).
  { intros t0 (Hi & Hs & H1 & H2 & Hc & Hz & Hf & Hb).
    split; [by apply engine_inv_quiet|]. by apply error_rule_raised. }
  apply run_checked_then with (Q := mid).
  - intros t (t0 & -> & Htop). destruct (Hraised t0 Htop) as [Hi' He].
    destruct Htop as (Hi & Hs & H1 & H2 & Hc & Hz & Hf & Hb).
    split; [by apply engine_inv_quiet|]. read_calls. read_state.
    split; [done|]. split; [done|]. split; [by apply error_rule_later|].
    by apply no_failed_reset.
  - intros t r e' (t0 & -> & Htop) Hr He'.
    destruct (Hraised t0 Htop) as [Hi' He].
    destruct Htop as (Hi & Hs & H1 & H2 & Hc & Hz & Hf & Hb).
    split; [by apply engine_inv_quiet|].
    split; [by apply error_rule_failed|].
    right. exists r, (EvGetData (CbRaise e) :: t0).
    split; [done|]. split; [done|]. exists (cur, hs cur). by read_log.
  - unfold hdr_out_unprepare.
    apply run_checked_then with (Q := play_fail W e).
    + intros t (Hi & Hs & H1 & He & Hz).
      split; [|split; [by apply error_rule_later|left; by read_calls]].
      apply engine_inv_call; [done| |done].
      apply fifo_from with (rest := []); [|cbn; lia].
      read_log. rewrite Hs, ?app_nil_r, <- ?app_assoc. done.
    + intros t r e' (Hi & Hs & H1 & He & Hz) Hr He'.
      split; [by apply engine_inv_failed|].
      split; [by apply error_rule_failed|left; by read_calls].
    + by apply run_ret.
Qed.

Lemma spec_out_prepare_write (cur : slot) (hs : headers) (h : WAVEHDR) :
  run (play_got cur hs) (hdr_out_prepare_write W (other cur) h)
    (fun _ => play_both cur hs h) (play_fail W) engine_inv.
Proof.
  unfold hdr_out_prepare_write.
  apply run_checked_then with
    (Q := fun t' => exists t, play_got cur hs t /\
                      t' = EvCall (waveOutPrepareHeader (other cur) h)
                             MMSYSERR_NOERROR :: t).
  { eauto. }
  { intros t r e (Hi & Hs & H1 & H2 & Hc & Hz & Hf & Hb) Hr He.
    split; [by apply engine_inv_failed|].
    split; [by apply error_rule_failed|]. no_resets. }
  apply run_checked_then with (Q := play_both cur hs h).
  - intros t' (t & (Hi & Hs & H1 & H2 & Hc & Hz & Hf & Hb) & ->).
    assert (Hp : engine_inv (EvCall (waveOutPrepareHeader (other cur) h)
                               MMSYSERR_NOERROR :: t)).
    { apply engine_inv_call; [done| |done].
      apply fifo_quiet; [done|done|]. by apply (at_every_moment_now _ _ Hi). }
    split.
    + apply engine_inv_call; [done| |].
      * apply fifo_from with (rest := [(cur, hs cur); (other cur, h)]);
          [|cbn; lia].
        read_log. rewrite Hs, ?app_nil_r, <- ?app_assoc. done.
      * cbn [legal header_need]. by read_state.
    + read_calls. read_state. rewrite Hs, <- app_assoc. cbn [app].
      split; [done|]. split; [done|]. split; [done|]. split; [|done].
      rewrite Hc, Hs, !length_app. cbn. lia.
  - intros t' r e (t & (Hi & Hs & H1 & H2 & Hc & Hz & Hf & Hb) & ->) Hr He.
    split; [|split; [by apply error_rule_failed|]].
    + apply engine_inv_failed; [|done|].
      * apply engine_inv_call; [done| |done].
        apply fifo_quiet; [done|done|]. by apply (at_every_moment_now _ _ Hi).
      * cbn [legal header_need]. by read_state.
    + left. read_calls. by apply no_failed_reset.
  - by apply run_ret.
Qed.

Lemma spec_out_unprepare_both (cur : slot) (hs hs' : headers) (h : WAVEHDR) :
  hs' (other cur) = h ->
  run (play_both cur hs h) (hdr_out_unprepare W cur (hs cur))
    (fun _ => play_top (other cur) hs') (play_fail W) engine_inv.
Proof.
  intros Hh. unfold hdr_out_unprepare.
  apply run_checked_then with (Q := play_top (other cur) hs').
  - intros t (Hi & Hs & H1 & H2 & Hc & Hz & Hf & Hb).
    split.
    + apply engine_inv_call; [done| |done].
      apply fifo_from with (rest := [(other cur, h)]); [|cbn; lia].
      read_log. rewrite Hs, ?app_nil_r, <- ?app_assoc. done.
    + read_calls. read_state. rewrite other_twice. read_state.
      rewrite Hs, Hh, <- app_assoc. cbn [app Nat.add]. by rewrite Hc, Hs.
  - intros t r e (Hi & Hs & H1 & H2 & Hc & Hz & Hf & Hb) Hr He.
    split; [by apply engine_inv_failed|].
    split; [by apply error_rule_failed|]. no_resets.
  - by apply run_ret.
Qed.

Lemma spec_out_unprepare_last (cur : slot) (hs : headers) :
  run (play_got cur hs) (hdr_out_unprepare W cur (hs cur))
    (fun _ => play_done) (play_fail W) engine_inv.
Proof.
  unfold hdr_out_unprepare.
  apply run_checked_then with (Q := play_done).
  - intros t (Hi & Hs & H1 & H2 & Hc & Hz & Hf & Hb).
    split.
    + apply engine_inv_call; [done| |done].
      apply fifo_from with (rest := []); [|cbn; lia].
      read_log. rewrite Hs, ?app_nil_r, <- ?app_assoc. done.
    + read_calls. by rewrite Hc.
  - intros t r e (Hi & Hs & H1 & H2 & Hc & Hz & Hf & Hb) Hr He.
    split; [by apply engine_inv_failed|].
    split; [by apply error_rule_failed|]. no_resets.
  - by apply run_ret.
Qed.

Lemma spec_play_loop (fuel : nat) :
  forall (cur : slot) (hs : headers),
  run (play_top cur hs)
    (PlaybackDevice.play_loop W wfuel get_data fuel (other cur) cur hs)
    (fun _ => play_done) (play_fail W) engine_inv.
Proof.
  induction fuel as [|fuel IH]; intros cur hs.
  - apply run_out_of_fuel. by intros t [Hi _].
  - cbn [PlaybackDevice.play_loop].
    apply run_bind with (Q := fun _ => play_got cur hs).
    + apply run_try_finally with
        (Q := fun _ => play_got cur hs) (E1 := producer_raised cur hs).
      * apply spec_get_data.
      * intros d. by apply run_ret.
      * intros e. apply spec_out_cleanup.
    + intros d. destruct (truthy d).
      * set (hs' := store (other cur) (hdr_of_bytes d) hs).
        apply run_bind with
          (Q := fun p t => p = (false, hs') /\
                           play_both cur hs (hdr_of_bytes d) t).
        { apply run_bind with (Q := fun _ => play_both cur hs (hdr_of_bytes d)).
          - subst hs'. rewrite store_at. apply spec_out_prepare_write.
          - intros _. by apply run_ret. }
        intros [exit hs2]. apply run_pure. intros [= -> ->].
        apply run_bind with (Q := fun _ => play_both cur hs (hdr_of_bytes d)).
        { apply run_wait; [apply play_both_stable|by intros t [Hi _]]. }
        intros _.
        apply run_bind with (Q := fun _ => play_top (other cur) hs').
        { subst hs'. rewrite store_at_other.
          apply spec_out_unprepare_both. apply store_at. }
        intros _. specialize (IH (other cur) hs').
        by rewrite other_twice in IH.
      * apply run_bind with
          (Q := fun p t => p = (true, hs) /\ play_got cur hs t).
        { by apply run_ret. }
        intros [exit hs2]. apply run_pure. intros [= -> ->].
        apply run_bind with (Q := fun _ => play_got cur hs).
        { apply run_wait; [apply play_got_stable|by intros t [Hi _]]. }
        intros _.
        apply run_bind with (Q := fun _ => play_done).
        { apply spec_out_unprepare_last. }
        intros _. by apply run_ret.
Qed.

Lemma spec_out_prepare_write_first (hs : headers)
    (d : option (list Byte.byte)) :
  run (fun t => t = [EvGetData (CbRet d)])
    (hdr_out_prepare_write W hdr2 (hs hdr2))
    (fun _ => play_top hdr2 hs) (play_fail W) engine_inv.
Proof.
  assert (H0 : engine_inv [EvGetData (CbRet d)]).
  { apply engine_inv_quiet; try done. apply engine_inv_nil. }
  unfold hdr_out_prepare_write.
  apply run_checked_then with
    (Q := fun t => t = [EvCall (waveOutPrepareHeader hdr2 (hs hdr2))
                          MMSYSERR_NOERROR; EvGetData (CbRet d)]).
  { by intros t ->. }
  { intros t r e -> Hr He.
    split; [by apply engine_inv_failed|].
    split; [by apply error_rule_failed|by left]. }
  assert (H1 : engine_inv [EvCall (waveOutPrepareHeader hdr2 (hs hdr2))
                             MMSYSERR_NOERROR; EvGetData (CbRet d)]).
  { apply engine_inv_call; [done| |done].
    apply fifo_quiet; [done|done|]. by apply (at_every_moment_now _ _ H0). }
  apply run_checked_then with (Q := play_top hdr2 hs).
  - intros t ->. split; [|done].
    apply engine_inv_call; [done| |done].
    apply fifo_from with (rest := [(hdr2, hs hdr2)]); [done|cbn; lia].
  - intros t r e -> Hr He.
    split; [by apply engine_inv_failed|].
    split; [by apply error_rule_failed|by left].
  - by apply run_ret.
Qed.

Lemma spec_play (fuel : nat) :
  run (fun t => t = []) (PlaybackDevice.play W wfuel get_data fuel)
    (fun _ => play_done) (play_fail W) engine_inv.
Proof.
  unfold PlaybackDevice.play.
  apply run_bind with (Q := fun d t => t = [EvGetData (CbRet d)]).
  - intros t ->. unfold call_get_data. cbn.
    destruct (get_data 0%nat) as [d|e]; cbn; [done|].
    split; [|split; [done|by left]].
    apply engine_inv_quiet; try done. apply engine_inv_nil.
  - intros d. destruct (truthy d); cbn [negb].
    + set (hs := store hdr2 (hdr_of_bytes d) (fun _ => ZeroMemory)).
      apply run_bind with (Q := fun _ => play_top hdr2 hs).
      * apply spec_out_prepare_write_first.
      * intros _. apply (spec_play_loop fuel hdr2 hs).
    + apply run_ret. intros t ->. split; [|done].
      apply engine_inv_quiet; try done. apply engine_inv_nil.
Qed.
End PlayRuns.

(** At every moment of every run of [play], whatever the subsystem and
    the producer do, the buffers released are the first of the buffers
    submitted, in the same order and with the same header contents, at
    most two submitted buffers are not yet released, and every call on a
    header finds it in the state the call expects: idle for a prepare,
    prepared for [waveOutWrite], submitted for an unprepare.  No header is
    prepared twice or written twice without an unprepare in between. *)
Theorem play_headers_in_order (W : world) (wfuel : nat)
    (get_data : nat -> cbres (option (list Byte.byte))) (fuel : nat) :
  at_every_moment (fun now => fifo now /\ legal now)
    (snd (PlaybackDevice.play W wfuel get_data fuel [])).
Proof.
  pose proof (spec_play W wfuel get_data fuel [] eq_refl) as H.
  destruct (PlaybackDevice.play W wfuel get_data fuel []) as [[u|e|] t];
    cbn [snd]; [by destruct H|by destruct H|done].
Qed.

(** Whenever [play] returns normally, whatever the subsystem did, every
    buffer it submitted has been released, in submission order, none is
    left with the device, and the producer was called exactly once more
    than buffers were submitted. *)
Theorem play_returns_released (W : world) (wfuel : nat)
    (get_data : nat -> cbres (option (list Byte.byte))) (fuel : nat) :
  match PlaybackDevice.play W wfuel get_data fuel [] with
  | (Done _, t) =>
      releases t = submissions t /\
      outstanding t = 0 /\
      count is_get_data t = S (length (submissions t))
  | _ => True
  end.
Proof.
  pose proof (spec_play W wfuel get_data fuel [] eq_refl) as H.
  destruct (PlaybackDevice.play W wfuel get_data fuel []) as [[u|e|] t];
    [|done|done].
  destruct H as (_ & Hr & Hc & _). unfold outstanding. rewrite Hr.
  split; [done|]. split; [lia|done].
Qed.

(** [play] returns normally only when no call to the subsystem failed and
    the producer did not raise.  Whenever it raises, the error is what
    the translator raises for the newest call that failed, with the cause
    that the module names for that call; when no call failed, it is the
    error that the producer raised at its newest invocation.  [play]
    raises nothing of its own and swallows no error. *)
Theorem play_errors_origin (W : world) (wfuel : nat)
    (get_data : nat -> cbres (option (list Byte.byte))) (fuel : nat) :
  match PlaybackDevice.play W wfuel get_data fuel [] with
  | (Done _, t) => last_failure t = None /\ callback_raised t = None
  | (Raised e, t) =>
      match last_failure t with
      | Some (c, r) => translated W r (cause_of c) (for_in_of c) e
      | None => callback_raised t = Some e
      end
  | (OutOfFuel, _) => True
  end.
Proof.
  pose proof (spec_play W wfuel get_data fuel [] eq_refl) as H.
  destruct (PlaybackDevice.play W wfuel get_data fuel []) as [[u|e|] t];
    [| |done].
  - by destruct H as (_ & _ & _ & _ & H).
  - by destruct H as (_ & H & _).
Qed.

(** [play] makes no reset when it returns normally.  When the reset that
    follows an error of the producer fails, that reset is the last thing
    [play] does: it raises what the translator raises for the reset, not
    the producer's error, and the buffer in flight is never unprepared,
    so that one submitted buffer is left with the device. *)
Theorem play_failed_reset (W : world) (wfuel : nat)
    (get_data : nat -> cbres (option (list Byte.byte))) (fuel : nat) :
  match PlaybackDevice.play W wfuel get_data fuel [] with
  | (Done _, t) => count is_reset t = 0%nat
  | (Raised e, t) =>
      count is_failed_reset t = 0%nat \/
      exists r t',
        t = EvCall waveOutReset r :: t' /\ r <> MMSYSERR_NOERROR /\
        translated W r "reset audio device" false e /\
        outstanding t = 1
  | (OutOfFuel, _) => True
  end.
Proof.
  pose proof (spec_play W wfuel get_data fuel [] eq_refl) as H.
  destruct (PlaybackDevice.play W wfuel get_data fuel []) as [[u|e|] t];
    [| |done].
  - by destruct H as (_ & _ & _ & H & _).
  - destruct H as (_ & He & [H|(r & t' & -> & Hr & Hx)]); [by left|right].
    exists r, t'. split; [done|]. split; [done|].
    split; [|by apply outstanding_one_left].
    unfold error_rule in He. cbn [last_failure] in He.
    by rewrite failure_failed in He.
Qed.

(** ** Every run of [record] *)

Lemma rec_both_stable (cur : slot) (hs : headers) : wait_stable (rec_both cur hs).
Proof.
  intros l t Hl (Hi & Hs & H1 & H2 & Hc & Hp & Hb & Hz & Hf & Hr).
  split; [by apply engine_inv_waits|]. read_calls. read_state. done.
Qed.

Section RecordRuns.
Variable W : world.
Variable wfuel : nat.
Variable on_chunk : nat -> cbres bool.
Variable hs : headers.

Lemma spec_in_prepare_add (cur : slot) :
  run (rec_top cur hs) (hdr_in_prepare_add W (other cur) (hs (other cur)))
    (fun _ => rec_both cur hs) (rec_fail W) engine_inv.
Proof.
  unfold hdr_in_prepare_add.
  apply run_checked_then with
    (Q := fun t' => exists t, rec_top cur hs t /\
                      t' = EvCall (waveInPrepareHeader (other cur)
                                     (hs (other cur))) MMSYSERR_NOERROR :: t).
  { eauto. }
  { intros t r e (Hi & Hs & H1 & H2 & Hc & Hp & Hb & Hz & Hf & Hr) Hne He.
    split; [by apply engine_inv_failed|].
    split; [by apply error_rule_failed|].
    split; [by read_calls|]. split; [by read_calls|]. no_resets. }
  apply run_checked_then with (Q := rec_both cur hs).
  - intros t' (t & (Hi & Hs & H1 & H2 & Hc & Hp & Hb & Hz & Hf & Hr) & ->).
    assert (Hq : engine_inv (EvCall (waveInPrepareHeader (other cur)
                                       (hs (other cur))) MMSYSERR_NOERROR :: t)).
    { apply engine_inv_call; [done| |done].
      apply fifo_quiet; [done|done|]. by apply (at_every_moment_now _ _ Hi). }
    split.
    + apply engine_inv_call; [done| |].
      * apply fifo_from with
          (rest := [(cur, hs cur); (other cur, hs (other cur))]); [|cbn; lia].
        read_log. rewrite Hs, ?app_nil_r, <- ?app_assoc. done.
      * cbn [legal header_need]. by read_state.
    + read_calls. read_state. rewrite Hs, <- app_assoc. cbn [app]. done.
  - intros t' r e (t & (Hi & Hs & H1 & H2 & Hc & Hp & Hb & Hz & Hf & Hr) & ->)
      Hne He.
    split; [|split; [by apply error_rule_failed|]].
    + apply engine_inv_failed; [|done|].
      * apply engine_inv_call; [done| |done].
        apply fifo_quiet; [done|done|]. by apply (at_every_moment_now _ _ Hi).
      * cbn [legal header_need]. by read_state.
    + split; [by read_calls|]. split; [by read_calls|].
      left. read_calls. by apply no_failed_reset.
  - by apply run_ret.
Qed.

Lemma spec_on_chunk (cur : slot) (d1 : region) (len : Z) :
  run (rec_both cur hs) (call_on_chunk on_chunk d1 len)
    (fun _ => rec_given cur hs) (consumer_raised cur hs) engine_inv.
Proof.
  intros t Hboth. unfold call_on_chunk.
  destruct (on_chunk (count is_on_chunk t)) as [b|e]; cbn [of_cbres].
  - destruct Hboth as (Hi & Hs & H1 & H2 & Hc & Hp & Hb & Hz & Hf & Hr).
    split; [by apply engine_inv_quiet|]. read_calls. read_state.
    rewrite Hc. done.
  - by exists d1, len, t.
Qed.

Lemma spec_in_unprepare_cur (cur : slot) :
  run (rec_given cur hs) (hdr_in_unprepare W cur (hs cur))
    (fun _ => rec_top (other cur) hs) (rec_fail W) engine_inv.
Proof.
  unfold hdr_in_unprepare.
  apply run_checked_then with (Q := rec_top (other cur) hs).
  - intros t (Hi & Hs & H1 & H2 & Hc & Hp & Hb & Hz & Hf & Hr).
    split.
    + apply engine_inv_call; [done| |done].
      apply fifo_from with (rest := [(other cur, hs (other cur))]);
        [|cbn; lia].
      read_log. rewrite Hs, ?app_nil_r, <- ?app_assoc. done.
    + read_calls. read_state. rewrite other_twice. read_state.
      rewrite Hs, <- app_assoc, length_app. cbn [app length].
      split; [done|]. split; [done|]. split; [done|]. split; [lia|done].
  - intros t r e (Hi & Hs & H1 & H2 & Hc & Hp & Hb & Hz & Hf & Hr) Hne He.
    split; [by apply engine_inv_failed|].
    split; [by apply error_rule_failed|].
    split; [by read_calls|]. split; [by read_calls|]. no_resets.
  - by apply run_ret.
Qed.

Lemma spec_in_cleanup (cur : slot) (e : exn) :
  run (consumer_raised cur hs e)
    (hdr_in_unprepare W cur (hs cur) >>
     (let* r := call W waveInReset in
      let* _ := lift (check_mmr_in W r "reset audio device") in
      hdr_in_unprepare W (other cur) (hs (other cur))))
    (fun _ => rec_fail W e) (rec_fail W) engine_inv.
Proof.
  set (mid := fun t =>
    engine_inv t /\
    submissions t = releases t ++ [(other cur, hs (other cur))] /\
    hstate_of (other cur) t = Submitted /\
    error_rule W e t /\
    count is_stop t = 0%nat /\ count is_started t = 1%nat /\
    count is_failed_reset t = 0%nat).
  assert (Hraised : forall buf len t0, rec_both cur hs t0 ->
            engine_inv (EvOnChunk buf len (CbRaise e) :: t0) /\
            error_rule W e (EvOnChunk buf len (CbRaise e) :: t0)).
  { intros buf len t0 (Hi & Hs & H1 & H2 & Hc & Hp & Hb & Hz & Hf & Hr).
    split; [by apply engine_inv_quiet|]. by apply error_rule_raised. }
  apply run_bind with (Q := fun _ => mid).
  - unfold hdr_in_unprepare.
    apply run_checked_then with (Q := mid).
    + intros t (buf & len & t0 & -> & Hboth).
      destruct (Hraised buf len t0 Hboth) as [Hi' He].
      destruct Hboth as (Hi & Hs & H1 & H2 & Hc & Hp & Hb & Hz & Hf & Hr).
      split.
      * apply engine_inv_call; [done| |].
        -- apply fifo_from with (rest := [(other cur, hs (other cur))]);
             [|cbn; lia].
           read_log. rewrite Hs, ?app_nil_r, <- ?app_assoc. done.
        -- cbn [legal header_need]. by read_state.
      * read_calls. read_state. rewrite Hs, <- app_assoc. cbn [app].
        split; [done|]. split; [done|].
        split; [by apply error_rule_later|].
        split; [done|]. split; [done|]. by apply no_failed_reset.
    + intros t r e' (buf & len & t0 & -> & Hboth) Hne He'.
      destruct (Hraised buf len t0 Hboth) as [Hi' He].
      destruct Hboth as (Hi & Hs & H1 & H2 & Hc & Hp & Hb & Hz & Hf & Hr).
      split.
      * apply engine_inv_failed; [done|done|].
        cbn [legal header_need]. by read_state.
      * split; [by apply error_rule_failed|].
        split; [by read_calls|]. split; [by read_calls|].
        left. read_calls. by apply no_failed_reset.
    + by apply run_ret.
  - intros _. apply run_checked_then with (Q := mid).
    + intros t (Hi & Hs & H1 & He & Hp & Hb & Hz).
      split; [by apply engine_inv_quiet|]. read_calls. read_state.
      split; [done|]. split; [done|]. split; [by apply error_rule_later|done].
    + intros t r e' (Hi & Hs & H1 & He & Hp & Hb & Hz) Hne He'.
      split; [by apply engine_inv_quiet|].
      split; [by apply error_rule_failed|].
      split; [by read_calls|]. split; [by read_calls|].
      right. exists r, t. split; [done|]. split; [done|].
      exists (other cur, hs (other cur)). by read_log.
    + unfold hdr_in_unprepare.
      apply run_checked_then with (Q := rec_fail W e).
      * intros t (Hi & Hs & H1 & He & Hp & Hb & Hz).
        split.
        -- apply engine_inv_call; [done| |done].
           apply fifo_from with (rest := []); [|cbn; lia].
           read_log. rewrite Hs, ?app_nil_r, <- ?app_assoc. done.
        -- split; [by apply error_rule_later|].
           split; [by read_calls|]. split; [by read_calls|].
           left. by read_calls.
      * intros t r e' (Hi & Hs & H1 & He & Hp & Hb & Hz) Hne He'.
        split; [by apply engine_inv_failed|].
        split; [by apply error_rule_failed|].
        split; [by read_calls|]. split; [by read_calls|].
        left. by read_calls.
      * by apply run_ret.
Qed.

Lemma spec_record_loop_run (fuel : nat) :
  forall (cur : slot) (d1 d2 : region) (len : Z),
  run (rec_top cur hs)
    (RecordingDevice.record_loop W wfuel on_chunk fuel
       cur (other cur) d1 d2 len hs)
    (fun _ => rec_done) (rec_fail W) engine_inv.
Proof.
  induction fuel as [|fuel IH]; intros cur d1 d2 len.
  - apply run_out_of_fuel. by intros t [Hi _].
  - cbn [RecordingDevice.record_loop].
    apply run_bind with (Q := fun _ => rec_both cur hs);
      [apply spec_in_prepare_add|intros _].
    apply run_bind with (Q := fun _ => rec_both cur hs).
    { apply run_wait; [apply rec_both_stable|by intros t [Hi _]]. }
    intros _.
    apply run_bind with (Q := fun _ => rec_top (other cur) hs).
    + apply run_try_finally with
        (Q := fun _ => rec_given cur hs) (E1 := consumer_raised cur hs).
      * apply spec_on_chunk.
      * intros another.
        apply run_bind with (Q := fun _ => rec_top (other cur) hs).
        { apply spec_in_unprepare_cur. }
        intros _. by apply run_ret.
      * intros e. apply spec_in_cleanup.
    + intros [|].
      * specialize (IH (other cur) d2 d1 len).
        by rewrite other_twice in IH.
      * apply run_ret.
        intros t (Hi & Hs & H1 & H2 & Hc & Hp & Hb & Hz & Hf & Hr).
        split; [done|]. split; [by eexists|done].
Qed.
End RecordRuns.

Lemma is_started_failed (r : Z) :
  r <> MMSYSERR_NOERROR -> is_started (EvCall waveInStart r) = false.
Proof. intros Hr. cbn. by destruct (Z.eqb_spec r MMSYSERR_NOERROR). Qed.

(** [waveInStop] after the cleanup: a reset that failed stays the newest
    event but one. *)
Lemma reset_then_stop_later (rs : Z) (t : trace) :
  reset_rule waveInReset t -> reset_then_stop (EvCall waveInStop rs :: t).
Proof.
  intros [Hz|(r & t' & -> & Hr & Hx)].
  - left. by rewrite count_cons.
  - right. exists rs, r, t'. split; [done|]. split; [done|].
    by apply one_left_later.
Qed.

Lemma spec_record_run (W : world) (wfuel : nat) (on_chunk : nat -> cbres bool)
    (self : RecordingDevice.t) (fuel : nat) (k : Z) :
  run (fun t => t = []) (RecordingDevice.record W wfuel on_chunk self fuel k)
    (fun _ => record_returned) (record_raised W) engine_inv.
Proof.
  unfold RecordingDevice.record.
  apply run_bind with (Q := fun _ t => t = []).
  { intros t ->. destruct (as_int k) as [e|s] eqn:Hs; cbn; [|done].
    unfold as_int in Hs. destruct (_ && _); [done|]. injection Hs as <-.
    split; [apply engine_inv_nil|]. split; [by right|]. split; by left. }
  intros s.
  apply run_bind with (Q := fun _ t => t = []).
  { intros t ->. unfold RecordingDevice.bytearray.
    pose proof (to_word_range
      (int_mul (nBlockAlign (RecordingDevice._c_fmt self)) s)) as Hl.
    by destruct (Z.ltb_spec
      (to_word (int_mul (nBlockAlign (RecordingDevice._c_fmt self)) s)) 0);
      [lia|]. }
  intros len. fold (record_headers len). set (hs := record_headers len).
  set (first := fun t =>
    engine_inv t /\ submissions t = [(hdr1, hs hdr1)] /\ releases t = [] /\
    hstate_of hdr1 t = Submitted /\ hstate_of hdr2 t = Idle /\
    count is_on_chunk t = 0%nat /\ count is_stop t = 0%nat /\
    count is_started t = 0%nat /\ quiet t).
  apply run_bind with (Q := fun _ => first).
  { unfold hdr_in_prepare_add.
    assert (H1 : engine_inv [EvCall (waveInPrepareHeader hdr1 (hs hdr1))
                               MMSYSERR_NOERROR]).
    { apply engine_inv_call; [apply engine_inv_nil| |done].
      apply fifo_from with (rest := []); [done|cbn; lia]. }
    apply run_checked_then with
      (Q := fun t => t = [EvCall (waveInPrepareHeader hdr1 (hs hdr1))
                            MMSYSERR_NOERROR]).
    - by intros t ->.
    - intros t r e -> Hr He.
      split; [apply engine_inv_failed; [apply engine_inv_nil|done|done]|].
      split; [left; by apply error_rule_failed|]. split; by left.
    - apply run_checked_then with (Q := first).
      + intros t ->. split; [|done].
        apply engine_inv_call; [done| |done].
        apply fifo_from with (rest := [(hdr1, hs hdr1)]); [done|cbn; lia].
      + intros t r e -> Hr He.
        split; [by apply engine_inv_failed|].
        split; [left; by apply error_rule_failed|]. split; by left.
      + by apply run_ret. }
  intros _.
  apply run_bind with (Q := fun _ => rec_top hdr1 hs).
  { apply run_checked.
    - intros t (Hi & Hs & Hr & H1 & H2 & Hc & Hp & Hb & Hz & Hf & Hcb).
      split; [by apply engine_inv_quiet|]. read_calls. read_state.
      rewrite Hs, Hr, Hb. done.
    - intros t r e (Hi & Hs & Hr & H1 & H2 & Hc & Hp & Hb & Hz & Hf & Hcb)
        Hne He.
      split; [by apply engine_inv_quiet|].
      split; [left; by apply error_rule_failed|]. split.
      + left. rewrite !count_cons, is_started_failed by done. cbn. done.
      + left. read_calls. by apply no_failed_reset. }
  intros _.
  apply run_try_finally with
    (Q := fun _ => rec_done) (E1 := rec_fail W).
  - apply (spec_record_loop_run W wfuel on_chunk hs fuel hdr1).
  - intros _. apply run_checked_then with (Q := record_returned).
    + intros t (Hi & Hx & Hc & Hp & Hb & Hz & Hf & Hcb).
      split; [by apply engine_inv_quiet|].
      split; [by apply one_left_later|]. read_calls.
      split; [done|]. split; [|done].
      right. split; [done|]. eauto.
    + intros t r e (Hi & Hx & Hc & Hp & Hb & Hz & Hf & Hcb) Hr He.
      split; [by apply engine_inv_quiet|].
      split; [left; by apply error_rule_failed|]. split.
      * right. read_calls. split; [done|]. eauto.
      * left. read_calls. by apply no_failed_reset.
    + by apply run_ret.
  - intros e. apply run_checked_then with (Q := record_raised W e).
    + intros t (Hi & He & Hp & Hb & Hz).
      split; [by apply engine_inv_quiet|].
      split; [left; by apply error_rule_later|]. split.
      * right. read_calls. split; [done|]. eauto.
      * by apply reset_then_stop_later.
    + intros t r e' (Hi & He & Hp & Hb & Hz) Hr He'.
      split; [by apply engine_inv_quiet|].
      split; [left; by apply error_rule_failed|]. split.
      * right. read_calls. split; [done|]. eauto.
      * by apply reset_then_stop_later.
    + by apply run_ret.
Qed.

(** At every moment of every run of [record], whatever the subsystem and
    the consumer do, the buffers released are the first of the buffers
    submitted, in the same order and with the same header contents, and
    every call on a header finds it in the state the call expects: idle
    for a prepare, prepared for [waveInAddBuffer], submitted for an
    unprepare.  No header is prepared or queued twice without an
    unprepare in between. *)
Theorem record_headers_in_order (W : world) (wfuel : nat)
    (on_chunk : nat -> cbres bool) (self : RecordingDevice.t)
    (fuel : nat) (k : Z) :
  at_every_moment (fun now => fifo now /\ legal now)
    (snd (RecordingDevice.record W wfuel on_chunk self fuel k [])).
Proof.
  pose proof (spec_record_run W wfuel on_chunk self fuel k [] eq_refl) as H.
  destruct (RecordingDevice.record W wfuel on_chunk self fuel k [])
    as [[u|e|] t]; cbn [snd]; [by destruct H|by destruct H|done].
Qed.

(** Whenever [record] returns normally, whatever the subsystem did,
    exactly one submitted buffer is not released, the one queued last;
    every other buffer was released in submission order, one per
    invocation of the consumer. *)
Theorem record_returns_one_queued (W : world) (wfuel : nat)
    (on_chunk : nat -> cbres bool) (self : RecordingDevice.t)
    (fuel : nat) (k : Z) :
  match RecordingDevice.record W wfuel on_chunk self fuel k [] with
  | (Done _, t) =>
      (exists x, submissions t = releases t ++ [x]) /\
      outstanding t = 1 /\
      count is_on_chunk t = length (releases t)
  | _ => True
  end.
Proof.
  pose proof (spec_record_run W wfuel on_chunk self fuel k [] eq_refl) as H.
  destruct (RecordingDevice.record W wfuel on_chunk self fuel k [])
    as [[u|e|] t]; [|done|done].
  destruct H as (_ & Hx & Hc & _). split; [done|]. split; [|done].
  by apply outstanding_one_left.
Qed.

(** [record] returns normally only when no call to the subsystem failed
    and the consumer did not raise.  Whenever it raises, the error is
    what the translator raises for the newest call that failed, with the
    cause that the module names for that call; when no call failed, it is
    the error that the consumer raised at its newest invocation, or, with
    nothing done yet, the [OverflowError] of a chunk size that is no C
    [int].  [record] raises nothing else of its own and swallows no
    error. *)
Theorem record_errors_origin (W : world) (wfuel : nat)
    (on_chunk : nat -> cbres bool) (self : RecordingDevice.t)
    (fuel : nat) (k : Z) :
  match RecordingDevice.record W wfuel on_chunk self fuel k [] with
  | (Done _, t) => last_failure t = None /\ callback_raised t = None
  | (Raised e, t) =>
      match last_failure t with
      | Some (c, r) => translated W r (cause_of c) (for_in_of c) e
      | None => callback_raised t = Some e \/ (t = [] /\ e = OverflowError)
      end
  | (OutOfFuel, _) => True
  end.
Proof.
  pose proof (spec_record_run W wfuel on_chunk self fuel k [] eq_refl) as H.
  destruct (RecordingDevice.record W wfuel on_chunk self fuel k [])
    as [[u|e|] t]; [| |done].
  - by destruct H as (_ & _ & _ & _ & _ & H).
  - destruct H as (_ & [He|[-> ->]] & _).
    + unfold error_rule in He. destruct (last_failure t) as [[c r]|]; auto.
    + cbn. by right.
Qed.

(** Whenever [record] returns or raises, [waveInStop] has been called
    exactly once, as the very last call, if [waveInStart] had returned
    [MMSYSERR_NOERROR]; if [waveInStart] was not reached or failed,
    [waveInStop] is not called at all. *)
Theorem record_stops_iff_started (W : world) (wfuel : nat)
    (on_chunk : nat -> cbres bool) (self : RecordingDevice.t)
    (fuel : nat) (k : Z) :
  match RecordingDevice.record W wfuel on_chunk self fuel k [] with
  | (OutOfFuel, _) => True
  | (_, t) =>
      (count is_started t = 0%nat /\ count is_stop t = 0%nat) \/
      (count is_started t = 1%nat /\
       exists r t', t = EvCall waveInStop r :: t' /\ count is_stop t' = 0%nat)
  end.
Proof.
  pose proof (spec_record_run W wfuel on_chunk self fuel k [] eq_refl) as H.
  destruct (RecordingDevice.record W wfuel on_chunk self fuel k [])
    as [[u|e|] t]; [| |done].
  - by destruct H as (_ & _ & _ & Hs & _).
  - by destruct H as (_ & _ & Hs & _).
Qed.

(** [record] makes no reset when it returns normally.  When the reset
    that follows an error of the consumer fails, [waveInStop] is all that
    [record] still calls: the queued next buffer is never unprepared, so
    that one submitted buffer is left with the device, and [record]
    raises, not the consumer's error, but what the translator raises for
    the reset, or for the stop when that fails too. *)
Theorem record_failed_reset (W : world) (wfuel : nat)
    (on_chunk : nat -> cbres bool) (self : RecordingDevice.t)
    (fuel : nat) (k : Z) :
  match RecordingDevice.record W wfuel on_chunk self fuel k [] with
  | (Done _, t) => count is_reset t = 0%nat
  | (Raised e, t) =>
      count is_failed_reset t = 0%nat \/
      exists rs r t',
        t = EvCall waveInStop rs :: EvCall waveInReset r :: t' /\
        r <> MMSYSERR_NOERROR /\
        outstanding t = 1 /\
        if rs =? MMSYSERR_NOERROR
        then translated W r "reset audio device" true e
        else translated W rs "stop recording" true e
  | (OutOfFuel, _) => True
  end.
Proof.
  pose proof (spec_record_run W wfuel on_chunk self fuel k [] eq_refl) as H.
  destruct (RecordingDevice.record W wfuel on_chunk self fuel k [])
    as [[u|e|] t]; [| |done].
  - by destruct H as (_ & _ & _ & _ & H & _).
  - destruct H as (_ & He & _ & [H|(rs & r & t' & -> & Hr & Hx)]);
      [by left|right].
    exists rs, r, t'. split; [done|]. split; [done|].
    split; [by apply outstanding_one_left|].
    destruct He as [He|[? _]]; [|done].
    unfold error_rule in He. cbn [last_failure failure] in He.
    destruct (Z.eqb_spec rs MMSYSERR_NOERROR) as [_|_]; [|done].
    by destruct (Z.eqb_spec r MMSYSERR_NOERROR).
Qed.

(** ** Arguments and sizes *)

Lemma as_int_out (z : Z) : ~ in_int z -> as_int z = inl OverflowError.
Proof.
  unfold in_int, as_int. intros H.
  destruct (Z.leb_spec INT_MIN z); [|done].
  destruct (Z.leb_spec z INT_MAX); [lia|done].
Qed.

Lemma as_int_cases (z : Z) : as_int z = inr z \/ as_int z = inl OverflowError.
Proof. unfold as_int. destruct (_ && _); auto. Qed.

Lemma as_dword_cases (z : Z) :
  as_dword z = inr z \/ as_dword z = inl OverflowError.
Proof. unfold as_dword. destruct (_ && _); auto. Qed.

(** *** Computations only add to the log *)

Lemma grows_ret {A} (a : A) : grows (ret a).
Proof. intros t. by exists []. Qed.

Lemma grows_lift {A} (x : exn + A) : grows (lift x).
Proof. intros t. exists []. by destruct x. Qed.

Lemma grows_out_of_fuel {A} : grows (@out_of_fuel A).
Proof. intros t. by exists []. Qed.

Lemma grows_bind {A B} (m : M A) (k : A -> M B) :
  grows m -> (forall a, grows (k a)) -> grows (bind m k).
Proof.
  intros Hm Hk t. unfold bind. destruct (Hm t) as [l Hl].
  destruct (m t) as [[a|e|] t1]; cbn [snd] in Hl; subst t1.
  - destruct (Hk a (l ++ t)) as [l' Hl']. exists (l' ++ l).
    by rewrite Hl', app_assoc.
  - by exists l.
  - by exists l.
Qed.

Lemma grows_try_finally {A} (body : M A) (fin : bool -> M unit) :
  grows body -> (forall b, grows (fin b)) -> grows (try_finally body fin).
Proof.
  intros Hb Hf t. unfold try_finally. destruct (Hb t) as [l Hl].
  destruct (body t) as [[a|e|] t1]; cbn [snd] in Hl; subst t1.
  - destruct (Hf true (l ++ t)) as [l' Hl']. exists (l' ++ l).
    destruct (fin true (l ++ t)) as [[u|e|] t2]; cbn [snd] in *;
      by rewrite Hl', app_assoc.
  - destruct (Hf false (l ++ t)) as [l' Hl']. exists (l' ++ l).
    destruct (fin false (l ++ t)) as [[u|e'|] t2]; cbn [snd] in *;
      by rewrite Hl', app_assoc.
  - by exists l.
Qed.

Lemma grows_call (W : world) (c : devcall) : grows (call W c).
Proof. intros t. by exists [EvCall c (mmresult W t c)]. Qed.

Lemma grows_checked (W : world) (c : devcall) (cause : string)
    (for_in : bool) :
  grows (let* r := call W c in lift (check_mmresult W r cause for_in)).
Proof. apply grows_bind; [apply grows_call|]. intros r. apply grows_lift. Qed.

Lemma grows_wait_done (W : world) (wfuel : nat) (w : slot) :
  grows (wait_done W wfuel w).
Proof.
  intros t. destruct (wait_done_log W wfuel w t) as (l & o & -> & _).
  by exists (rev l).
Qed.

Lemma grows_on_chunk (on_chunk : nat -> cbres bool) (buf : region) (len : Z) :
  grows (call_on_chunk on_chunk buf len).
Proof. intros t. by eexists [_]. Qed.

Lemma grows_hdr_in_prepare_add (W : world) (w : slot) (h : WAVEHDR) :
  grows (hdr_in_prepare_add W w h).
Proof.
  unfold hdr_in_prepare_add.
  repeat first [apply grows_ret | apply grows_lift | apply grows_call
               | apply grows_bind | intros ?].
Qed.

Lemma grows_hdr_in_unprepare (W : world) (w : slot) (h : WAVEHDR) :
  grows (hdr_in_unprepare W w h).
Proof.
  unfold hdr_in_unprepare.
  repeat first [apply grows_ret | apply grows_lift | apply grows_call
               | apply grows_bind | intros ?].
Qed.

Lemma grows_record_loop (W : world) (wfuel : nat)
    (on_chunk : nat -> cbres bool) (fuel : nat) :
  forall (phdr pnext_hdr : slot) (d1 d2 : region) (len : Z) (hs : headers),
  grows (RecordingDevice.record_loop W wfuel on_chunk fuel
           phdr pnext_hdr d1 d2 len hs).
Proof.
  induction fuel as [|fuel IH]; intros phdr pnext_hdr d1 d2 len hs.
  - apply grows_out_of_fuel.
  - cbn [RecordingDevice.record_loop].
    apply grows_bind; [apply grows_hdr_in_prepare_add|intros _].
    apply grows_bind; [apply grows_wait_done|intros _].
    apply grows_bind.
    + apply grows_try_finally; [apply grows_on_chunk|].
      intros b. apply grows_bind; [apply grows_hdr_in_unprepare|intros _].
      destruct b; [apply grows_ret|].
      apply grows_bind; [apply grows_call|intros r].
      apply grows_bind; [apply grows_lift|intros _].
      apply grows_hdr_in_unprepare.
    + intros [|]; [apply IH|apply grows_ret].
Qed.

(** The oldest event of the log of a computation that starts with a call
    and goes on with computations that only add to the log. *)
Lemma starts_with_call {A} (W : world) (c : devcall) (k : Z -> M A) :
  (forall r, grows (k r)) ->
  exists l, snd ((let* r := call W c in k r) [])
            = l ++ [EvCall c (mmresult W [] c)].
Proof. intros Hk. unfold bind, call. apply Hk. Qed.

Lemma bind_assoc {A B C} (m : M A) (k : A -> M B) (j : B -> M C) (t : trace) :
  bind (bind m k) j t = bind m (fun a => bind (k a) j) t.
Proof. unfold bind. by destruct (m t) as [[a|e|] t1]. Qed.

(** [record] turns away a chunk size only when it does not fit a C [int],
    with [OverflowError] and before anything is asked of the subsystem.
    Every other chunk size, also zero or a negative one, is taken: the
    buffers get as many bytes as the low 16 bits of [nBlockAlign * k] say,
    which is never negative, and the first thing [record] does is to
    prepare the first header with a buffer of that length. *)
Theorem record_takes_any_int (W : world) (wfuel : nat)
    (on_chunk : nat -> cbres bool) (self : RecordingDevice.t)
    (fuel : nat) (k : Z) :
  let len := (nBlockAlign (RecordingDevice._c_fmt self) * k) mod 2 ^ 16 in
  let h := {| lpData := PyByteArray bufA; dwBufferLength := len |} in
  (~ in_int k ->
   RecordingDevice.record W wfuel on_chunk self fuel k []
   = (Raised OverflowError, [])) /\
  (in_int k ->
   0 <= len < 2 ^ 16 /\
   exists l,
     snd (RecordingDevice.record W wfuel on_chunk self fuel k [])
     = l ++ [EvCall (waveInPrepareHeader hdr1 h)
               (mmresult W [] (waveInPrepareHeader hdr1 h))]).
Proof.
  intros len h. split.
  - intros Hk. unfold RecordingDevice.record, bind.
    by rewrite (as_int_out _ Hk).
  - intros Hk.
    assert (Hl : 0 <= len < 2 ^ 16) by (apply Z.mod_pos_bound; lia).
    split; [done|].
    unfold RecordingDevice.record. unfold bind at 1.
    rewrite (as_int_in _ Hk). cbn [lift ret].
    unfold int_mul. rewrite to_word_int_wrap. fold len.
    unfold bind at 1. unfold RecordingDevice.bytearray.
    destruct (Z.ltb_spec len 0) as [?|_]; [lia|]. cbn [ret].
    rewrite (to_dword_small len) by lia.
    unfold hdr_in_prepare_add. rewrite !bind_assoc.
    unfold store at 5. cbn [slot_eqb]. unfold store at 5. cbn [slot_eqb].
    fold h.
    apply starts_with_call. intros r.
    repeat first [apply grows_ret | apply grows_lift | apply grows_call
                 | apply grows_record_loop | apply grows_try_finally
                 | apply grows_bind | intros ?].
Qed.

Lemma record_takes_any_int_witness :
  (RecordingDevice.record ideal 1 stop_at_once sample_rec 1 (2 ^ 31) []
   = (Raised OverflowError, [])) /\
  (exists l,
     snd (RecordingDevice.record ideal 1 stop_at_once sample_rec 1 (-1) [])
     = l ++ [EvCall (waveInPrepareHeader hdr1
                       {| lpData := PyByteArray bufA;
                          dwBufferLength := 65532 |}) MMSYSERR_NOERROR]).
Proof.
  split.
  - apply (record_takes_any_int ideal 1 stop_at_once sample_rec 1 (2 ^ 31)).
    unfold in_int, INT_MIN, INT_MAX. lia.
  - apply (record_takes_any_int ideal 1 stop_at_once sample_rec 1 (-1)).
    unfold in_int, INT_MIN, INT_MAX. lia.
Defined.

(** A device id that does not fit a [DWORD] (a negative one, for one), or
    a channel count, sample rate or sample width that does not fit a C
    [int], makes construction raise [OverflowError] before the device is
    opened: the log is unchanged. *)
Theorem cinit_rejects_large_arguments (W : world) (d c f s : Z) (t : trace) :
  ~ in_dword d \/ ~ in_int c \/ ~ in_int f \/ ~ in_int s ->
  PlaybackDevice.__cinit__ W d c f s t = (Raised OverflowError, t) /\
  RecordingDevice.__cinit__ W d c f s t = (Raised OverflowError, t).
Proof.
  intros H. unfold PlaybackDevice.__cinit__, RecordingDevice.__cinit__, bind.
  destruct (as_dword_cases d) as [Hd| ->]; [rewrite Hd|done].
  destruct (as_int_cases c) as [Hc| ->]; [rewrite Hc|done].
  destruct (as_int_cases f) as [Hf| ->]; [rewrite Hf|done].
  destruct (as_int_cases s) as [Hs| ->]; [rewrite Hs|done].
  apply as_dword_inv in Hd as [_ Hd]. apply as_int_inv in Hc as [_ Hc].
  apply as_int_inv in Hf as [_ Hf]. apply as_int_inv in Hs as [_ Hs].
  destruct H as [H|[H|[H|H]]]; done.
Qed.

Lemma cinit_rejects_large_arguments_witness :
  PlaybackDevice.__cinit__ ideal (-1) 2 44100 2 []
  = (Raised OverflowError, []) /\
  RecordingDevice.__cinit__ ideal WAVE_MAPPER 2 (2 ^ 31) 2 []
  = (Raised OverflowError, []).
Proof.
  split.
  - apply (cinit_rejects_large_arguments ideal (-1) 2 44100 2 []).
    left. unfold in_dword. lia.
  - apply (cinit_rejects_large_arguments ideal WAVE_MAPPER 2 (2 ^ 31) 2 []).
    right. right. left. unfold in_int, INT_MIN, INT_MAX. lia.
Defined.

(** ** Examples of enumeration *)

Lemma enumeration_lists_devices_witness :
  _get_playback_devices ideal two_speakers
  = inr [("Default", WAVE_MAPPER); ("Speakers", 0); ("Headset", 1)] /\
  _get_recording_devices ideal two_speakers
  = inr [("Default", WAVE_MAPPER, None); ("Microphone", 0, Some 2)].
Proof.
  destruct (enumeration_lists_devices ideal two_speakers) as (Ho & Hi & _).
  split.
  - apply Ho. intros j Hj. reflexivity.
  - apply Hi. intros j Hj. reflexivity.
Defined.

Lemma enumeration_fails_at_first_error_witness :
  (exists e,
     _get_playback_devices talkative broken_second = inl e /\
     translated talkative MMSYSERR_NODRIVER "get device capabilities" false e) /\
  (exists e,
     _get_recording_devices ideal broken_second = inl e /\
     translated ideal MMSYSERR_NODRIVER "get device capabilities" true e).
Proof.
  split.
  - apply (enumeration_fails_at_first_error talkative broken_second 1).
    + cbn. lia.
    + intros k Hk. assert (k = 0) as -> by lia. reflexivity.
    + cbn. unfold MMSYSERR_NODRIVER, MMSYSERR_NOERROR. lia.
  - apply (enumeration_fails_at_first_error ideal broken_second 1).
    + cbn. lia.
    + intros k Hk. assert (k = 0) as -> by lia. reflexivity.
    + cbn. unfold MMSYSERR_NODRIVER, MMSYSERR_NOERROR. lia.
Defined.
